(** * YouTube-Channel-Archiver: the paginated comment harvest engine

    A shallow embedding of [src/content/page-script.js]: the retry
    transport ([fetchWithRetry]), the entity resolver ([parseEntityStore],
    [resolveComment]), the thread processing ([processCommentThread],
    [fetchReplies], [fetchCommentsViaContinuation]), the reply queue
    ([SimpleQueue]), the IndexedDB sink ([saveCommentBatch],
    [getAllComments]) and the main loop of [extractComments]; besides,
    the search for the token of the newest-first sort ([deepFind]) and
    the transcript helpers ([timeToSeconds], [formatNVivoTime],
    [parseDomSegments]).

    Conventions.
    - The data the script handles is parsed JSON, so it is modelled as
      trees ([value]).  JSON numbers are restricted to integers.
    - A string is the sequence of its code units, all below 256.
    - Asynchronous functions that await each other in sequence are
      written in a state-and-exception monad over a [World] (entity store,
      scripted network, page configuration).
    - Code that runs concurrently (the reply queue, the write handles) is
      modelled by transition systems over events. *)

From Stdlib Require Import List String Ascii ZArith Lia Bool Arith.
From Stdlib Require Import DecimalString Permutation.
From Stdlib Require DecimalPos.
Import ListNotations.
Set Warnings "-register-all".
Local Open Scope string_scope.
Local Open Scope list_scope.

(** ** JavaScript values *)

Module JS.

(** A value of the script: [undefined], or a node of a parsed JSON
    document.  The fields of an object have distinct names and are listed
    in the order they were created. *)
Inductive value : Type :=
| VUndef : value
| VNull : value
| VBool : bool -> value
| VNum : Z -> value
| VStr : string -> value
| VArr : list value -> value
| VObj : list (string * value) -> value.

(** [!!v] *)
Definition truthy (v : value) : bool :=
  match v with
  | VUndef | VNull => false
  | VBool b => b
  | VNum z => negb (Z.eqb z 0)
  | VStr s => negb (String.eqb s EmptyString)
  | VArr _ | VObj _ => true
  end.

(** [a || b] *)
Definition or_ (a b : value) : value := if truthy a then a else b.

Definition nullish (v : value) : bool :=
  match v with VUndef | VNull => true | _ => false end.

Fixpoint assoc (k : string) (fields : list (string * value)) : value :=
  match fields with
  | [] => VUndef
  | (k', v) :: rest => if String.eqb k k' then v else assoc k rest
  end.

(** A canonical array index: ["0"], or decimal digits without a leading
    zero. *)
Definition digit_of (c : ascii) : option nat :=
  let n := nat_of_ascii c in
  if andb (48 <=? n)%nat (n <=? 57)%nat then Some (n - 48)%nat else None.

Fixpoint digits_acc (s : string) (acc : nat) : option nat :=
  match s with
  | EmptyString => Some acc
  | String c rest =>
      match digit_of c with
      | Some d => digits_acc rest (10 * acc + d)%nat
      | None => None
      end
  end.

Definition index_of_key (k : string) : option nat :=
  match k with
  | EmptyString => None
  | String c rest =>
      if andb (Ascii.eqb c "0") (negb (String.eqb rest EmptyString)) then None
      else digits_acc k 0
  end.

Definition char_at (s : string) (i : nat) : value :=
  match String.get i s with
  | Some c => VStr (String c EmptyString)
  | None => VUndef
  end.

(** [v[k]] for a [v] that is neither [null] nor [undefined], and a key
    [k] that names no built-in member ([length], methods): own properties
    of objects, elements of arrays, characters of strings. *)
Definition prop (k : string) (v : value) : value :=
  match v with
  | VObj fields => assoc k fields
  | VArr items =>
      match index_of_key k with
      | Some i => nth i items VUndef
      | None => VUndef
      end
  | VStr s =>
      match index_of_key k with
      | Some i => char_at s i
      | None => VUndef
      end
  | _ => VUndef
  end.

(** The number a string of decimal digits writes. *)
Fixpoint digits_N (s : string) (acc : N) : option N :=
  match s with
  | EmptyString => Some acc
  | String c rest =>
      match digit_of c with
      | Some d => digits_N rest (10 * acc + N.of_nat d)%N
      | None => None
      end
  end.

(** The index a property name stands for when the name is an array
    index: a canonical numeral below [2^32 - 1]. *)
Definition array_index (k : string) : option N :=
  match k with
  | EmptyString => None
  | String c rest =>
      if andb (Ascii.eqb c "0") (negb (String.eqb rest EmptyString)) then None
      else match digits_N k 0 with
           | Some n => if (n <? 4294967295)%N then Some n else None
           | None => None
           end
  end.

(** An indexed property takes its place before the first one whose
    index is not smaller. *)
Fixpoint insert_indexed {A} (i : N) (x : A) (l : list (N * A))
  : list (N * A) :=
  match l with
  | [] => [(i, x)]
  | (j, y) :: rest =>
      if (i <=? j)%N then (i, x) :: (j, y) :: rest
      else (j, y) :: insert_indexed i x rest
  end.

(** The properties whose name is an array index, by ascending index. *)
Definition indexed {A} (fields : list (string * A))
  : list (N * (string * A)) :=
  fold_right (fun kv acc =>
                match array_index (fst kv) with
                | Some i => insert_indexed i kv acc
                | None => acc
                end)
             [] fields.

(** [Object.entries(o)]: the properties whose name is an array index
    come first, by ascending index, then the others in the order they
    were created, which is the order of the list. *)
Definition entries {A} (fields : list (string * A)) : list (string * A) :=
  map snd (indexed fields)
  ++ filter (fun kv => match array_index (fst kv) with
                       | Some _ => false
                       | None => true
                       end)
            fields.

(** [v?.k1?.k2 ...]: optional chaining along a path. *)
Fixpoint opt_path (ks : list string) (v : value) : value :=
  match ks with
  | [] => v
  | k :: rest => if nullish v then VUndef else opt_path rest (prop k v)
  end.

(** [Array.isArray] *)
Definition isArray (v : value) : bool :=
  match v with VArr _ => true | _ => false end.

Definition string_of_Z (z : Z) : string :=
  NilZero.string_of_int (Z.to_int z).

Fixpoint join_with (sep : string) (parts : list string) : string :=
  match parts with
  | [] => EmptyString
  | [p] => p
  | p :: rest => p ++ sep ++ join_with sep rest
  end.

(** [String(v)] *)
Fixpoint ToString (v : value) : string :=
  match v with
  | VUndef => "undefined"
  | VNull => "null"
  | VBool true => "true"
  | VBool false => "false"
  | VNum z => string_of_Z z
  | VStr s => s
  | VArr items =>
      join_with ","
        (map (fun x => if nullish x then EmptyString else ToString x) items)
  | VObj _ => "[object Object]"
  end.

(** [arr.join(sep)] on the elements of an array. *)
Definition join (sep : string) (items : list value) : string :=
  join_with sep (map (fun x => if nullish x then EmptyString else ToString x) items).

(** SameValueZero on parsed JSON: primitives by value; two objects or
    arrays are never the same reference, every node of a parsed document
    being a fresh object. *)
Definition sameValueZero (a b : value) : bool :=
  match a, b with
  | VUndef, VUndef => true
  | VNull, VNull => true
  | VBool x, VBool y => Bool.eqb x y
  | VNum x, VNum y => Z.eqb x y
  | VStr x, VStr y => String.eqb x y
  | _, _ => false
  end.

(** [s.startsWith(p)] *)
Definition startsWith (p s : string) : bool := String.prefix p s.

(** [s.includes(p)] *)
Fixpoint str_includes (p s : string) : bool :=
  if String.prefix p s then true
  else match s with
       | String _ rest => str_includes p rest
       | EmptyString => false
       end.

End JS.
Import JS.

(** ** Exceptions, the world and its monad *)

(** Outcome of a computation: a value, a thrown exception, or recursion
    budget exhausted (a computation that has not returned). *)
Inductive res (A : Type) : Type :=
| Ret : A -> res A
| Throw : res A
| Fuel : res A.
Arguments Ret {A} _.
Arguments Throw {A}.
Arguments Fuel {A}.

Definition res_bind {A B} (r : res A) (k : A -> res B) : res B :=
  match r with
  | Ret a => k a
  | Throw => Throw
  | Fuel => Fuel
  end.

(** A JavaScript [Map] whose keys and payloads are JSON values, in
    insertion order. *)
Module JSMap.

Definition t : Type := list (value * value).

Definition empty : t := [].

Fixpoint get (m : t) (k : value) : value :=
  match m with
  | [] => VUndef
  | (k', v) :: rest => if sameValueZero k' k then v else get rest k
  end.

Fixpoint has (m : t) (k : value) : bool :=
  match m with
  | [] => false
  | (k', _) :: rest => if sameValueZero k' k then true else has rest k
  end.

(** [m.set(k, v)]: replaces the payload of an existing key in place,
    appends a new key. *)
Fixpoint set (m : t) (k v : value) : t :=
  match m with
  | [] => [(k, v)]
  | (k', v') :: rest =>
      if sameValueZero k' k then (k', v) :: rest
      else (k', v') :: set rest k v
  end.

(** [src.forEach((v, k) => dst.set(k, v))] *)
Definition set_all (src dst : t) : t :=
  fold_left (fun acc kv => set acc (fst kv) (snd kv)) src dst.

End JSMap.

(** What the network answers to one [fetch] call. *)
Record response : Type := mkResponse {
  ok : bool;
  status : Z;
  json : option value   (* [None]: [response.json()] rejects *)
}.

Inductive attempt : Type :=
| Responded : response -> attempt
| Rejected : string -> attempt.   (* network-level failure *)

Record request : Type := mkRequest {
  url : string;
  body : value
}.

Record World : Type := mkWorld {
  net : nat -> attempt;      (* answer to the n-th [fetch] call *)
  calls : nat;               (* number of [fetch] calls made so far *)
  requests : list request;   (* the requests sent, oldest first *)
  delays : list Z;           (* the [setTimeout] delays awaited, oldest first *)
  entityStore : JSMap.t;     (* the session's shared entity store *)
  apiKey : value;            (* [ytcfg.get('INNERTUBE_API_KEY')] *)
  context : value            (* [ytcfg.get('INNERTUBE_CONTEXT')] *)
}.

Definition M (A : Type) : Type := World -> res A * World.

Definition ret {A} (a : A) : M A := fun w => (Ret a, w).
Definition out_of_fuel {A} : M A := fun w => (Fuel, w).

Definition bind {A B} (m : M A) (k : A -> M B) : M B :=
  fun w =>
    match m w with
    | (Ret a, w') => k a w'
    | (Throw, w') => (Throw, w')
    | (Fuel, w') => (Fuel, w')
    end.

(** [try { m } catch (e) { h }] *)
Definition try_catch {A} (m : M A) (h : M A) : M A :=
  fun w =>
    match m w with
    | (Throw, w') => h w'
    | r => r
    end.

Definition lift {A} (r : res A) : M A := fun w => (r, w).

Declare Scope monad_scope.
Delimit Scope monad_scope with monad.
Notation "x <- m ;; k" := (bind m (fun x => k))
  (at level 61, m at next level, right associativity) : monad_scope.
Notation "m ;;; k" := (bind m (fun _ => k))
  (at level 61, right associativity) : monad_scope.
Local Open Scope monad_scope.

(** ** Retry transport *)

Module Transport.

(** [await fetch(url, options)] *)
Definition fetch (u : string) (b : value) : World -> attempt * World :=
  fun w =>
    (net w (calls w),
     mkWorld (net w) (S (calls w)) (requests w ++ [mkRequest u b])
             (delays w) (entityStore w) (apiKey w) (context w)).

(** [await new Promise(r => setTimeout(r, ms))] *)
Definition sleep (ms : Z) : World -> World :=
  fun w =>
    mkWorld (net w) (calls w) (requests w) (delays w ++ [ms])
            (entityStore w) (apiKey w) (context w).

(** The mock response returned once the retries are used up. *)
Definition sentinel : response := mkResponse false 0 None.

Fixpoint fetchWithRetry (u : string) (b : value) (retries : nat) (backoff : Z)
  : World -> response * World :=
  fun w =>
    let (a, w1) := fetch u b w in
    let on_error :=
      match retries with
      | S r => fetchWithRetry u b r (backoff * 2) (sleep backoff w1)
      | O => (sentinel, w1)
      end in
    match a with
    | Responded resp => if ok resp then (resp, w1) else on_error
    | Rejected _ => on_error
    end.

(** The defaults of the source: [retries = 5, backoff = 1000]. *)
Definition default_retries : nat := 5.
Definition default_backoff : Z := 1000.

Definition send (u : string) (b : value) : World -> response * World :=
  fetchWithRetry u b default_retries default_backoff.

End Transport.

Notation "x <~ m ;; k" := (res_bind m (fun x => k))
  (at level 61, m at next level, right associativity) : monad_scope.

(** ** Records *)

(** A comment record.  A field the object does not carry is [VUndef]. *)
Record comment : Type := mkComment {
  id : value;
  author : value;
  text : value;
  time : value;
  likes : value;
  authorUrl : value;
  isChannelOwner : value;
  isMember : value;
  member : value;
  authorImg : value;
  isReply : value;
  parentId : value;
  replies : value
}.

Definition set_id (c : comment) (v : value) : comment :=
  mkComment v (author c) (text c) (time c) (likes c) (authorUrl c)
            (isChannelOwner c) (isMember c) (member c) (authorImg c)
            (isReply c) (parentId c) (replies c).

Definition set_isReply (c : comment) (v : value) : comment :=
  mkComment (id c) (author c) (text c) (time c) (likes c) (authorUrl c)
            (isChannelOwner c) (isMember c) (member c) (authorImg c)
            v (parentId c) (replies c).

Definition set_parentId (c : comment) (v : value) : comment :=
  mkComment (id c) (author c) (text c) (time c) (likes c) (authorUrl c)
            (isChannelOwner c) (isMember c) (member c) (authorImg c)
            (isReply c) v (replies c).

Definition set_authorUrl (c : comment) (v : value) : comment :=
  mkComment (id c) (author c) (text c) (time c) (likes c) v
            (isChannelOwner c) (isMember c) (member c) (authorImg c)
            (isReply c) (parentId c) (replies c).

(** ** Entity resolver *)

Module Resolver.

Fixpoint chars (s : string) : list value :=
  match s with
  | EmptyString => []
  | String c rest => VStr (String c EmptyString) :: chars rest
  end.

(** The elements a [for ... of] loop or a spread visits; a value that is
    not iterable raises a TypeError. *)
Definition iterate (v : value) : res (list value) :=
  match v with
  | VArr items => Ret items
  | VStr s => Ret (chars s)
  | _ => Throw
  end.

(** [v.k] where [v] may be [null] or [undefined] (TypeError). *)
Definition member_of (k : string) (v : value) : res value :=
  if nullish v then Throw else Ret (prop k v).

Fixpoint split_acc (s : string) (cur : string) : list string :=
  match s with
  | EmptyString => [cur]
  | String c rest =>
      if Ascii.eqb c "."
      then cur :: split_acc rest EmptyString
      else split_acc rest (cur ++ String c EmptyString)
  end.

(** [path.split('.')] *)
Definition split_dots (path : string) : list string :=
  split_acc path EmptyString.

(** [getVal(path, obj)] *)
Definition getVal (path : string) (obj : value) : value :=
  if negb (truthy obj) then VUndef
  else fold_left (fun o k => prop k (or_ o (VObj []))) (split_dots path) obj.

(** [xs.map(f)] for a callback that may throw. *)
Fixpoint map_res {A B} (f : A -> res B) (xs : list A) : res (list B) :=
  match xs with
  | [] => Ret []
  | x :: rest =>
      y <~ f x ;;
      ys <~ map_res f rest ;;
      Ret (y :: ys)
  end.

(** [a || b] with [b] evaluated only when [a] is falsy. *)
Definition or_else (a : res value) (b : res value) : res value :=
  x <~ a ;; if truthy x then Ret x else b.

Definition run_text (r : value) : res value :=
  t <~ member_of "text" r ;;
  Ret (or_ t
         (or_ (opt_path ["image"; "accessibility"; "accessibilityData"; "label"]
                        (prop "emoji" r))
              (VStr EmptyString))).

(** [extractText(obj)] *)
Definition extractText (obj : value) : res value :=
  if negb (truthy obj) then Ret (VStr EmptyString)
  else if truthy (prop "simpleText" obj) then Ret (prop "simpleText" obj)
  else if andb (truthy (prop "runs" obj)) (isArray (prop "runs" obj)) then
    match prop "runs" obj with
    | VArr runs =>
        parts <~ map_res run_text runs ;;
        Ret (VStr (join EmptyString parts))
    | _ => Ret (VStr EmptyString)
    end
  else
    let nestedContent :=
      or_ (getVal "properties.content.content" obj)
          (getVal "commentEntityPayload.properties.content.content" obj) in
    if truthy nestedContent then Ret nestedContent
    else Ret (VStr EmptyString).

(** [tooltip?.includes('Member')] *)
Definition tooltip_includes_Member (tooltip : value) : res value :=
  match tooltip with
  | VUndef | VNull => Ret VUndef
  | VStr s => Ret (VBool (str_includes "Member" s))
  | VArr items => Ret (VBool (existsb (sameValueZero (VStr "Member")) items))
  | _ => Throw
  end.

(** [b => b.liveChatAuthorBadgeRenderer?.tooltip?.includes('Member')] *)
Definition is_member_badge (b : value) : res value :=
  r <~ member_of "liveChatAuthorBadgeRenderer" b ;;
  tooltip_includes_Member (opt_path ["tooltip"] r).

(** [xs.find(f)] *)
Fixpoint find_res (f : value -> res value) (xs : list value) : res value :=
  match xs with
  | [] => Ret VUndef
  | x :: rest =>
      t <~ f x ;;
      if truthy t then Ret x else find_res f rest
  end.

(** [xs.some(f)] *)
Fixpoint some_res (f : value -> res value) (xs : list value) : res value :=
  match xs with
  | [] => Ret (VBool false)
  | x :: rest =>
      t <~ f x ;;
      if truthy t then Ret (VBool true) else some_res f rest
  end.

Definition youtube_origin : string := "https://www.youtube.com".

(** [if (u && !u.startsWith('http')) u = 'https://www.youtube.com' + u] *)
Definition absolute_url (u : value) : res value :=
  if truthy u then
    match u with
    | VStr s =>
        if startsWith "http" s then Ret u
        else Ret (VStr (youtube_origin ++ s))
    | _ => Throw
    end
  else Ret u.

Definition heuristic_path : string :=
  "actionButtons.commentActionButtonsRenderer.protoCreation.contents.0.commentActionButtonRenderer.trackingParams".

(** [viewModel.commentKey || viewModel.commentId || ''] *)
Definition key_of (viewModel : value) : value :=
  or_ (prop "commentKey" viewModel)
      (or_ (prop "commentId" viewModel) (VStr EmptyString)).

(** [payload || viewModel], the payload being looked up in the entity
    store under the key of the view model. *)
Definition source_of (viewModel : value) (store : option JSMap.t) : value :=
  let payload :=
    match store with
    | Some m =>
        if truthy (key_of viewModel) then JSMap.get m (key_of viewModel)
        else VNull
    | None => VNull
    end in
  or_ payload viewModel.

(** The text: the first of the four probes that yields something. *)
Definition found_text (source : value) : res value :=
  or_else (extractText (getVal "contentText" source))
    (or_else (extractText (getVal "properties.content" source))
       (or_else
          (extractText (getVal "commentEntityPayload.properties.content" source))
          (extractText source))).

(** The author, before the ['Unknown'] default. *)
Definition found_author (source : value) : value :=
  or_ (getVal "authorText.simpleText" source)
      (or_ (getVal "author.displayName" source)
           (getVal "commentEntityPayload.author.displayName" source)).

(** The identity: the key of the view model, else the [commentId] of the
    source. *)
Definition found_id (viewModel source : value) : value :=
  if truthy (key_of viewModel) then key_of viewModel
  else getVal "commentId" source.

(** The author's channel URL, made absolute. *)
Definition found_authorUrl (source : value) : res value :=
  absolute_url
    (or_ (getVal "authorEndpoint.browseEndpoint.canonicalBaseUrl" source)
         (or_ (getVal "authorEndpoint.commandMetadata.webCommandMetadata.url"
                      source)
              (VStr EmptyString))).

(** The member label, from the sponsor badge and the author badges. *)
Definition found_member (source : value) : res value :=
  let badges :=
    if truthy (getVal heuristic_path source) then VArr []
    else or_ (getVal "authorBadges" source) (VArr []) in
  let sponsorBadge := getVal "sponsorCommentBadge" source in
  let member1 :=
    if truthy sponsorBadge
    then or_ (opt_path ["tooltip"]
                       (prop "sponsorCommentBadgeRenderer" sponsorBadge))
             (VStr "Member")
    else VStr EmptyString in
  memberBadge <~ match badges with
                 | VArr items => find_res is_member_badge items
                 | _ => Throw
                 end ;;
  Ret (if truthy memberBadge
       then or_ (prop "tooltip" (prop "liveChatAuthorBadgeRenderer" memberBadge))
                (VStr "Member")
       else member1).

(** [resolveComment(viewModel, entityStore)]; [Ret None] is [null]. *)
Definition resolveComment (viewModel : value) (store : option JSMap.t)
  : res (option comment) :=
  if negb (truthy viewModel) then Ret None
  else
    let source := source_of viewModel store in
    text <~ found_text source ;;
    let author := or_ (found_author source) (VStr "Unknown") in
    let time :=
      or_ (getVal "publishedTimeText.runs.0.text" source)
          (or_ (getVal "properties.publishedTime" source)
               (or_ (getVal "commentEntityPayload.properties.publishedTime" source)
                    (VStr EmptyString))) in
    let likes :=
      or_ (getVal "voteCount.simpleText" source)
          (or_ (getVal "toolbar.likeCount" source) (VStr "0")) in
    let authorImg := getVal "authorThumbnail.thumbnails.0.url" source in
    authorUrl <~ found_authorUrl source ;;
    let isChannelOwner :=
      or_ (getVal "authorIsChannelOwner" source) (VBool false) in
    member <~ found_member source ;;
    let isMember := VBool (truthy member) in
    let id := found_id viewModel source in
    if andb (negb (truthy text)) (andb (negb (truthy author)) (negb (truthy id)))
    then Ret None
    else Ret (Some (mkComment id author text time likes authorUrl
                              isChannelOwner isMember member authorImg
                              VUndef VUndef VUndef)).

(** One turn of [for (const mutation of mutations)] in
    [parseEntityStore]. *)
Definition parse_mutation (acc : JSMap.t) (mutation : value) : res JSMap.t :=
  payload <~ member_of "payload" mutation ;;
  if truthy payload then
    if truthy (prop "commentEntityPayload" payload)
    then Ret (JSMap.set acc (prop "entityKey" mutation)
                        (prop "commentEntityPayload" payload))
    else Ret (JSMap.set acc (prop "entityKey" mutation) payload)
  else Ret acc.

Fixpoint fold_res {A B} (f : A -> B -> res A) (xs : list B) (acc : A) : res A :=
  match xs with
  | [] => Ret acc
  | x :: rest => acc' <~ f acc x ;; fold_res f rest acc'
  end.

(** [parseEntityStore(frameworkUpdates)] *)
Definition parseEntityStore (frameworkUpdates : value) : res JSMap.t :=
  let mutations := opt_path ["entityBatchUpdate"; "mutations"] frameworkUpdates in
  if truthy mutations then
    ms <~ iterate mutations ;;
    fold_res parse_mutation ms JSMap.empty
  else Ret JSMap.empty.

(** The merge both fetchers perform on a response:
    [parseEntityStore(frameworkUpdates).forEach((v, k) => entityStore.set(k, v))]. *)
Definition mergeEntities (frameworkUpdates : value) (entityStore : JSMap.t)
  : res JSMap.t :=
  newStore <~ parseEntityStore frameworkUpdates ;;
  Ret (JSMap.set_all newStore entityStore).

End Resolver.

(** ** Host primitives left abstract *)

(** Built-ins whose result the script only passes on or tests. *)
Class Host : Type := {
  (** [JSON.stringify(v)]: a string, or [undefined] *)
  JSON_stringify : value -> value;
  (** [v > 0], with JavaScript's numeric coercion of [v] *)
  gt_zero : value -> bool;
  (** the n-th value of [Math.random().toString(36).substr(2, 9)] *)
  random_id : nat -> string
}.

(** ** Thread processing and the two fetchers *)

(** A reply token descriptor, [{ token, parentId }]. *)
Record descriptor : Type := mkDescriptor {
  d_token : value;
  d_parentId : value
}.

(** What [fetchCommentsViaContinuation] returns; [replyTokens = None] is
    an object without that property. *)
Record batch : Type := mkBatch {
  comments : list comment;
  nextToken : value;
  replyTokens : option (list descriptor)
}.

Module Threads.
Import Resolver Transport.

Fixpoint foldM {A B} (f : A -> B -> M A) (xs : list B) (acc : A) : M A :=
  match xs with
  | [] => ret acc
  | x :: rest => acc' <- f acc x ;; foldM f rest acc'
  end.

Definition get_world : M World := fun w => (Ret w, w).

Definition set_store (s : JSMap.t) : M unit :=
  fun w =>
    (Ret tt,
     mkWorld (net w) (calls w) (requests w) (delays w) s (apiKey w) (context w)).

(** [await fetchWithRetry(url, { ..., body: JSON.stringify(body) })] *)
Definition fetchWithRetryM (u : string) (b : value) : M response :=
  fun w => let (r, w') := send u b w in (Ret r, w').

(** [x?.runs?.map(r => r.text).join('')] *)
Definition runs_text (x : value) : res value :=
  if nullish x then Ret VUndef
  else if nullish (prop "runs" x) then Ret VUndef
  else match prop "runs" x with
       | VArr runs =>
           parts <~ map_res (member_of "text") runs ;;
           Ret (VStr (join EmptyString parts))
       | _ => Throw
       end.

(** [badges?.some(isMemberBadge)] *)
Definition badges_some (badges : value) : res value :=
  if nullish badges then Ret VUndef
  else match badges with
       | VArr items => some_res is_member_badge items
       | _ => Throw
       end.

(** [badges?.find(isMemberBadge)?.liveChatAuthorBadgeRenderer?.tooltip] *)
Definition badges_find_tooltip (badges : value) : res value :=
  if nullish badges then Ret VUndef
  else match badges with
       | VArr items =>
           b <~ find_res is_member_badge items ;;
           Ret (opt_path ["liveChatAuthorBadgeRenderer"; "tooltip"] b)
       | _ => Throw
       end.

(** The root record built from a legacy [commentRenderer]. *)
Definition legacy_root (cr : value) : res comment :=
  text <~ runs_text (prop "contentText" cr) ;;
  isMember <~ badges_some (prop "authorBadges" cr) ;;
  member <~ badges_find_tooltip (prop "authorBadges" cr) ;;
  let c :=
    mkComment
      (or_ (prop "commentId" cr) (VStr EmptyString))
      (or_ (opt_path ["simpleText"] (prop "authorText" cr)) (VStr "Unknown"))
      (or_ text (VStr EmptyString))
      (or_ (opt_path ["runs"; "0"; "text"] (prop "publishedTimeText" cr))
           (VStr EmptyString))
      (or_ (opt_path ["simpleText"] (prop "voteCount" cr)) (VStr "0"))
      (or_ (opt_path ["browseEndpoint"; "canonicalBaseUrl"]
                     (prop "authorEndpoint" cr))
           (or_ (opt_path ["commandMetadata"; "webCommandMetadata"; "url"]
                          (prop "authorEndpoint" cr))
                (VStr EmptyString)))
      (or_ (prop "authorIsChannelOwner" cr) (VBool false))
      (or_ isMember (VBool false))
      (or_ member (VStr EmptyString))
      (or_ (opt_path ["thumbnails"; "0"; "url"] (prop "authorThumbnail" cr))
           (VStr EmptyString))
      VUndef VUndef VUndef in
  u <~ absolute_url (authorUrl c) ;;
  Ret (set_authorUrl c u).

(** The reply record built inline from a [commentRenderer] in the
    merged sub-thread list. *)
Definition legacy_reply (r : value) (parent : value) : res comment :=
  text <~ runs_text (prop "contentText" r) ;;
  Ret (mkComment
         (or_ (prop "commentId" r) (VStr EmptyString))
         (or_ (opt_path ["simpleText"] (prop "authorText" r)) (VStr "Unknown"))
         (or_ text (VStr EmptyString))
         (or_ (opt_path ["runs"; "0"; "text"] (prop "publishedTimeText" r))
              (VStr EmptyString))
         (or_ (opt_path ["simpleText"] (prop "voteCount" r)) (VStr "0"))
         VUndef VUndef VUndef VUndef VUndef
         (VBool true) parent VUndef).

(** [rootComment?.id] *)
Definition root_id (rootComment : option comment) : value :=
  match rootComment with
  | Some c => id c
  | None => VUndef
  end.

(** [r.isReply = true; r.parentId = p] *)
Definition as_reply (p : value) (r : comment) : comment :=
  set_parentId (set_isReply r (VBool true)) p.

(** [t.isReply = true; if (rootComment?.id) t.parentId = rootComment.id] *)
Definition as_nested (rootComment : option comment) (t : comment) : comment :=
  let t' := set_isReply t (VBool true) in
  if truthy (root_id rootComment) then set_parentId t' (root_id rootComment)
  else t'.

(** [button.command || button.navigationEndpoint || button.serviceEndpoint] *)
Definition button_command (button : value) : value :=
  or_ (prop "command" button)
      (or_ (prop "navigationEndpoint" button) (prop "serviceEndpoint" button)).

(** The token of a [continuationItemRenderer]. *)
Definition cir_token (cir : value) : value :=
  let token := prop "continuationEndpoint" cir in
  if truthy token then token
  else
    let button := opt_path ["buttonRenderer"] (prop "button" cir) in
    if truthy button then button_command button else token.

(** [items.length > 0] for a truthy [items]. *)
Definition length_gt_zero `{Host} (items : value) : bool :=
  match items with
  | VArr l => (0 <? List.length l)%nat
  | VStr s => (0 <? String.length s)%nat
  | VObj fields => gt_zero (assoc "length" fields)
  | _ => false
  end.

(** [action.reloadContinuationItemsCommand?.continuationItems ||
     action.appendContinuationItemsAction?.continuationItems] *)
Definition action_items (action : value) : res value :=
  r <~ member_of "reloadContinuationItemsCommand" action ;;
  Ret (or_ (opt_path ["continuationItems"] r)
           (opt_path ["continuationItems"]
                     (prop "appendContinuationItemsAction" action))).

(** The state of the loops of [processCommentThread]: the results and
    the reply tokens pushed to the collector. *)
Definition acc : Type := (list comment * list descriptor)%type.

Definition push_all (a : acc) (cs : list comment) : acc :=
  (fst a ++ cs, snd a).

Definition collect (a : acc) (d : descriptor) : acc :=
  (fst a, snd a ++ [d]).

Definition max_depth : nat := 100.

(** [const hidden = await fetchReplies(...); if (hidden) results.push(...hidden)] *)
Definition push_fetched (a : acc) (fetched : M (option (list comment))) : M acc :=
  hidden <- fetched ;;
  match hidden with
  | Some rs => ret (push_all a rs)
  | None => ret a
  end.

(** [const r = resolveComment(v, entityStore);
     if (r) { r.isReply = true; r.parentId = p; results.push(r) }] *)
Definition resolve_reply (v : value) (p : value) : M (option comment) :=
  w <- get_world ;;
  r <- lift (resolveComment v (Some (entityStore w))) ;;
  ret (option_map (as_reply p) r).

Definition push_resolved (a : acc) (v : value) (p : value) : M acc :=
  r <- resolve_reply v p ;;
  match r with
  | Some r => ret (push_all a [r])
  | None => ret a
  end.

(** [sub.commentViewModel?.commentViewModel] *)
Definition view_model_of (item : value) : value :=
  opt_path ["commentViewModel"] (prop "commentViewModel" item).

Section Bodies.
Context `{Host}.

(** The two functions call each other; their bodies are written over the
    calls they make. *)
Variable processCommentThread_rec : value -> nat -> bool -> M acc.
Variable fetchReplies_rec : value -> value -> M (option (list comment)).

(** The root comment of a thread, [isReply] already set. *)
Definition thread_root (threadRenderer : value) : M (option comment) :=
  w <- get_world ;;
  vm <- lift (member_of "commentViewModel" threadRenderer) ;;
  rootComment <-
    (if truthy (opt_path ["commentViewModel"] vm)
     then lift (resolveComment (opt_path ["commentViewModel"] vm)
                               (Some (entityStore w)))
     else
       let cr := opt_path ["commentRenderer"] (prop "comment" threadRenderer) in
       if truthy cr then c <- lift (legacy_root cr) ;; ret (Some c)
       else ret None) ;;
  ret (option_map (fun c => set_isReply c (VBool false)) rootComment).

(** A token found while a collector is present is collected, otherwise
    it is fetched at once. *)
Definition on_token (parallel : bool) (parent : value) (a : acc) (token : value)
  : M acc :=
  if parallel then ret (collect a (mkDescriptor token parent))
  else push_fetched a (fetchReplies_rec token parent).

(** One turn of [for (const sub of allSubThreads)]. *)
Definition sub_thread_step (rootComment : option comment) (depth : nat)
    (parallel : bool) (a : acc) (sub : value) : M acc :=
  let parent := root_id rootComment in
  cr <- lift (member_of "commentRenderer" sub) ;;
  if truthy cr then
    r <- lift (legacy_reply cr parent) ;;
    ret (push_all a [r])
  else if truthy (view_model_of sub) then
    push_resolved a (view_model_of sub) parent
  else if truthy (prop "commentThreadRenderer" sub) then
    try_catch
      (threads <- processCommentThread_rec (prop "commentThreadRenderer" sub)
                    (S depth) false ;;
       ret (push_all a (map (as_nested rootComment) (fst threads))))
      (ret a)
  else if truthy (prop "continuationItemRenderer" sub) then
    let token := cir_token (prop "continuationItemRenderer" sub) in
    if truthy token then on_token parallel parent a token else ret a
  else ret a.

(** B. the view-replies button *)
Definition view_replies_step (repliesRenderer : value) (parent : value)
    (parallel : bool) (a : acc) : M acc :=
  let button := prop "buttonRenderer" (prop "viewReplies" repliesRenderer) in
  if andb (truthy (prop "viewReplies" repliesRenderer)) (truthy button) then
    let token := opt_path ["continuationCommand"; "token"]
                          (button_command button) in
    if truthy token then on_token parallel parent a token else ret a
  else ret a.

(** B2. one turn of [for (const cont of repliesRenderer.continuations)] *)
Definition continuation_step (parent : value) (parallel : bool)
    (a : acc) (cont : value) : M acc :=
  ncd <- lift (member_of "nextContinuationData" cont) ;;
  let token :=
    or_ (opt_path ["continuation"] ncd)
        (or_ (opt_path ["continuationEndpoint"; "continuationCommand"; "token"]
                       (prop "continuationItemRenderer" cont))
             (opt_path ["button"; "buttonRenderer"; "command";
                        "continuationCommand"; "token"]
                       (prop "continuationItemRenderer" cont))) in
  if truthy token then on_token parallel parent a token else ret a.

(** C. one turn of [for (const item of repliesRenderer.contents)]; a
    continuation found here is fetched whether or not a collector is
    present. *)
Definition contents_step (parent : value) (a : acc) (item : value) : M acc :=
  cr <- lift (member_of "commentRenderer" item) ;;
  if truthy cr then push_resolved a cr parent
  else if truthy (view_model_of item) then
    push_resolved a (view_model_of item) parent
  else if truthy (prop "continuationItemRenderer" item) then
    let token := prop "continuationEndpoint"
                      (prop "continuationItemRenderer" item) in
    if truthy token then push_fetched a (fetchReplies_rec token parent)
    else ret a
  else ret a.

(** [contents], [subThreads], the button's [subThreads] and
    [continuationItems], merged. *)
Definition merged_sub_threads (repliesRenderer : value) : res (list value) :=
  l1 <~ iterate (or_ (prop "contents" repliesRenderer) (VArr [])) ;;
  l2 <~ iterate (or_ (prop "subThreads" repliesRenderer) (VArr [])) ;;
  l3 <~ iterate (or_ (opt_path ["buttonRenderer"; "subThreads"]
                               (prop "viewReplies" repliesRenderer))
                     (VArr [])) ;;
  l4 <~ (if truthy (prop "continuationItems" repliesRenderer)
         then iterate (prop "continuationItems" repliesRenderer)
         else Ret []) ;;
  Ret (l1 ++ l2 ++ l3 ++ l4).

Definition processCommentThread_body (threadRenderer : value) (depth : nat)
    (parallel : bool) : M acc :=
  if (max_depth <? depth)%nat then ret ([], [])
  else
    rootComment <- thread_root threadRenderer ;;
    let results : list comment :=
      match rootComment with Some c => [c] | None => [] end in
    let parent := root_id rootComment in
    let repliesRenderer :=
      opt_path ["commentRepliesRenderer"] (prop "replies" threadRenderer) in
    if truthy repliesRenderer then
      allSubThreads <- lift (merged_sub_threads repliesRenderer) ;;
      if (0 <? List.length allSubThreads)%nat then
        a1 <- foldM (sub_thread_step rootComment depth parallel)
                    allSubThreads (results, []) ;;
        a2 <- view_replies_step repliesRenderer parent parallel a1 ;;
        a3 <- (if truthy (prop "continuations" repliesRenderer) then
                 conts <- lift (iterate (prop "continuations" repliesRenderer)) ;;
                 foldM (continuation_step parent parallel) conts a2
               else ret a2) ;;
        (if truthy (prop "contents" repliesRenderer) then
           items <- lift (iterate (prop "contents" repliesRenderer)) ;;
           foldM (contents_step parent) items a3
         else ret a3)
      else ret (results, [])
    else ret (results, []).

(** The request body [{ context, continuation, clickTracking? }]. *)
Definition request_body (context continuation clickTrackingParams : value)
  : value :=
  VObj ([("context", context); ("continuation", continuation)]
        ++ if truthy clickTrackingParams
           then [("clickTracking",
                  VObj [("clickTrackingParams", clickTrackingParams)])]
           else []).

Definition next_url (apiKey : value) : string :=
  "https://www.youtube.com/youtubei/v1/next?key=" ++ ToString apiKey.

(** [await response.json()] *)
Definition response_json (r : response) : M value :=
  lift (match json r with
        | Some d => Ret d
        | None => Throw
        end).

(** [if (data.frameworkUpdates) { parseEntityStore(...).forEach(set) }] *)
Definition merge_updates (data : value) : M unit :=
  fu <- lift (member_of "frameworkUpdates" data) ;;
  if truthy fu then
    w <- get_world ;;
    merged <- lift (mergeEntities fu (entityStore w)) ;;
    set_store merged
  else ret tt.

(** The items of every action, in order. *)
Definition all_target_items (actions : list value) : res (list value) :=
  fold_res
    (fun (all : list value) (action : value) =>
       items <~ action_items action ;;
       if andb (truthy items) (length_gt_zero items)
       then (its <~ iterate items ;; Ret (all ++ its))
       else Ret all)
    actions [].

(** One turn of [for (const item of allTargetItems)] in [fetchReplies]. *)
Definition reply_item_step (parentId : value) (collected : list comment)
    (item : value) : M (list comment) :=
  cr <- lift (member_of "commentRenderer" item) ;;
  let resolve_push (v : value) : M (list comment) :=
    r <- resolve_reply v parentId ;;
    match r with
    | Some r => ret (collected ++ [r])
    | None => ret collected
    end in
  if truthy cr then resolve_push cr
  else if truthy (view_model_of item) then resolve_push (view_model_of item)
  else if truthy (prop "commentThreadRenderer" item) then
    try_catch
      (threads <- processCommentThread_rec (prop "commentThreadRenderer" item)
                    1 false ;;
       ret (collected ++ map (as_reply parentId) (fst threads)))
      (ret collected)
  else if truthy (prop "continuationItemRenderer" item) then
    let nextToken := cir_token (prop "continuationItemRenderer" item) in
    if truthy nextToken then
      more <- fetchReplies_rec nextToken parentId ;;
      match more with
      | Some rs => ret (collected ++ rs)
      | None => ret collected
      end
    else ret collected
  else ret collected.

Definition fetchReplies_body (endpoint : value) (parentId : value)
  : M (option (list comment)) :=
  try_catch
    (w <- get_world ;;
     let continuation := opt_path ["continuationCommand"; "token"] endpoint in
     let clickTrackingParams :=
       or_ (opt_path ["continuationCommand"; "clickTrackingParams"] endpoint)
           (opt_path ["clickTrackingParams"] endpoint) in
     if orb (negb (truthy (apiKey w)))
            (orb (negb (truthy (context w))) (negb (truthy continuation)))
     then ret None
     else
       response <- fetchWithRetryM (next_url (apiKey w))
                     (request_body (context w) continuation clickTrackingParams) ;;
       if negb (ok response) then ret None
       else
         data <- response_json response ;;
         merge_updates data ;;;
         let actions := prop "onResponseReceivedEndpoints" data in
         if truthy actions then
           acts <- lift (iterate actions) ;;
           allTargetItems <- lift (all_target_items acts) ;;
           collected <- foldM (reply_item_step parentId) allTargetItems [] ;;
           ret (Some collected)
         else ret (Some []))
    (ret None).

End Bodies.

Section WithHost.
Context `{Host}.

(** [processCommentThread(threadRenderer, entityStore, depth, collector)]
    and [fetchReplies(endpoint, entityStore, parentId)]; [fuel] bounds the
    nesting of their calls, [parallel] tells whether a collector was
    passed, and [None] is [null]. *)
Fixpoint processCommentThread (fuel : nat) (threadRenderer : value)
    (depth : nat) (parallel : bool) {struct fuel} : M acc :=
  match fuel with
  | O => out_of_fuel
  | S fuel' =>
      processCommentThread_body (processCommentThread fuel')
                                (fetchReplies fuel')
                                threadRenderer depth parallel
  end
with fetchReplies (fuel : nat) (endpoint : value) (parentId : value)
    {struct fuel} : M (option (list comment)) :=
  match fuel with
  | O => out_of_fuel
  | S fuel' =>
      fetchReplies_body (processCommentThread fuel') (fetchReplies fuel')
                        endpoint parentId
  end.

End WithHost.
End Threads.

Module MainFetch.
Import Resolver Transport Threads.

(** [Array.isArray(xs) && xs.length !== 0] *)
Definition nonempty_array (v : value) : bool :=
  match v with
  | VArr (_ :: _) => true
  | _ => false
  end.

(** [extractNextContinuation(responseData)]: the pair
    [(token, clickTrackingParams)]. *)
Definition extractNextContinuation (responseData : value) : value * value :=
  match member_of "onResponseReceivedEndpoints" responseData with
  | Ret endpoints =>
      let continuationItems1 :=
        or_ (opt_path ["1"; "reloadContinuationItemsCommand"; "continuationItems"]
                      endpoints)
            (VArr []) in
      let continuationItems :=
        if nonempty_array continuationItems1 then continuationItems1
        else or_ (opt_path ["0"; "appendContinuationItemsAction";
                            "continuationItems"] endpoints)
                 (VArr []) in
      match continuationItems with
      | VArr (x :: xs) =>
          let lastItem := last (x :: xs) VUndef in
          let cir := opt_path ["continuationItemRenderer"] lastItem in
          (or_ (opt_path ["button"; "buttonRenderer"; "command";
                          "continuationCommand"; "token"] cir)
               (or_ (opt_path ["continuationEndpoint"; "continuationCommand";
                               "token"] cir)
                    VNull),
           or_ (opt_path ["button"; "buttonRenderer"; "command";
                          "clickTrackingParams"] cir)
               (or_ (opt_path ["continuationEndpoint"; "clickTrackingParams"] cir)
                    VNull))
      | _ => (VNull, VNull)
      end
  | _ => (VNull, VNull)
  end.

(** The [{ comments: [], nextToken: null }] returned on every failure. *)
Definition empty_batch : batch := mkBatch [] VNull None.

Section WithHost.
Context `{Host}.

(** One turn of [for (const item of items)]. *)
Definition main_item_step (fuel : nat) (a : acc) (item : value) : M acc :=
  tr <- lift (member_of "commentThreadRenderer" item) ;;
  if truthy tr then
    thread <- processCommentThread fuel tr 0 true ;;
    ret (fst a ++ fst thread, snd a ++ snd thread)
  else ret a.

(** One turn of [for (const action of actions)]. *)
Definition main_action_step (fuel : nat) (a : acc) (action : value) : M acc :=
  items <- lift (action_items action) ;;
  if truthy items then
    its <- lift (iterate items) ;;
    foldM (main_item_step fuel) its a
  else ret a.

(** The token object handed to the next turn of the walk. *)
Definition next_token_of (nextContinuation : value * value) : value :=
  if truthy (fst nextContinuation) then
    VObj [("token", fst nextContinuation);
          ("clickTrackingParams", snd nextContinuation);
          ("continuationCommand",
           VObj [("token", fst nextContinuation);
                 ("clickTrackingParams", snd nextContinuation)])]
  else VNull.

(** [actions.forEach((a, i) => console.log(`Action ${i}:`, Object.keys(a)))]:
    only an array has a [forEach], and [Object.keys] raises on [null]. *)
Definition log_actions (actions : value) : res unit :=
  match actions with
  | VArr acts => if existsb nullish acts then Throw else Ret tt
  | _ => Throw
  end.

(** [if (comments.length === 0) { warn; if (actions) actions.forEach(...) }] *)
Definition warn_if_empty (comments : list comment) (actions : value) : M unit :=
  if Nat.eqb (List.length comments) 0 then
    if truthy actions then lift (log_actions actions) else ret tt
  else ret tt.

(** [fetchCommentsViaContinuation(endpoint, entityStore)] *)
Definition fetchCommentsViaContinuation (fuel : nat) (endpoint : value)
  : M batch :=
  try_catch
    (w <- get_world ;;
     let continuation :=
       match endpoint with
       | VStr _ => endpoint
       | _ => or_ (opt_path ["continuationCommand"; "token"] endpoint)
                  (opt_path ["token"] endpoint)
       end in
     let clickTrackingParams :=
       match endpoint with
       | VStr _ => VNull
       | _ => or_ (opt_path ["continuationCommand"; "clickTrackingParams"]
                            endpoint)
                  (opt_path ["clickTrackingParams"] endpoint)
       end in
     if orb (negb (truthy (apiKey w)))
            (orb (negb (truthy (context w))) (negb (truthy continuation)))
     then ret empty_batch
     else
       response <- fetchWithRetryM (next_url (apiKey w))
                     (request_body (context w) continuation clickTrackingParams) ;;
       if negb (ok response) then ret empty_batch
       else
         data <- response_json response ;;
         merge_updates data ;;;
         let actions := prop "onResponseReceivedEndpoints" data in
         a <- (if truthy actions then
                 acts <- lift (iterate actions) ;;
                 foldM (main_action_step fuel) acts ([], [])
               else ret ([], [])) ;;
         let nextToken := next_token_of (extractNextContinuation data) in
         warn_if_empty (fst a) actions ;;;
         ret (mkBatch (fst a) nextToken (Some (snd a))))
    (ret empty_batch).

End WithHost.
End MainFetch.

(** ** Durable sink: the IndexedDB object store [comments] *)

Module Sink.

(** A valid IndexedDB key among JSON values: a string, a number, or an
    array of valid keys. *)
Fixpoint valid_key (v : value) : bool :=
  match v with
  | VStr _ | VNum _ => true
  | VArr items => forallb valid_key items
  | _ => false
  end.

(** Equality of keys, by value. *)
Fixpoint key_eqb (a b : value) : bool :=
  match a, b with
  | VStr x, VStr y => String.eqb x y
  | VNum x, VNum y => Z.eqb x y
  | VArr xs, VArr ys =>
      (fix go (xs ys : list value) : bool :=
         match xs, ys with
         | [], [] => true
         | x :: xs', y :: ys' => andb (key_eqb x y) (go xs' ys')
         | _, _ => false
         end) xs ys
  | _, _ => false
  end.

(** The object store, created with [{ keyPath: 'id' }]: the records it
    holds.  (The order in which [getAll] lists them is not modelled.) *)
Definition store : Type := list comment.

(** [store.put(c)] for a record whose key is valid: insert or replace. *)
Fixpoint put (s : store) (c : comment) : store :=
  match s with
  | [] => [c]
  | c' :: rest =>
      if key_eqb (id c') (id c) then c :: rest else c' :: put rest c
  end.

(** [store.clear()] *)
Definition clearCommentStore (s : store) : store := [].

(** [store.getAll()] *)
Definition getAllComments (s : store) : list comment := s.

(** The synchronous part of [saveCommentBatch]: the [forEach] that gives
    an id to the records lacking one and requests a [put] for each.
    [put] raises a DataError on an invalid key, which ends the loop and
    rejects the promise. *)
Record scheduled : Type := mkScheduled {
  puts : list comment;   (* the put requests made, in order *)
  threw : bool;          (* the executor raised *)
  rand : nat             (* random ids drawn so far *)
}.

Fixpoint schedule_puts `{Host} (cs : list comment) (done : list comment)
    (rnd : nat) : scheduled :=
  match cs with
  | [] => mkScheduled done false rnd
  | c :: rest =>
      let c' := if truthy (id c) then c else set_id c (VStr (random_id rnd)) in
      let rnd' := if truthy (id c) then rnd else S rnd in
      if valid_key (id c') then schedule_puts rest (done ++ [c']) rnd'
      else mkScheduled done true rnd'
  end.

Definition saveCommentBatch `{Host} (cs : list comment) (rnd : nat) : scheduled :=
  schedule_puts cs [] rnd.

(** Successive calls of [saveCommentBatch], one per batch. *)
Fixpoint schedule_batches `{Host} (bs : list (list comment)) (rnd : nat)
  : list scheduled :=
  match bs with
  | [] => []
  | cs :: rest =>
      let s := saveCommentBatch cs rnd in
      s :: schedule_batches rest (rand s)
  end.

(** How a transaction ends. *)
Inductive tx_outcome : Type :=
| TxComplete : tx_outcome   (* [tx.oncomplete]: every put is applied *)
| TxError : tx_outcome.     (* [tx.onerror]: logged; the transaction is rolled back *)

(** The effect of one transaction on the store. *)
Definition commit (s : store) (t : list comment * tx_outcome) : store :=
  match snd t with
  | TxComplete => fold_left put (fst t) s
  | TxError => s
  end.

(** Read-write transactions on one store run one after the other, in the
    order they were created. *)
Definition run_writes (txs : list (list comment * tx_outcome)) (s : store)
  : store :=
  fold_left commit txs s.

(** *** Write handles and the completion barrier *)

Inductive promise_state : Type :=
| Pending : promise_state
| Resolved : promise_state
| Rejected : promise_state.

(** The promise returned by [saveCommentBatch], right after the call. *)
Definition handle_of (s : scheduled) : promise_state :=
  if threw s then Rejected else Pending.

(** [tx.oncomplete = () => resolve()] and
    [tx.onerror = (e) => { log; resolve() }]: either event resolves a
    pending handle; a settled promise stays as it is. *)
Definition on_tx_event (h : promise_state) (o : tx_outcome) : promise_state :=
  match h with
  | Pending => Resolved
  | _ => h
  end.

(** An event: the transaction of the i-th handle ends with an outcome. *)
Definition tx_event : Type := (nat * tx_outcome)%type.

Fixpoint update_nth {A} (i : nat) (f : A -> A) (xs : list A) : list A :=
  match xs, i with
  | [], _ => []
  | x :: rest, O => f x :: rest
  | x :: rest, S j => x :: update_nth j f rest
  end.

Definition step_handles (hs : list promise_state) (e : tx_event)
  : list promise_state :=
  update_nth (fst e) (fun h => on_tx_event h (snd e)) hs.

Definition run_handles (hs : list promise_state) (trace : list tx_event)
  : list promise_state :=
  fold_left step_handles trace hs.

(** [Promise.all(handles)]: rejected once a handle is rejected, resolved
    once every handle is resolved, pending otherwise. *)
Definition promise_all (hs : list promise_state) : promise_state :=
  if existsb (fun h => match h with Rejected => true | _ => false end) hs
  then Rejected
  else if forallb (fun h => match h with Resolved => true | _ => false end) hs
  then Resolved
  else Pending.

Definition settled (h : promise_state) : bool :=
  match h with Pending => false | _ => true end.

(** The transaction of handle [i] has ended somewhere in the trace. *)
Definition fired (i : nat) (trace : list tx_event) : bool :=
  existsb (fun e => Nat.eqb (fst e) i) trace.

End Sink.

(** ** Reply harvester: [SimpleQueue] *)

Module SimpleQueue.

(** Tasks are numbered in the order they are added. *)
Definition task : Type := nat.

Inductive waiter : Type :=
| NotCalled : waiter
| Waiting : waiter     (* inside the polling loop of [onIdle] *)
| Done : waiter.       (* [onIdle] has resolved *)

Record t : Type := mk {
  concurrency : nat;
  running : nat;
  queue : list task;
  (* bookkeeping, not fields of the class *)
  next : task;             (* number of tasks added so far *)
  started : list task;     (* tasks whose function is executing *)
  finished : list task;    (* tasks whose promise has settled *)
  idle_waiter : waiter
}.

(** [new SimpleQueue(concurrency)] *)
Definition create (concurrency : nat) : t :=
  mk concurrency 0 [] 0 [] [] NotCalled.

(** [process()] up to the point where the task function is awaited. *)
Definition process (q : t) : t :=
  if orb (concurrency q <=? running q)%nat
         (Nat.eqb (List.length (queue q)) 0)
  then q
  else
    match queue q with
    | [] => q
    | fn :: rest =>
        mk (concurrency q) (S (running q)) rest (next q)
           (started q ++ [fn]) (finished q) (idle_waiter q)
    end.

(** [add(fn)] *)
Definition add (q : t) : t :=
  process (mk (concurrency q) (running q) (queue q ++ [next q]) (S (next q))
              (started q) (finished q) (idle_waiter q)).

Definition remove (x : task) (xs : list task) : list task :=
  filter (fun y => negb (Nat.eqb x y)) xs.

(** The awaited function of a started task settles: its promise is
    resolved or rejected, then [finally { running--; process() }]. *)
Definition settle (q : t) (fn : task) : t :=
  if existsb (Nat.eqb fn) (started q) then
    process (mk (concurrency q) (running q - 1) (queue q) (next q)
                (remove fn (started q)) (finished q ++ [fn]) (idle_waiter q))
  else q.

(** The loop condition of [onIdle], negated. *)
Definition is_idle (q : t) : bool :=
  andb (Nat.eqb (running q) 0) (Nat.eqb (List.length (queue q)) 0).

Definition with_waiter (q : t) (w : waiter) : t :=
  mk (concurrency q) (running q) (queue q) (next q) (started q) (finished q) w.

(** One evaluation of [while (running > 0 || queue.length > 0)]. *)
Definition check (q : t) : t :=
  with_waiter q (if is_idle q then Done else Waiting).

(** [onIdle()] evaluates its condition at once when called. *)
Definition onIdle (q : t) : t :=
  match idle_waiter q with
  | NotCalled => check q
  | _ => q
  end.

(** The 100 ms timer of a waiting [onIdle] fires. *)
Definition poll (q : t) : t :=
  match idle_waiter q with
  | Waiting => check q
  | _ => q
  end.

Inductive event : Type :=
| Add : event
| Settle : task -> event
| OnIdle : event
| Poll : event.

Definition step (q : t) (e : event) : t :=
  match e with
  | Add => add q
  | Settle fn => settle q fn
  | OnIdle => onIdle q
  | Poll => poll q
  end.

Definition run (q : t) (trace : list event) : t := fold_left step trace q.

(** Every task numbered below [n] has settled. *)
Definition all_settled (n : nat) (q : t) : bool :=
  forallb (fun fn => existsb (Nat.eqb fn) (finished q)) (seq 0 n).

End SimpleQueue.

(** ** Token walker: the batch loop of [extractComments] *)

Module Walker.

(** [if (batchNumber > 100000) break; // Safety] *)
Definition ceiling : Z := 100000.

Record t : Type := mk {
  batchNumber : Z;
  fetched : list value;                (* tokens handed to [fetchCommentsViaContinuation] *)
  pendingWrites : list (list comment); (* batches handed to [saveCommentBatch] *)
  totalFetched : Z;
  processedReplyTokens : list value;   (* the [Set], in insertion order *)
  replyQueue : list (value * descriptor) (* tasks added to the queue, with their key *)
}.

Inductive stop : Type :=
| NoNextToken : stop      (* [while (currentPromise)] ended the loop *)
| SafetyCeiling : stop    (* [break] *)
| StillLooping : stop.

(** [processedReplyTokens.has(key)] *)
Definition has (s : list value) (key : value) : bool :=
  existsb (fun k => sameValueZero k key) s.

Section WithHost.
Context `{Host}.

(** The result of the n-th call of [fetchCommentsViaContinuation], on the
    token it is given. *)
Variable fetchMain : nat -> value -> batch.

Definition tokenKey (replyToken : descriptor) : value :=
  or_ (opt_path ["continuationCommand"; "token"] (d_token replyToken))
      (or_ (opt_path ["token"] (d_token replyToken))
           (JSON_stringify (d_token replyToken))).

(** One turn of [for (const replyToken of result.replyTokens)]. *)
Definition enqueue (w : t) (replyToken : descriptor) : t :=
  let key := tokenKey replyToken in
  if has (processedReplyTokens w) key then w
  else mk (batchNumber w) (fetched w) (pendingWrites w) (totalFetched w)
          (processedReplyTokens w ++ [key])
          (replyQueue w ++ [(key, replyToken)]).

(** [fetchCommentsViaContinuation(token, entityStore)], not yet awaited. *)
Definition start_fetch (w : t) (token : value) : batch * t :=
  (fetchMain (List.length (fetched w)) token,
   mk (batchNumber w) (fetched w ++ [token]) (pendingWrites w) (totalFetched w)
      (processedReplyTokens w) (replyQueue w)).

(** The body of the loop up to [batchNumber++], for an awaited [result]. *)
Definition turn (w : t) (result : batch) : option batch * t :=
  let (nextPromise, w1) :=
    if truthy (nextToken result)
    then let (p, w') := start_fetch w (nextToken result) in (Some p, w')
    else (None, w) in
  let w2 :=
    if (0 <? List.length (comments result))%nat
    then mk (batchNumber w1) (fetched w1)
            (pendingWrites w1 ++ [comments result])
            (totalFetched w1 + Z.of_nat (List.length (comments result)))
            (processedReplyTokens w1) (replyQueue w1)
    else w1 in
  let w3 :=
    match replyTokens result with
    | Some rts => fold_left enqueue rts w2
    | None => w2
    end in
  (nextPromise,
   mk (batchNumber w3 + 1) (fetched w3) (pendingWrites w3) (totalFetched w3)
      (processedReplyTokens w3) (replyQueue w3)).

Fixpoint loop (fuel : nat) (w : t) (currentPromise : option batch) : t * stop :=
  match currentPromise with
  | None => (w, NoNextToken)
  | Some result =>
      match fuel with
      | O => (w, StillLooping)
      | S fuel' =>
          let (nextPromise, w') := turn w result in
          if (batchNumber w' >? ceiling)%Z then (w', SafetyCeiling)
          else loop fuel' w' nextPromise
      end
  end.

(** The state when the loop is entered: empty queue, set and write list,
    first fetch started, [batchNumber = 1]. *)
Definition init (totalFetched0 : Z) : t := mk 1 [] [] totalFetched0 [] [].

(** The whole loop.  It makes at most [ceiling] turns, so this budget is
    never the reason it stops. *)
Definition walk (continuationToken : value) (totalFetched0 : Z) : t * stop :=
  let (first, w) := start_fetch (init totalFetched0) continuationToken in
  loop (Z.to_nat ceiling) w (Some first).

End WithHost.
End Walker.

(** ** Fallback extractor and the end of [extractComments] *)

Module Fallback.

(** What the emergency scrape reads from one
    [ytd-comment-thread-renderer]: a trimmed string, or [undefined]. *)
Record dom_thread : Type := mkDomThread {
  content_text : value;      (* [#content-text] *)
  author_text : value;       (* [#author-text] *)
  published_time : value;    (* [#published-time-text] *)
  vote_count : value;        (* [#vote-count-middle] *)
  author_href : value;       (* [#author-text].href *)
  author_img : value         (* [#author-thumbnail img].src *)
}.

Fixpoint scrape `{Host} (threads : list dom_thread) (rnd : nat) : list comment :=
  match threads with
  | [] => []
  | th :: rest =>
      if andb (truthy (content_text th)) (truthy (author_text th)) then
        mkComment (VStr ("scraped-" ++ random_id rnd))
                  (author_text th)
                  (content_text th)
                  (or_ (published_time th) (VStr EmptyString))
                  (or_ (vote_count th) (VStr "0"))
                  (or_ (author_href th) (VStr EmptyString))
                  (VBool false) (VBool false) VUndef
                  (or_ (author_img th) (VStr EmptyString))
                  (VBool false) VUndef (VArr [])
        :: scrape rest (S rnd)
      else scrape rest rnd
  end.

(** The document as the end of [extractComments] sees it: the comment
    threads it has rendered, and the number of times it has been asked
    for them. *)
Record document : Type := mkDocument {
  rendered : list dom_thread;
  queries : nat
}.

(** [document.querySelectorAll('ytd-comment-thread-renderer')] *)
Definition querySelectorAll (d : document) : list dom_thread * document :=
  (rendered d, mkDocument (rendered d) (S (queries d))).

(** The emergency scrape: the query and the loop over the threads
    found. *)
Definition emergency_scrape `{Host} (d : document) (rnd : nat)
  : list comment * document :=
  let (domThreads, d') := querySelectorAll d in
  (scrape domThreads rnd, d').

(** The outcome of a session. *)
Record outcome : Type := mkOutcome {
  page : document;                 (* the document after the session *)
  returned : option (list comment) (* [None] is [null] *)
}.

(** The emergency scrape was run: the document was asked for its
    threads. *)
Definition fallback_ran (o : outcome) : bool := (0 <? queries (page o))%nat.

(** From [const finalComments = await getAllComments(db)] to the
    [return], on a document that has not been queried yet and has
    rendered [domThreads]. *)
Definition finish `{Host} (finalComments : list comment)
    (domThreads : list dom_thread) (rnd : nat) : outcome :=
  let d := mkDocument domThreads 0 in
  let (final, d') :=
    if Nat.eqb (List.length finalComments) 0
    then let (scraped, d1) := emergency_scrape d rnd in
         (finalComments ++ scraped, d1)
    else (finalComments, d) in
  mkOutcome d' (if (0 <? List.length final)%nat then Some final else None).

(** The write history of a session: every call of [saveCommentBatch] in
    the order the calls were made, each with the way its transaction
    ended. *)
Definition history : Type := list (list comment * Sink.tx_outcome).

Fixpoint schedule_all `{Host} (h : history) (rnd : nat)
  : list (Sink.scheduled * Sink.tx_outcome) :=
  match h with
  | [] => []
  | (cs, o) :: rest =>
      let s := Sink.saveCommentBatch cs rnd in
      (s, o) :: schedule_all rest (Sink.rand s)
  end.

Definition rand_after `{Host} (h : history) (rnd : nat) : nat :=
  fold_left (fun r co => Sink.rand (Sink.saveCommentBatch (fst co) r)) h rnd.

(** The store once every transaction of the history has ended, starting
    from the cleared store. *)
Definition final_store `{Host} (h : history) : Sink.store :=
  Sink.run_writes
    (map (fun so => (Sink.puts (fst so), snd so)) (schedule_all h 0))
    (Sink.clearCommentStore []).

(** After the loop: the barriers, the final read, the fallback.  A
    rejected write handle makes [await Promise.all(pendingWrites)] throw,
    and the [catch] of [extractComments] returns [null]. *)
Definition drain `{Host} (h : history) (domThreads : list dom_thread) : outcome :=
  if existsb (fun so => Sink.threw (fst so)) (schedule_all h 0)
  then mkOutcome (mkDocument domThreads 0) None
  else finish (Sink.getAllComments (final_store h)) domThreads (rand_after h 0).

End Fallback.

(** ** A session whose first batch is the last *)

Module Session.
Import Threads MainFetch.

Section WithHost.
Context `{Host}.

(** The task added to the reply queue for one descriptor: it yields the
    batch it hands to [saveCommentBatch], if any. *)
Definition reply_task (fuel : nat) (d : descriptor)
  : M (option (list comment)) :=
  try_catch
    (replies <- fetchReplies fuel (d_token d) (d_parentId d) ;;
     match replies with
     | Some (r :: rs) => ret (Some (r :: rs))
     | _ => ret None
     end)
    (ret None).

(** When the first batch carries no next token nothing overlaps: the
    main fetch, the single turn of the loop, then the queued tasks.  The
    result is the walker's state and the batches the tasks wrote. *)
Definition single_batch_session (fuel : nat) (continuationToken : value)
  : M (Walker.t * list (list comment)) :=
  first <- fetchCommentsViaContinuation fuel continuationToken ;;
  let st := fst (Walker.walk (fun _ _ => first) continuationToken 0) in
  writes <- foldM
              (fun (ws : list (list comment)) (kd : value * descriptor) =>
                 r <- reply_task fuel (snd kd) ;;
                 match r with
                 | Some b => ret (ws ++ [b])
                 | None => ret ws
                 end)
              (Walker.replyQueue st) [] ;;
  ret (st, writes).

End WithHost.

(** The continuation a request asks for. *)
Definition continuation_of (r : request) : value := prop "continuation" (body r).

(** How many requests sent so far ask for the continuation [key]. *)
Definition fetches_of (key : value) (w : World) : nat :=
  List.length (filter (fun r => sameValueZero (continuation_of r) key)
                      (requests w)).

End Session.

(** ** Finding the token of the newest-first sort *)

Module Discovery.
Import Resolver.

(** [deepFind(obj, targetKey)]: the values stored under the key at any
    depth of the document, in the order the search meets them.  In a
    parsed document no node is met twice, so the set of visited nodes
    never stops the search.  Each property of an object is paired with
    what the search finds below it, and the pairs are visited in the
    order of [Object.entries]. *)
Fixpoint deepFind (targetKey : string) (current : value) : list value :=
  match current with
  | VArr items => flat_map (deepFind targetKey) items
  | VObj fields =>
      flat_map (fun e =>
                  (if String.eqb (fst e) targetKey then [fst (snd e)] else [])
                  ++ snd (snd e))
               (entries (map (fun kv =>
                                (fst kv, (snd kv, deepFind targetKey (snd kv))))
                             fields))
  | _ => []
  end.

(** [v.includes(needle)] for a [v] that is neither [null] nor
    [undefined]: a substring test on a string, a membership test on an
    array, a TypeError on anything else. *)
Definition includes (needle : string) (v : value) : res bool :=
  match v with
  | VStr s => Ret (str_includes needle s)
  | VArr items => Ret (existsb (sameValueZero (VStr needle)) items)
  | _ => Throw
  end.

(** [item.title && (item.title.includes('Newest') ||
     item.title.includes('En yeni'))] *)
Definition titled_newest (item : value) : res bool :=
  title <~ member_of "title" item ;;
  if truthy title then
    n <~ includes "Newest" title ;;
    if n then Ret true else includes "En yeni" title
  else Ret false.

(** [item.serviceEndpoint?.continuationCommand?.token ||
     item.command?.continuationCommand?.token] *)
Definition item_token (item : value) : value :=
  or_ (opt_path ["continuationCommand"; "token"] (prop "serviceEndpoint" item))
      (opt_path ["continuationCommand"; "token"] (prop "command" item)).

(** [for (const item of menu.subMenuItems)], entered with the current
    value of [newestToken]; the loop is left as soon as a token is
    found. *)
Fixpoint scan_items (items : list value) (newestToken : value) : res value :=
  match items with
  | [] => Ret newestToken
  | item :: rest =>
      newest <~ titled_newest item ;;
      if newest then
        if truthy (item_token item) then Ret (item_token item)
        else scan_items rest (item_token item)
      else scan_items rest newestToken
  end.

(** [for (const menu of sortMenus)] *)
Fixpoint scan_menus (menus : list value) (newestToken : value) : res value :=
  match menus with
  | [] => Ret newestToken
  | menu :: rest =>
      subMenuItems <~ member_of "subMenuItems" menu ;;
      token <~ (if truthy subMenuItems then
                  items <~ iterate subMenuItems ;;
                  scan_items items newestToken
                else Ret newestToken) ;;
      if truthy token then Ret token else scan_menus rest token
  end.

(** [for (const source of dataSources)] *)
Fixpoint scan_sources (sources : list value) (newestToken : value)
  : res value :=
  match sources with
  | [] => Ret newestToken
  | source :: rest =>
      token <~ scan_menus (deepFind "sortFilterSubMenuRenderer" source)
                          newestToken ;;
      if truthy token then Ret token else scan_sources rest token
  end.

(** [[window.ytInitialData, section?.data].filter(Boolean)], [section]
    being the comment section element of the page. *)
Definition dataSources (ytInitialData sectionData : value) : list value :=
  filter truthy [ytInitialData; sectionData].

(** The search for the token of the newest-first sort at the start of
    [extractComments]; [newestToken] is [null] at first. *)
Definition find_newest_token (ytInitialData sectionData : value) : res value :=
  scan_sources (dataSources ytInitialData sectionData) VNull.

End Discovery.

(** ** Transcript segments *)

Module Transcript.

(** A number of the script: an integer or [NaN].  An integer stands for
    the double of that value, and the operations below are the exact ones:
    they are those of the script as long as the operands and the result
    stay below 2^53, the range the statements are restricted to. *)
Inductive number : Type :=
| NaN : number
| Int : Z -> number.

Definition add (a b : number) : number :=
  match a, b with
  | Int x, Int y => Int (x + y)
  | _, _ => NaN
  end.

Definition sub (a b : number) : number :=
  match a, b with
  | Int x, Int y => Int (x - y)
  | _, _ => NaN
  end.

Definition mul (a b : number) : number :=
  match a, b with
  | Int x, Int y => Int (x * y)
  | _, _ => NaN
  end.

(** [a > b]: false when either is [NaN] *)
Definition gt (a b : number) : bool :=
  match a, b with
  | Int x, Int y => (y <? x)%Z
  | _, _ => false
  end.

(** [Math.floor(a / d)] for a positive integer [d] *)
Definition floor_div (a : number) (d : Z) : number :=
  match a with
  | Int x => Int (x / d)
  | NaN => NaN
  end.

(** [a % d]: the sign of the result is the sign of [a] *)
Definition rem (a : number) (d : Z) : number :=
  match a with
  | Int x => Int (Z.rem x d)
  | NaN => NaN
  end.

(** [String(n)] *)
Definition show (n : number) : string :=
  match n with
  | NaN => "NaN"
  | Int z => string_of_Z z
  end.

(** White space and line terminators, among the code units below 256:
    tab, line feed, vertical tab, form feed, carriage return, space and
    no-break space. *)
Definition is_space (c : ascii) : bool :=
  let n := nat_of_ascii c in
  orb (andb (9 <=? n)%nat (n <=? 13)%nat)
      (orb (Nat.eqb n 32) (Nat.eqb n 160)).

Fixpoint skip_spaces (s : string) : string :=
  match s with
  | String c rest => if is_space c then skip_spaces rest else s
  | EmptyString => s
  end.

(** The value of a character as a digit of the radix. *)
Definition digit_value (radix : nat) (c : ascii) : option nat :=
  let n := nat_of_ascii c in
  let d :=
    if andb (48 <=? n)%nat (n <=? 57)%nat then Some (n - 48)%nat
    else if andb (97 <=? n)%nat (n <=? 122)%nat then Some (n - 87)%nat
    else if andb (65 <=? n)%nat (n <=? 90)%nat then Some (n - 55)%nat
    else None in
  match d with
  | Some v => if (v <? radix)%nat then Some v else None
  | None => None
  end.

(** The value of the longest prefix of digits; [acc] is the value read
    so far, [None] when no digit has been read. *)
Fixpoint digits_value (radix : nat) (s : string) (acc : option Z) : option Z :=
  match s with
  | String c rest =>
      match digit_value radix c with
      | Some d =>
          digits_value radix rest
            (Some (Z.of_nat radix * match acc with Some a => a | None => 0 end
                   + Z.of_nat d)%Z)
      | None => acc
      end
  | EmptyString => acc
  end.

(** [parseInt(s)], without a radix: leading white space is skipped, a
    sign is read, a prefix [0x] selects radix 16, and the longest prefix
    of digits gives the value; [NaN] when there is no digit. *)
Definition parseInt (s : string) : number :=
  let s1 := skip_spaces s in
  let signed :=
    match s1 with
    | String "-" rest => (true, rest)
    | String "+" rest => (false, rest)
    | _ => (false, s1)
    end in
  let prefixed :=
    match snd signed with
    | String "0" (String "x" rest) => (16%nat, rest)
    | String "0" (String "X" rest) => (16%nat, rest)
    | _ => (10%nat, snd signed)
    end in
  match digits_value (fst prefixed) (snd prefixed) None with
  | Some v => Int (if fst signed then - v else v)
  | None => NaN
  end.

Fixpoint split_colon_acc (s : string) (cur : string) : list string :=
  match s with
  | EmptyString => [cur]
  | String c rest =>
      if Ascii.eqb c ":"
      then cur :: split_colon_acc rest EmptyString
      else split_colon_acc rest (cur ++ String c EmptyString)
  end.

(** [timeStr.split(':')] *)
Definition split_colon (timeStr : string) : list string :=
  split_colon_acc timeStr EmptyString.

(** [timeToSeconds(timeStr)] *)
Definition timeToSeconds (timeStr : string) : number :=
  match split_colon timeStr with
  | [m; s] => add (mul (parseInt m) (Int 60)) (parseInt s)
  | [h; m; s] =>
      add (add (mul (parseInt h) (Int 3600)) (mul (parseInt m) (Int 60)))
          (parseInt s)
  | _ => Int 0
  end.

(** [s.padStart(2, '0')] *)
Definition padStart2 (s : string) : string :=
  match String.length s with
  | 0%nat => "00"
  | 1%nat => "0" ++ s
  | _ => s
  end.

(** [formatNVivoTime(seconds)] *)
Definition formatNVivoTime (seconds : number) : string :=
  let hours := floor_div seconds 3600 in
  let mins := floor_div (rem seconds 3600) 60 in
  let secs := rem seconds 60 in
  let decimal := floor_div (mul (rem secs 1) (Int 10)) 1 in
  let sSecs := padStart2 (show (floor_div secs 1)) in
  if gt hours (Int 0) then
    show hours ++ ":" ++ padStart2 (show mins) ++ ":" ++ sSecs ++ ","
    ++ show decimal
  else show mins ++ ":" ++ sSecs ++ "," ++ show decimal.

(** What [parseDomSegments] reads from one transcript segment element:
    the trimmed text of its timestamp and of its text, [None] when the
    element is missing. *)
Record dom_segment : Type := mkDomSegment {
  timestamp : option string;   (* [.segment-timestamp] *)
  segment_text : option string (* [.segment-text] *)
}.

(** [x || ''] *)
Definition or_empty (x : option string) : string :=
  match x with
  | Some s => s
  | None => EmptyString
  end.

(** The truth value of a string. *)
Definition filled (s : string) : bool := negb (String.eqb s EmptyString).

(** [s.replace(/[\r\n\t]/g, ' ')] *)
Fixpoint replace_breaks (s : string) : string :=
  match s with
  | EmptyString => EmptyString
  | String c rest =>
      String (if orb (Ascii.eqb c "013")
                     (orb (Ascii.eqb c "010") (Ascii.eqb c "009"))
              then " "%char else c)
             (replace_breaks rest)
  end.

(** [s.replace(/\s+/g, ' ')]; [in_run] tells whether the character
    before was white space. *)
Fixpoint collapse_spaces (s : string) (in_run : bool) : string :=
  match s with
  | EmptyString => EmptyString
  | String c rest =>
      if is_space c then
        if in_run then collapse_spaces rest true
        else String " " (collapse_spaces rest true)
      else String c (collapse_spaces rest false)
  end.

Fixpoint trim_end (s : string) : string :=
  match s with
  | EmptyString => EmptyString
  | String c rest =>
      match trim_end rest with
      | EmptyString => if is_space c then EmptyString else String c EmptyString
      | r => String c r
      end
  end.

(** [s.trim()] *)
Definition trim (s : string) : string := trim_end (skip_spaces s).

(** [text.replace(/[\r\n\t]/g, ' ').replace(/\s+/g, ' ').trim()] *)
Definition sanitize (text : string) : string :=
  trim (collapse_spaces (replace_breaks text) false).

(** An element of [allSegments]. *)
Record segment : Type := mkSegment {
  seg_time : string;
  seg_text : string;
  startSeconds : number;
  endSeconds : number
}.

(** First pass: the segments that have a text, each ending where the
    next element starts, or three seconds after its own start. *)
Fixpoint collect_segments (segments : list dom_segment) : list segment :=
  match segments with
  | [] => []
  | seg :: rest =>
      let time := or_empty (timestamp seg) in
      let text := or_empty (segment_text seg) in
      if filled text then
        let start := timeToSeconds time in
        let nextTime :=
          match rest with
          | next :: _ => timestamp next
          | [] => None
          end in
        let stop :=
          match nextTime with
          | Some t => if filled t then timeToSeconds t else add start (Int 3)
          | None => add start (Int 3)
          end in
        mkSegment time (sanitize text) start stop :: collect_segments rest
      else collect_segments rest
  end.

(** A group of segments. *)
Record group : Type := mkGroup {
  g_start : number;
  g_end : number;
  g_texts : list string
}.

Definition INTERVAL : number := Int 10.

(** One turn of the second pass: the groups closed so far and the
    current group. *)
Definition group_step (st : list group * group) (seg : segment)
  : list group * group :=
  let grouped := fst st in
  let currentGroup := snd st in
  if andb (0 <? List.length (g_texts currentGroup))%nat
          (gt (sub (endSeconds seg) (g_start currentGroup)) INTERVAL)
  then (grouped ++ [currentGroup],
        mkGroup (startSeconds seg) (endSeconds seg) [seg_text seg])
  else (grouped,
        mkGroup (if Nat.eqb (List.length (g_texts currentGroup)) 0
                 then startSeconds seg else g_start currentGroup)
                (endSeconds seg)
                (g_texts currentGroup ++ [seg_text seg])).

(** Second pass: the segments grouped into intervals. *)
Definition group_segments (allSegments : list segment) : list group :=
  let st := fold_left group_step allSegments
                      ([], mkGroup (Int 0) (Int 0) []) in
  if (0 <? List.length (g_texts (snd st)))%nat
  then fst st ++ [snd st] else fst st.

(** An element of the structured list. *)
Record entry : Type := mkEntry {
  e_time : string;
  e_text : string;
  startMs : number;
  durationMs : number
}.

(** What [parseDomSegments] returns when it does not return [null]. *)
Record transcript : Type := mkTranscript {
  t_text : string;
  t_segments : list entry
}.

Definition tab : string := String "009" EmptyString.
Definition crlf : string := String "013" (String "010" EmptyString).
Definition lf : string := String "010" EmptyString.

Definition nvivo_header : string :=
  tab ++ "Timespan" ++ tab ++ "Content" ++ tab ++ "Speaker".

Definition nvivo_line (lineNumber : nat) (g : group) : string :=
  string_of_Z (Z.of_nat lineNumber) ++ tab
  ++ formatNVivoTime (g_start g) ++ " - " ++ formatNVivoTime (g_end g) ++ tab
  ++ join_with " " (g_texts g) ++ tab.

Definition nvivo_entry (g : group) : entry :=
  mkEntry (formatNVivoTime (g_start g)) (join_with " " (g_texts g))
          (mul (g_start g) (Int 1000))
          (mul (sub (g_end g) (g_start g)) (Int 1000)).

(** Third pass: the lines, numbered from [lineNumber]. *)
Fixpoint nvivo_lines (grouped : list group) (lineNumber : nat) : list string :=
  match grouped with
  | [] => []
  | g :: rest => nvivo_line lineNumber g :: nvivo_lines rest (S lineNumber)
  end.

(** [v === true] *)
Definition is_true (v : value) : bool :=
  match v with
  | VBool true => true
  | _ => false
  end.

(** [options?.exportXlsx === true || options?.ncapture === true] *)
Definition useNVivoFormat (options : value) : bool :=
  orb (is_true (opt_path ["exportXlsx"] options))
      (is_true (opt_path ["ncapture"] options)).

(** The classic format: one entry for each segment that has a text. *)
Fixpoint classic_segments (segments : list dom_segment)
  : list (string * entry) :=
  match segments with
  | [] => []
  | seg :: rest =>
      let time := or_empty (timestamp seg) in
      let text := or_empty (segment_text seg) in
      if filled text then
        (("Time: " ++ time ++ lf ++ text)%string,
         mkEntry time text (Int 0) (Int 0))
        :: classic_segments rest
      else classic_segments rest
  end.

(** [parseDomSegments(segments, options)]; [None] is [null]. *)
Definition parseDomSegments (segments : list dom_segment) (options : value)
  : option transcript :=
  if useNVivoFormat options then
    let grouped := group_segments (collect_segments segments) in
    let nvivoLines := nvivo_header :: nvivo_lines grouped 1 in
    if (1 <? List.length nvivoLines)%nat
    then Some (mkTranscript (join_with crlf nvivoLines)
                            (map nvivo_entry grouped))
    else None
  else
    let lines := classic_segments segments in
    if (0 <? List.length lines)%nat
    then Some (mkTranscript (join_with (lf ++ lf)%string (map fst lines))
                            (map snd lines))
    else None.

End Transcript.

(** ** Vocabulary of the statements *)

Module Spec.

(** The delays of [n] successive retries, the first being [b]. *)
Fixpoint backoffs (n : nat) (b : Z) : list Z :=
  match n with
  | O => []
  | S k => b :: backoffs k (b * 2)
  end.

(** An attempt the transport retries: a response that is not ok, or a
    network failure. *)
Definition failed (a : attempt) : bool :=
  match a with
  | Responded r => negb (ok r)
  | Rejected _ => true
  end.

(** The number of [fetch] calls between two worlds. *)
Definition attempts (w w' : World) : nat := calls w' - calls w.

(** A record is either a root, with no parent, or flagged as a reply. *)
Definition well_linked (c : comment) : Prop :=
  (isReply c = VBool false /\ parentId c = VUndef) \/ isReply c = VBool true.

(** A record flagged as a reply whose parent is [p] (which may be
    [undefined]). *)
Definition reply_of (p : value) (c : comment) : Prop :=
  isReply c = VBool true /\ parentId c = p.

(** A record as the resolver builds it: neither flag set yet. *)
Definition unlinked (c : comment) : Prop :=
  isReply c = VUndef /\ parentId c = VUndef.

(** A record the store accepts: its id is missing, or a valid key. *)
Definition storable (c : comment) : bool :=
  orb (negb (truthy (id c))) (Sink.valid_key (id c)).

(** No two records of the store share an id. *)
Fixpoint uniq_ids (s : Sink.store) : bool :=
  match s with
  | [] => true
  | c :: rest =>
      andb (negb (existsb (fun x => Sink.key_eqb (id c) (id x)) rest))
           (uniq_ids rest)
  end.

(** [store.get(k)] *)
Definition lookup (s : Sink.store) (k : value) : option comment :=
  find (fun c => Sink.key_eqb (id c) k) s.

(** The put requests of the transactions that completed, in order. *)
Definition applied_puts `{Host} (h : Fallback.history) : list comment :=
  flat_map (fun so => match snd so with
                      | Sink.TxComplete => Sink.puts (fst so)
                      | Sink.TxError => []
                      end)
           (Fallback.schedule_all h 0).

(** A record handed to [put]: its id is a valid key, and it is not
    empty or is a string drawn at random. *)
Definition keyed `{Host} (c : comment) : Prop :=
  Sink.valid_key (id c) = true /\
  (truthy (id c) = true \/ exists n, id c = VStr (random_id n)).

(** How many records of the list lack an id. *)
Definition idless (cs : list comment) : nat :=
  List.length (filter (fun c => negb (truthy (id c))) cs).

(** The state of a write handle that was pending at first, given
    whether its transaction has ended. *)
Definition handle_state (ended : bool) : Sink.promise_state :=
  if ended then Sink.Resolved else Sink.Pending.

(** The handle has been rejected. *)
Definition is_rejected (h : Sink.promise_state) : bool :=
  match h with Sink.Rejected => true | _ => false end.

(** What the fields of a queue always satisfy: [running] counts the
    started tasks, no task is both queued and started or appears twice,
    and every task added so far is queued, started or settled. *)
Definition queue_inv (q : SimpleQueue.t) : Prop :=
  SimpleQueue.running q = List.length (SimpleQueue.started q) /\
  NoDup (SimpleQueue.queue q ++ SimpleQueue.started q) /\
  (forall t, In t (SimpleQueue.queue q ++ SimpleQueue.started q) ->
             (t < SimpleQueue.next q)%nat) /\
  (forall t, (t < SimpleQueue.next q)%nat ->
             In t (SimpleQueue.queue q) \/ In t (SimpleQueue.started q) \/
             In t (SimpleQueue.finished q)).

(** Every task numbered below [n] has settled. *)
Definition settled_below (n : nat) (q : SimpleQueue.t) : Prop :=
  forall t, (t < n)%nat -> In t (SimpleQueue.finished q).

(** No two tokens of the list are the same value. *)
Fixpoint distinct_tokens (l : list value) : bool :=
  match l with
  | [] => true
  | k :: rest =>
      andb (negb (existsb (sameValueZero k) rest)) (distinct_tokens rest)
  end.

(** A fixed chain of pages: the n-th main fetch yields the n-th page,
    and an empty failed batch beyond the last one. *)
Definition chain (pages : list batch) : nat -> value -> batch :=
  fun n _ => nth n pages MainFetch.empty_batch.

(** Every page but the last carries a next token. *)
Definition is_chain (pages : list batch) : Prop :=
  (1 <= List.length pages)%nat /\
  (forall i, (i + 1 < List.length pages)%nat ->
             truthy (nextToken (nth i pages MainFetch.empty_batch)) = true) /\
  truthy (nextToken (nth (List.length pages - 1) pages MainFetch.empty_batch))
    = false.

(** What the loop maintains about the reply queue: the keys of the
    tasks added are the tokens of the set, in order; no two of them are
    the same value; and each is the key of its descriptor. *)
Definition dedup_inv `{Host} (w : Walker.t) : Prop :=
  map fst (Walker.replyQueue w) = Walker.processedReplyTokens w /\
  distinct_tokens (Walker.processedReplyTokens w) = true /\
  Forall (fun kd => fst kd = Walker.tokenKey (snd kd)) (Walker.replyQueue w).

(** The main fetches of a session that harvests one batch and then
    fails: the first call yields [first], every later one the empty
    failed batch. *)
Definition one_batch_then_failure (first : batch) : nat -> value -> batch :=
  fun n _ => match n with
             | O => first
             | S _ => MainFetch.empty_batch
             end.

(** No two entries of the map share a key. *)
Fixpoint distinct_keys (m : JSMap.t) : bool :=
  match m with
  | [] => true
  | (k, _) :: rest => andb (negb (JSMap.has rest k)) (distinct_keys rest)
  end.

(** *** The data the resolver reads *)






(** *** Scheduling of the reply queue *)

(** What the scheduler maintains besides [queue_inv]: the limit is
    respected; a task waits only while every slot is taken; the waiting
    tasks are the ones added last, in the order they were added, every
    task started so far having been added before them; and a settled
    task is no longer running. *)
Definition sched_inv (q : SimpleQueue.t) : Prop :=
  (SimpleQueue.running q <= SimpleQueue.concurrency q)%nat /\
  (SimpleQueue.queue q = [] \/
   (SimpleQueue.concurrency q <= SimpleQueue.running q)%nat) /\
  (exists a,
      (a <= SimpleQueue.next q)%nat /\
      SimpleQueue.queue q = seq a (SimpleQueue.next q - a) /\
      forall t, In t (SimpleQueue.started q ++ SimpleQueue.finished q) ->
                (t < a)%nat) /\
  (forall t, In t (SimpleQueue.finished q) -> ~ In t (SimpleQueue.started q)).

(** *** Accounting of the walk *)

(** [comments.length > 0] *)
Definition nonempty (cs : list comment) : bool := (0 <? List.length cs)%nat.

(** The result of the k-th main fetch, given the tokens fetched. *)
Definition page_of (fetchMain : nat -> value -> batch) (tokens : list value)
    (k : nat) : batch :=
  fetchMain k (nth k tokens VUndef).

(** The pages the loop has processed: one per completed turn. *)
Definition pages_processed (fetchMain : nat -> value -> batch) (w : Walker.t)
  : list batch :=
  map (page_of fetchMain (Walker.fetched w))
      (seq 0 (Z.to_nat (Walker.batchNumber w - 1))).

(** Every fetch but the first asks for the next token of the page
    before, which was not empty. *)
Definition in_page_order (fetchMain : nat -> value -> batch)
    (tokens : list value) : Prop :=
  forall k, (S k < List.length tokens)%nat ->
    nth (S k) tokens VUndef = nextToken (page_of fetchMain tokens k) /\
    truthy (nth (S k) tokens VUndef) = true.

(** The books of the loop after [n] turns of a walk that started from
    the token [seed] with [total0] records already counted. *)
Definition account (fetchMain : nat -> value -> batch) (seed : value)
    (total0 : Z) (w : Walker.t) (n : nat) : Prop :=
  Walker.batchNumber w = (Z.of_nat n + 1)%Z /\
  (exists rest, Walker.fetched w = seed :: rest) /\
  in_page_order fetchMain (Walker.fetched w) /\
  Walker.pendingWrites w
  = filter nonempty
      (map comments (map (page_of fetchMain (Walker.fetched w)) (seq 0 n))) /\
  Walker.totalFetched w
  = (total0 + Z.of_nat (List.length (List.concat (Walker.pendingWrites w))))%Z.

(** *** Reading the store *)


(** The store holds a record under the key [k]. *)
Definition present (s : Sink.store) (k : value) : bool :=
  existsb (fun c => Sink.key_eqb (id c) k) s.

(** *** How a fetcher changes the world *)

(** A request to the page's [next] endpoint: it goes to the URL built
    from the page's API key and carries the page's context and a
    continuation that is not empty. *)
Definition page_request (w : World) (r : request) : Prop :=
  url r = Threads.next_url (apiKey w) /\
  prop "context" (body r) = context w /\
  truthy (prop "continuation" (body r)) = true.

(** [w'] is [w] after some fetches: the network script and the page
    configuration are the same; the request log has grown by one page
    request per [fetch] call; the delays awaited have been appended; and
    every key of the entity store is still there. *)
Definition extends (w w' : World) : Prop :=
  net w' = net w /\ apiKey w' = apiKey w /\ context w' = context w /\
  (exists rs, requests w' = requests w ++ rs /\
              calls w' = (calls w + List.length rs)%nat /\
              Forall (page_request w) rs) /\
  (exists ds, delays w' = delays w ++ ds) /\
  (forall k, JSMap.has (entityStore w) k = true ->
             JSMap.has (entityStore w') k = true).

(** Run from [w], the computation only extends the world, whatever its
    outcome. *)
Definition grows_from {A} (w : World) (m : M A) : Prop :=
  forall r w', m w = (r, w') -> extends w w'.

(** *** Responses that cannot be read *)

(** A value a [for ... of] loop can visit. *)
Definition iterable (v : value) : bool :=
  match v with
  | VArr _ | VStr _ => true
  | _ => false
  end.

(** A response body the fetchers cannot read: [response.json()]
    rejects, or the document is [null], or its
    [onResponseReceivedEndpoints] is there but is no list. *)
Definition unreadable (body : option value) : bool :=
  match body with
  | None => true
  | Some data =>
      orb (nullish data)
          (andb (truthy (prop "onResponseReceivedEndpoints" data))
                (negb (iterable (prop "onResponseReceivedEndpoints" data))))
  end.

(** *** The results of a thread *)

(** A reply token that is not empty, tagged with the parent [p]. *)
Definition tagged (p : value) (d : descriptor) : Prop :=
  truthy (d_token d) = true /\ d_parentId d = p.

(** From [a] to [a'] the loops of [processCommentThread] have only
    appended: records flagged as replies to the results, and tokens
    tagged with [p] to the collector, none of them when there is no
    collector. *)
Definition appends (parallel : bool) (p : value) (a a' : Threads.acc) : Prop :=
  (exists more,
      fst a' = fst a ++ more /\
      Forall (fun c => isReply c = VBool true) more) /\
  (exists ds, snd a' = snd a ++ ds /\ Forall (tagged p) ds) /\
  (parallel = false -> snd a' = snd a).





(** *** The sort menu *)

(** A sub menu item that offers the newest-first sort: its title
    includes ['Newest'] or ['En yeni'] and it carries the token [tok],
    which is not empty. *)
Definition offers_newest (item tok : value) : Prop :=
  Discovery.titled_newest item = Ret true /\
  Discovery.item_token item = tok /\ truthy tok = true.

(** A sub menu item whose title is a string that names another sort. *)
Definition other_sort (item : value) : Prop :=
  exists s, prop "title" item = VStr s /\
            str_includes "Newest" s = false /\
            str_includes "En yeni" s = false.

(** *** Transcript segments *)

(** The segment element has a text. *)
Definition has_text (seg : Transcript.dom_segment) : bool :=
  Transcript.filled (Transcript.or_empty (Transcript.segment_text seg)).

(** What the second pass maintains about a group: it holds a text, and
    when it holds several its end is at most [INTERVAL] seconds after
    its start. *)
Definition within_interval (g : Transcript.group) : Prop :=
  Transcript.g_texts g <> [] /\
  (List.length (Transcript.g_texts g) = 1%nat \/
   Transcript.gt (Transcript.sub (Transcript.g_end g) (Transcript.g_start g))
                 Transcript.INTERVAL = false).

End Spec.

(** ** Sample inputs *)

Module Samples.

Definition no_config_world (answers : nat -> attempt) : World :=
  mkWorld answers 0 [] [] JSMap.empty VUndef VUndef.

(** The network is down: every [fetch] rejects. *)
Definition down_world : World :=
  no_config_world (fun _ => Rejected "Failed to fetch").

Definition ok_response : response :=
  mkResponse true 200 (Some (VObj [])).

(** Three failures (a rejection, a 500, a 429), then a success. *)
Definition flaky_world : World :=
  no_config_world
    (fun n => match n with
              | 0%nat => Rejected "Failed to fetch"
              | 1%nat => Responded (mkResponse false 500 None)
              | 2%nat => Responded (mkResponse false 429 None)
              | _ => Responded ok_response
              end).

(** Two entity batch updates that overlap on the key ["k2"]. *)
Definition mutation (key : string) (content : string) : value :=
  VObj [("entityKey", VStr key);
        ("payload",
         VObj [("commentEntityPayload",
                VObj [("properties",
                       VObj [("content", VObj [("content", VStr content)])])])])].

Definition payload_of (content : string) : value :=
  VObj [("properties", VObj [("content", VObj [("content", VStr content)])])].

Definition updates (ms : list value) : value :=
  VObj [("entityBatchUpdate", VObj [("mutations", VArr ms)])].

Definition update_A : value :=
  updates [mutation "k1" "a1"; mutation "k2" "a2"].

Definition update_B : value :=
  updates [mutation "k2" "b2"; mutation "k3" "b3"].

Definition store_0 : JSMap.t := [(VStr "k0", payload_of "old")].



(** *** A host to run the samples on *)

Definition dquote : string := String "034"%char EmptyString.

Fixpoint escape (s : string) : string :=
  match s with
  | EmptyString => EmptyString
  | String c rest =>
      if orb (Ascii.eqb c "034"%char) (Ascii.eqb c "092"%char)
      then String "092"%char (String c (escape rest))
      else String c (escape rest)
  end.

Definition quote (s : string) : string := (dquote ++ escape s ++ dquote)%string.

(** [JSON.stringify] on strings without control characters. *)
Fixpoint stringify (v : value) : option string :=
  match v with
  | VUndef => None
  | VNull => Some "null"
  | VBool true => Some "true"
  | VBool false => Some "false"
  | VNum z => Some (string_of_Z z)
  | VStr s => Some (quote s)
  | VArr items =>
      Some ("[" ++ join_with ","
                     (map (fun x => match stringify x with
                                    | Some t => t
                                    | None => "null"
                                    end) items)
                ++ "]")%string
  | VObj fields =>
      Some ("{" ++ join_with ","
                     (flat_map (fun kx => match stringify (snd kx) with
                                          | Some t =>
                                              [(quote (fst kx) ++ ":" ++ t)%string]
                                          | None => []
                                          end) fields)
                ++ "}")%string
  end.

#[export] Instance sample_host : Host := {|
  JSON_stringify := fun v => match stringify v with
                             | Some t => VStr t
                             | None => VUndef
                             end;
  gt_zero := fun v => match v with
                      | VNum z => (0 <? z)%Z
                      | VBool b => b
                      | _ => false
                      end;
  random_id := fun n => ("r" ++ string_of_Z (Z.of_nat n))%string
|}.

(** *** Sample pages *)

(** A configured page whose network answers from a list of JSON
    documents, then fails. *)
Definition scripted_world (pages : list value) : World :=
  mkWorld (fun n => match nth_error pages n with
                    | Some page => Responded (mkResponse true 200 (Some page))
                    | None => Rejected "Failed to fetch"
                    end)
          0 [] [] JSMap.empty (VStr "KEY") (VObj []).

Definition append_items (items : list value) : value :=
  VObj [("onResponseReceivedEndpoints",
         VArr [VObj [("appendContinuationItemsAction",
                      VObj [("continuationItems", VArr items)])]])].

Definition legacy_comment (cid author words : string) : value :=
  VObj [("commentRenderer",
         VObj [("commentId", VStr cid);
               ("authorText", VObj [("simpleText", VStr author)]);
               ("contentText", VObj [("runs", VArr [VObj [("text", VStr words)]])])])].



(** *** Sample records *)

Definition record (cid : value) (words : string) : comment :=
  mkComment cid (VStr "ann") (VStr words) (VStr EmptyString) (VStr "0")
            (VStr EmptyString) (VBool false) (VBool false) (VStr EmptyString)
            VUndef (VBool false) VUndef VUndef.

(** Two completed writes; the second rewrites the record ["x"], and one
    record of the first has no id. *)
Definition sample_history : Fallback.history :=
  [([record (VStr "x") "first"; record (VStr EmptyString) "anonymous"],
    Sink.TxComplete);
   ([record (VStr "x") "second"], Sink.TxComplete)].

(** Three write batches, and a trace in which their transactions end
    out of order, the first one with an error. *)
Definition sample_batches : list (list comment) :=
  [[record (VStr "a") "one"]; [record (VStr EmptyString) "two"];
   [record (VStr "c") "three"]].

Definition sample_trace : list Sink.tx_event :=
  [(2%nat, Sink.TxComplete); (0%nat, Sink.TxError); (1%nat, Sink.TxComplete)].

(** Five tasks, [onIdle()], a sixth task, then the six tasks settle and
    the timer of [onIdle] fires. *)
Definition six_tasks : list SimpleQueue.event :=
  [SimpleQueue.Add; SimpleQueue.Add; SimpleQueue.Add; SimpleQueue.Add;
   SimpleQueue.Add; SimpleQueue.OnIdle; SimpleQueue.Add].

Definition six_settle : list SimpleQueue.event :=
  [SimpleQueue.Settle 0; SimpleQueue.Settle 1; SimpleQueue.Settle 2;
   SimpleQueue.Settle 3; SimpleQueue.Settle 4; SimpleQueue.Settle 5;
   SimpleQueue.Poll].

(** *** Sample chains *)

Definition more_page : batch := mkBatch [] (VStr "T1") (Some []).
Definition last_page : batch := mkBatch [] VNull (Some []).

(** Two pages. *)
Definition short_chain : list batch := [more_page; last_page].

(** A chain one page longer than the walk can request. *)
Definition long_chain : list batch :=
  repeat more_page (Z.to_nat (Walker.ceiling + 1)) ++ [last_page].

(** *** A page whose thread announces its replies in [contents] *)

Definition reply_endpoint (token : string) : value :=
  VObj [("continuationCommand", VObj [("token", VStr token)])].

Definition thread_with_replies : value :=
  VObj [("commentThreadRenderer",
         VObj [("comment", legacy_comment "c1" "bob" "root");
               ("replies",
                VObj [("commentRepliesRenderer",
                       VObj [("contents",
                              VArr [VObj [("continuationItemRenderer",
                                           VObj [("continuationEndpoint",
                                                  reply_endpoint "R1")])]])])])])].

Definition replies_page : value := append_items [legacy_comment "r1" "ann" "hello"].

(** The answers of the network, in the order of the requests. *)
Definition replies_world : World :=
  scripted_world [append_items [thread_with_replies]; replies_page; replies_page].

(** *** A host whose [Math.random()] returns 0 *)

(** [(0).toString(36)] is ["0"], of which [substr(2, 9)] is the empty
    string. *)
Definition zero_host : Host := {|
  JSON_stringify := @JSON_stringify sample_host;
  gt_zero := @gt_zero sample_host;
  random_id := fun _ => EmptyString
|}.

(** *** A page that has rendered two threads *)

Definition rendered_threads : list Fallback.dom_thread :=
  [Fallback.mkDomThread (VStr "nice video") (VStr "@ann") (VStr "1 day ago")
                        (VStr "3") (VStr "/@ann") VUndef;
   Fallback.mkDomThread (VStr "first") (VStr "@bob") VUndef VUndef VUndef VUndef].

(** *** Sample nodes for the resolver *)

Definition entity_payload : value :=
  VObj [("properties",
         VObj [("content", VObj [("content", VStr "hi there")]);
               ("publishedTime", VStr "2 days ago")]);
        ("author", VObj [("displayName", VStr "@zed")]);
        ("toolbar", VObj [("likeCount", VStr "12")])].

Definition keyed_view_model : value :=
  VObj [("commentKey", VStr "K1"); ("commentId", VStr "Ugx")].

Definition next_page_response : value :=
  append_items
    [legacy_comment "c9" "ann" "last";
     VObj [("continuationItemRenderer",
            VObj [("continuationEndpoint",
                   VObj [("continuationCommand", VObj [("token", VStr "T2")]);
                         ("clickTrackingParams", VStr "ctp")])])]].

(** *** A page with a sort menu *)

Definition sort_item (title token : string) : value :=
  VObj [("title", VStr title);
        ("serviceEndpoint",
         VObj [("continuationCommand", VObj [("token", VStr token)])])].

Definition sort_menu : value :=
  VObj [("subMenuItems",
         VArr [sort_item "Top comments" "TOP";
               sort_item "Newest first" "NEW"])].

(** The menu sits in the header of the comment section. *)
Definition initial_data : value :=
  VObj [("contents",
         VObj [("results",
                VArr [VObj [("videoPrimaryInfoRenderer", VObj [])];
                      VObj [("itemSectionRenderer",
                             VObj [("header",
                                    VArr [VObj [("commentsHeaderRenderer",
                                                 VObj [("sortMenu",
                                                        VObj [("sortFilterSubMenuRenderer",
                                                               sort_menu)])])]])])]])])].

(** *** A transcript panel *)

Definition panel : list Transcript.dom_segment :=
  [Transcript.mkDomSegment (Some "0:00") (Some "hello");
   Transcript.mkDomSegment (Some "0:04") (Some "world");
   Transcript.mkDomSegment (Some "0:09") None;
   Transcript.mkDomSegment (Some "0:15") (Some "again")].

End Samples.

(** * Properties *)

(** ** Retry transport *)

Module TransportFacts.
Import Transport Spec.

Lemma fetchWithRetry_run (u : string) (b : value) (retries : nat) :
  forall (backoff : Z) (w : World),
  exists n,
    (1 <= n <= S retries)%nat /\
    calls (snd (fetchWithRetry u b retries backoff w)) = (calls w + n)%nat /\
    net (snd (fetchWithRetry u b retries backoff w)) = net w /\
    delays (snd (fetchWithRetry u b retries backoff w))
      = delays w ++ backoffs (n - 1) backoff /\
    (forall i, (i < n - 1)%nat -> failed (net w (calls w + i)%nat) = true) /\
    ((net w (calls w + (n - 1))%nat
        = Responded (fst (fetchWithRetry u b retries backoff w)) /\
      ok (fst (fetchWithRetry u b retries backoff w)) = true)
     \/
     (n = S retries /\
      failed (net w (calls w + (n - 1))%nat) = true /\
      fst (fetchWithRetry u b retries backoff w) = sentinel)).
Proof.
  induction retries as [|r IH]; intros backoff w.
  - exists 1%nat. cbn [fetchWithRetry fetch].
    replace (calls w + (1 - 1))%nat with (calls w) by lia.
    destruct (net w (calls w)) as [resp|msg] eqn:E;
      [destruct (ok resp) eqn:Eok|]; cbn;
      (split; [lia|]); (split; [lia|]); (split; [reflexivity|]);
      (split; [now rewrite app_nil_r|]); (split; [intros i Hi; lia|]).
    + left. auto.
    + right. cbn. rewrite Eok. auto.
    + right. auto.
  - cbn [fetchWithRetry].
    set (w1 := snd (fetch u b w)).
    assert (Hw1 : fetch u b w = (net w (calls w), w1)) by reflexivity.
    rewrite Hw1.
    assert (Hok : forall resp, net w (calls w) = Responded resp ->
                               ok resp = true ->
            exists n,
              (1 <= n <= S (S r))%nat /\ calls w1 = (calls w + n)%nat /\
              net w1 = net w /\ delays w1 = delays w ++ backoffs (n - 1) backoff /\
              (forall i, (i < n - 1)%nat ->
                         failed (net w (calls w + i)%nat) = true) /\
              ((net w (calls w + (n - 1))%nat = Responded resp /\ ok resp = true)
               \/ (n = S (S r) /\ failed (net w (calls w + (n - 1))%nat) = true
                   /\ resp = sentinel))).
    { intros resp E Eok. exists 1%nat. subst w1. cbn.
      replace (calls w + 0)%nat with (calls w) by lia.
      (split; [lia|]); (split; [lia|]); (split; [reflexivity|]);
      (split; [now rewrite app_nil_r|]); (split; [intros i Hi; lia|]).
      left; auto. }
    assert (Hretry : failed (net w (calls w)) = true ->
            exists n,
              (1 <= n <= S (S r))%nat /\
              calls (snd (fetchWithRetry u b r (backoff * 2) (sleep backoff w1)))
                = (calls w + n)%nat /\
              net (snd (fetchWithRetry u b r (backoff * 2) (sleep backoff w1)))
                = net w /\
              delays (snd (fetchWithRetry u b r (backoff * 2) (sleep backoff w1)))
                = delays w ++ backoffs (n - 1) backoff /\
              (forall i, (i < n - 1)%nat ->
                         failed (net w (calls w + i)%nat) = true) /\
              ((net w (calls w + (n - 1))%nat
                  = Responded (fst (fetchWithRetry u b r (backoff * 2)
                                                   (sleep backoff w1))) /\
                ok (fst (fetchWithRetry u b r (backoff * 2) (sleep backoff w1)))
                  = true)
               \/ (n = S (S r) /\
                   failed (net w (calls w + (n - 1))%nat) = true /\
                   fst (fetchWithRetry u b r (backoff * 2) (sleep backoff w1))
                     = sentinel))).
    { intros Hfail.
      destruct (IH (backoff * 2)%Z (sleep backoff w1))
        as (n & Hn & Hc & Hnet & Hd & Hpre & Hlast).
      assert (Hcalls : calls (sleep backoff w1) = S (calls w)) by reflexivity.
      assert (Hnet1 : net (sleep backoff w1) = net w) by reflexivity.
      assert (Hdel : delays (sleep backoff w1) = delays w ++ [backoff])
        by reflexivity.
      rewrite Hcalls, Hnet1 in *. rewrite Hdel in Hd.
      exists (S n). split; [lia|]. split; [rewrite Hc; lia|].
      split; [exact Hnet|]. split; [|split].
      - rewrite Hd, <- app_assoc. cbn [app].
        replace (S n - 1)%nat with (S (n - 1)) by lia. reflexivity.
      - intros i Hi. destruct i as [|i].
        + replace (calls w + 0)%nat with (calls w) by lia. exact Hfail.
        + replace (calls w + S i)%nat with (S (calls w) + i)%nat by lia.
          apply Hpre. lia.
      - replace (calls w + (S n - 1))%nat with (S (calls w) + (n - 1))%nat by lia.
        destruct Hlast as [[H1 H2]|(H1 & H2 & H3)].
        + left; auto.
        + right. repeat split; auto; lia. }
    destruct (net w (calls w)) as [resp|msg] eqn:E.
    + destruct (ok resp) eqn:Eok.
      * cbn [fst snd]. apply Hok; auto.
      * apply Hretry. cbn. now rewrite Eok.
    + apply Hretry. reflexivity.
Qed.

End TransportFacts.

Module TransportClaims.
Import Transport Spec Samples TransportFacts.

(** C3 (as amended).  For every URL, request and network, [fetchWithRetry]
    with its defaults makes at least one and at most six attempts (the
    first one and up to five retries); the delays awaited before the
    retries are 1000, 2000, 4000, 8000 and 16000 ms, in that order; the
    result is either a response that is ok or the sentinel whose [ok] is
    false; a call that fails on attempts 1 to 3 and succeeds on attempt 4
    returns that successful response after delays of 1000, 2000 and
    4000 ms; and when all six attempts fail the sentinel is returned, no
    exception being raised. *)
Theorem fetchWithRetry_policy (u : string) (b : value) (w : World) :
  let r := fst (send u b w) in
  let w' := snd (send u b w) in
  (1 <= attempts w w' <= 6)%nat /\
  delays w' = delays w
              ++ firstn (attempts w w' - 1) [1000; 2000; 4000; 8000; 16000]%Z /\
  (ok r = true \/ r = sentinel) /\
  (forall resp,
      failed (net w (calls w)) = true ->
      failed (net w (calls w + 1)%nat) = true ->
      failed (net w (calls w + 2)%nat) = true ->
      net w (calls w + 3)%nat = Responded resp ->
      ok resp = true ->
      r = resp /\ attempts w w' = 4%nat /\
      delays w' = delays w ++ [1000; 2000; 4000]%Z) /\
  ((forall i, (i < 6)%nat -> failed (net w (calls w + i)%nat) = true) ->
   r = sentinel /\ ok r = false /\ attempts w w' = 6%nat).
Proof.
  intros r w'. subst r w'. unfold send, default_retries, default_backoff, attempts.
  destruct (fetchWithRetry_run u b 5 1000 w)
    as (n & Hn & Hc & Hnet & Hd & Hpre & Hlast).
  rewrite Hc.
  replace (calls w + n - calls w)%nat with n by lia.
  assert (Hsched : backoffs (n - 1) 1000
                   = firstn (n - 1) [1000; 2000; 4000; 8000; 16000]%Z).
  { assert (Hcases : (n = 1 \/ n = 2 \/ n = 3 \/ n = 4 \/ n = 5 \/ n = 6)%nat)
      by lia.
    destruct Hcases as [->|[->|[->|[->|[->| ->]]]]]; reflexivity. }
  split; [lia|]. split; [rewrite Hd, Hsched; reflexivity|].
  split; [|split].
  - destruct Hlast as [[_ H]|(_ & _ & H)]; auto.
  - intros resp F0 F1 F2 E3 Eok.
    assert (F3 : failed (net w (calls w + 3)%nat) = false)
      by (rewrite E3; unfold failed; now rewrite Eok).
    assert (Hn4 : n = 4%nat).
    { assert (Hle : ~ (3 < n - 1)%nat)
        by (intros Hlt; specialize (Hpre 3%nat Hlt); congruence).
      assert (Hlastfail : failed (net w (calls w + (n - 1))%nat) = false).
      { destruct Hlast as [[H1 H2]|(H1 & H2 & H3)].
        - rewrite H1. unfold failed. now rewrite H2.
        - lia. }
      assert (Hcases : (n - 1 = 0 \/ n - 1 = 1 \/ n - 1 = 2 \/ n - 1 = 3)%nat)
        by lia.
      replace (calls w + 0)%nat with (calls w) in Hpre by lia.
      destruct Hcases as [E|[E|[E|E]]]; rewrite E in Hlastfail.
      - replace (calls w + 0)%nat with (calls w) in Hlastfail by lia. congruence.
      - congruence.
      - congruence.
      - lia. }
    subst n. cbn [Nat.sub] in *.
    split; [|split; [reflexivity|rewrite Hd; reflexivity]].
    destruct Hlast as [[H1 H2]|(H1 & _)]; [|lia].
    rewrite E3 in H1. now inversion H1.
  - intros Hall.
    destruct Hlast as [[H1 H2]|(H1 & H2 & H3)].
    + assert (Hlt : (n - 1 < 6)%nat) by lia.
      specialize (Hall _ Hlt). rewrite H1 in Hall. unfold failed in Hall.
      rewrite H2 in Hall. discriminate.
    + split; [exact H3|]. split; [rewrite H3; reflexivity|lia].
Qed.

(** The retry scenario on a sample network: attempts 1 to 3 fail, attempt
    4 succeeds. *)
Lemma fetchWithRetry_policy_witness :
  fst (send "https://example.test" VNull flaky_world) = ok_response /\
  attempts flaky_world (snd (send "https://example.test" VNull flaky_world)) = 4%nat /\
  delays (snd (send "https://example.test" VNull flaky_world))
    = [1000; 2000; 4000]%Z.
Proof.
  destruct (fetchWithRetry_policy "https://example.test" VNull flaky_world)
    as (_ & _ & _ & H & _).
  apply (H ok_response); reflexivity.
Defined.

(** C3, as stated, fails: with the network down the transport makes six
    attempts, not at most five. *)
Lemma fetchWithRetry_six_attempts :
  attempts down_world (snd (send "https://example.test" VNull down_world)) = 6%nat /\
  ~ (attempts down_world (snd (send "https://example.test" VNull down_world)) <= 5)%nat.
Proof.
  assert (H : attempts down_world
                (snd (send "https://example.test" VNull down_world)) = 6%nat)
    by reflexivity.
  split; [exact H|]. rewrite H. lia.
Qed.

End TransportClaims.

(** ** Entity store *)

Module EntityFacts.
Import Resolver Spec.

Lemma sameValueZero_eq (a b : value) : sameValueZero a b = true -> a = b.
Proof.
  destruct a, b; cbn; try discriminate; intros E; try reflexivity.
  - apply Bool.eqb_prop in E. now subst.
  - apply Z.eqb_eq in E. now subst.
  - apply String.eqb_eq in E. now subst.
Qed.

Lemma sameValueZero_sym (a b : value) : sameValueZero a b = sameValueZero b a.
Proof.
  destruct a, b; cbn; try reflexivity.
  - now destruct b, b0.
  - apply Z.eqb_sym.
  - apply String.eqb_sym.
Qed.

Lemma get_set (m : JSMap.t) (k v k' : value) :
  JSMap.get (JSMap.set m k v) k'
  = if sameValueZero k k' then v else JSMap.get m k'.
Proof.
  induction m as [|[k0 v0] rest IH]; cbn.
  - reflexivity.
  - destruct (sameValueZero k0 k) eqn:E0; cbn.
    + apply sameValueZero_eq in E0. subst k0.
      destruct (sameValueZero k k'); reflexivity.
    + rewrite IH. destruct (sameValueZero k0 k') eqn:E1; [|reflexivity].
      destruct (sameValueZero k k') eqn:E2; [|reflexivity].
      assert (H1 := sameValueZero_eq _ _ E1).
      assert (H2 := sameValueZero_eq _ _ E2). subst. congruence.
Qed.

Lemma has_set (m : JSMap.t) (k v k' : value) :
  JSMap.has (JSMap.set m k v) k' = orb (sameValueZero k k') (JSMap.has m k').
Proof.
  induction m as [|[k0 v0] rest IH]; cbn.
  - reflexivity.
  - destruct (sameValueZero k0 k) eqn:E0; cbn.
    + apply sameValueZero_eq in E0. subst k0.
      destruct (sameValueZero k k'); reflexivity.
    + rewrite IH. destruct (sameValueZero k0 k'); [|reflexivity].
      now rewrite orb_true_r.
Qed.

Lemma distinct_keys_set (m : JSMap.t) (k v : value) :
  distinct_keys m = true -> distinct_keys (JSMap.set m k v) = true.
Proof.
  induction m as [|[k0 v0] rest IH]; cbn; intros D.
  - reflexivity.
  - apply andb_true_iff in D. destruct D as [D0 D1].
    destruct (sameValueZero k0 k) eqn:E0; cbn.
    + now rewrite D0, D1.
    + rewrite has_set, (sameValueZero_sym k k0), E0. cbn.
      now rewrite D0, IH.
Qed.

Lemma has_set_all (src dst : JSMap.t) (k : value) :
  JSMap.has (JSMap.set_all src dst) k = orb (JSMap.has src k) (JSMap.has dst k).
Proof.
  unfold JSMap.set_all. revert dst.
  induction src as [|[k0 v0] rest IH]; intros dst; cbn.
  - reflexivity.
  - rewrite IH, has_set.
    destruct (sameValueZero k0 k), (JSMap.has rest k); reflexivity.
Qed.

Lemma get_set_all (src dst : JSMap.t) (k : value) :
  distinct_keys src = true ->
  JSMap.get (JSMap.set_all src dst) k
  = if JSMap.has src k then JSMap.get src k else JSMap.get dst k.
Proof.
  unfold JSMap.set_all. revert dst.
  induction src as [|[k0 v0] rest IH]; intros dst D; cbn.
  - reflexivity.
  - cbn in D. apply andb_true_iff in D. destruct D as [D0 D1].
    rewrite (IH _ D1), get_set.
    destruct (sameValueZero k0 k) eqn:E0; [|reflexivity].
    apply sameValueZero_eq in E0. subst k0.
    apply negb_true_iff in D0. now rewrite D0.
Qed.

Lemma fold_parse_distinct (ms : list value) :
  forall acc m,
    distinct_keys acc = true ->
    fold_res parse_mutation ms acc = Ret m ->
    distinct_keys m = true.
Proof.
  induction ms as [|x rest IH]; intros acc m D E; cbn in E.
  - inversion E; subst; assumption.
  - unfold res_bind in E.
    destruct (parse_mutation acc x) as [acc'| |] eqn:Ex; try discriminate.
    apply (IH acc' m); [|exact E].
    unfold parse_mutation, member_of, res_bind in Ex.
    destruct (nullish x); try discriminate.
    destruct (truthy (prop "payload" x)).
    + destruct (truthy (prop "commentEntityPayload" (prop "payload" x)));
        inversion Ex; subst; now apply distinct_keys_set.
    + inversion Ex; subst; assumption.
Qed.

Lemma parseEntityStore_distinct (fu : value) (m : JSMap.t) :
  parseEntityStore fu = Ret m -> distinct_keys m = true.
Proof.
  unfold parseEntityStore.
  destruct (truthy (opt_path ["entityBatchUpdate"; "mutations"] fu)).
  - unfold res_bind.
    destruct (iterate (opt_path ["entityBatchUpdate"; "mutations"] fu))
      as [ms| |]; try discriminate.
    now apply fold_parse_distinct.
  - intros E. now inversion E.
Qed.

End EntityFacts.

Module EntityClaims.
Import Resolver Spec Samples EntityFacts.

(** C4.  Merging is last-applied-wins per key.  Let [A] and [B] be the
    maps parsed from two batch updates.  Merging the first update and
    then the second into a store succeeds in either order, and for every
    key: if it is in [B], the store merged with [A] then [B] holds the
    value of [B]; if it is in only one update, the store holds that
    update's value whichever was merged first; if it is in neither, the
    store's own value is untouched; and a key of the store is never
    removed. *)
Theorem mergeEntities_last_applied_wins
    (a b : value) (A B : JSMap.t) (store : JSMap.t) (k : value) :
  parseEntityStore a = Ret A ->
  parseEntityStore b = Ret B ->
  exists sAB sBA,
    res_bind (mergeEntities a store) (mergeEntities b) = Ret sAB /\
    res_bind (mergeEntities b store) (mergeEntities a) = Ret sBA /\
    (JSMap.has B k = true -> JSMap.get sAB k = JSMap.get B k) /\
    (JSMap.has A k = true -> JSMap.has B k = false ->
     JSMap.get sAB k = JSMap.get A k /\ JSMap.get sBA k = JSMap.get A k) /\
    (JSMap.has A k = false -> JSMap.has B k = true ->
     JSMap.get sAB k = JSMap.get B k /\ JSMap.get sBA k = JSMap.get B k) /\
    (JSMap.has A k = false -> JSMap.has B k = false ->
     JSMap.get sAB k = JSMap.get store k /\
     JSMap.get sBA k = JSMap.get store k) /\
    (JSMap.has store k = true ->
     JSMap.has sAB k = true /\ JSMap.has sBA k = true).
Proof.
  intros EA EB.
  assert (DA := parseEntityStore_distinct _ _ EA).
  assert (DB := parseEntityStore_distinct _ _ EB).
  exists (JSMap.set_all B (JSMap.set_all A store)),
         (JSMap.set_all A (JSMap.set_all B store)).
  unfold mergeEntities. rewrite EA, EB. cbn.
  split; [reflexivity|]. split; [reflexivity|].
  rewrite !get_set_all by assumption. rewrite !has_set_all.
  repeat split.
  - intros HB. now rewrite HB.
  - rewrite H0, H. reflexivity.
  - rewrite H. reflexivity.
  - rewrite H0. reflexivity.
  - rewrite H, H0. reflexivity.
  - rewrite H, H0. reflexivity.
  - rewrite H, H0. reflexivity.
  - rewrite H. now rewrite !orb_true_r.
  - rewrite H. now rewrite !orb_true_r.
Qed.

(** The two sample updates merged into a sample store: ["k2"], which
    both carry, ends with the value of the update merged last. *)
Lemma mergeEntities_last_applied_wins_witness :
  exists sAB sBA,
    res_bind (mergeEntities update_A store_0) (mergeEntities update_B) = Ret sAB /\
    res_bind (mergeEntities update_B store_0) (mergeEntities update_A) = Ret sBA /\
    JSMap.get sAB (VStr "k2") = payload_of "b2" /\
    JSMap.get sBA (VStr "k2") = payload_of "a2" /\
    JSMap.get sAB (VStr "k1") = payload_of "a1" /\
    JSMap.get sBA (VStr "k1") = payload_of "a1" /\
    JSMap.get sAB (VStr "k0") = payload_of "old".
Proof.
  destruct (mergeEntities_last_applied_wins update_A update_B
              [(VStr "k1", payload_of "a1"); (VStr "k2", payload_of "a2")]
              [(VStr "k2", payload_of "b2"); (VStr "k3", payload_of "b3")]
              store_0 (VStr "k2") eq_refl eq_refl)
    as (sAB & sBA & E1 & E2 & _).
  exists sAB, sBA.
  cbv in E1, E2. inversion E1. inversion E2.
  repeat split; reflexivity.
Defined.

End EntityClaims.

(** ** Entity resolver *)

Module ResolverFacts.
Import Resolver Spec.

Lemma or_truthy_r (a b : value) : truthy b = true -> truthy (or_ a b) = true.
Proof. unfold or_. destruct (truthy a) eqn:E; auto. Qed.

Lemma or_truthy_l (a b : value) : truthy a = true -> or_ a b = a.
Proof. unfold or_. now intros ->. Qed.

Lemma or_falsy_l (a b : value) : truthy a = false -> or_ a b = b.
Proof. unfold or_. now intros ->. Qed.








Lemma member_of_no_fuel (k : string) (v : value) : member_of k v <> Fuel.
Proof. unfold member_of. destruct (nullish v); discriminate. Qed.















Lemma nullish_falsy (v : value) : nullish v = true -> truthy v = false.
Proof. destruct v; cbn; congruence. Qed.











End ResolverFacts.

Module ResolverClaims.
Import Resolver Spec Samples ResolverFacts.




End ResolverClaims.

(** ** The monad *)

Module MonadFacts.
Import Threads.

Lemma bind_ret_inv {A B} (m : M A) (k : A -> M B) (w w' : World) (b : B) :
  bind m k w = (Ret b, w') ->
  exists a w1, m w = (Ret a, w1) /\ k a w1 = (Ret b, w').
Proof.
  unfold bind. destruct (m w) as [[a| |] w1]; intros E; try discriminate.
  now exists a, w1.
Qed.

Lemma ret_inv {A} (a b : A) (w w' : World) :
  ret a w = (Ret b, w') -> a = b /\ w = w'.
Proof. unfold ret. intros E. now inversion E. Qed.

Lemma lift_inv {A} (r : res A) (b : A) (w w' : World) :
  lift r w = (Ret b, w') -> r = Ret b /\ w = w'.
Proof. unfold lift. intros E. now inversion E. Qed.

Lemma try_catch_inv {A} (m h : M A) (w w' : World) (a : A) :
  try_catch m h w = (Ret a, w') ->
  m w = (Ret a, w') \/ exists w1, m w = (Throw, w1) /\ h w1 = (Ret a, w').
Proof.
  unfold try_catch. destruct (m w) as [[x| |] w1]; intros E.
  - now left.
  - right. now exists w1.
  - discriminate.
Qed.

Lemma foldM_inv {A B} (P : A -> Prop) (f : A -> B -> M A) (xs : list B) :
  (forall a x w a' w', P a -> f a x w = (Ret a', w') -> P a') ->
  forall a w a' w', P a -> foldM f xs a w = (Ret a', w') -> P a'.
Proof.
  intros Hf. induction xs as [|x rest IH]; intros a w a' w' Pa E; cbn in E.
  - apply ret_inv in E. destruct E as [<- _]. exact Pa.
  - apply bind_ret_inv in E. destruct E as (a1 & w1 & E1 & E2).
    eapply IH; [|exact E2]. eapply Hf; eauto.
Qed.

End MonadFacts.

(** Inversion of a monadic computation that returned. *)
Ltac inv_ret :=
  repeat match goal with
    | H : bind _ _ _ = (Ret _, _) |- _ =>
        let a := fresh "x" in let w := fresh "w" in
        let E := fresh "E" in
        apply MonadFacts.bind_ret_inv in H; destruct H as (a & w & E & H)
    | H : ret _ _ = (Ret _, _) |- _ =>
        apply MonadFacts.ret_inv in H; destruct H as [? ?]; subst
    | H : lift _ _ = (Ret _, _) |- _ =>
        apply MonadFacts.lift_inv in H; destruct H as [H ?]; subst
    | H : Threads.get_world _ = (Ret _, _) |- _ =>
        unfold Threads.get_world in H; inversion H; subst; clear H
    end.

Ltac split_if H :=
  match type of H with
  | context [if ?c then _ else _] => destruct c eqn:?
  end.

Ltac case_ret :=
  match goal with
  | H : (if ?c then _ else _) _ = (Ret _, _) |- _ => destruct c eqn:?
  end.

(** ** Thread processing *)

Module ThreadFacts.
Import Resolver Threads MainFetch Spec MonadFacts.

Lemma resolveComment_unlinked (vm : value) (st : option JSMap.t) (r : comment) :
  resolveComment vm st = Ret (Some r) -> unlinked r.
Proof.
  unfold resolveComment, res_bind.
  destruct (truthy vm); cbn [negb]; try discriminate.
  destruct (found_text _); try discriminate.
  destruct (found_authorUrl _); try discriminate.
  destruct (found_member _); try discriminate.
  match goal with |- (if ?c then _ else _) = _ -> _ => destruct c end;
    intros E; inversion E. now split.
Qed.

Lemma legacy_root_unlinked (cr : value) (c : comment) :
  legacy_root cr = Ret c -> unlinked c.
Proof.
  unfold legacy_root, res_bind.
  destruct (runs_text _); try discriminate.
  destruct (badges_some _); try discriminate.
  destruct (badges_find_tooltip _); try discriminate.
  destruct (absolute_url _); try discriminate.
  intros E; inversion E. now split.
Qed.

Lemma legacy_reply_reply_of (cr p : value) (r : comment) :
  legacy_reply cr p = Ret r -> reply_of p r.
Proof.
  unfold legacy_reply, res_bind.
  destruct (runs_text _); try discriminate.
  intros E; inversion E. now split.
Qed.

Lemma as_reply_reply_of (p : value) (r : comment) : reply_of p (as_reply p r).
Proof. now split. Qed.

Lemma as_nested_is_reply (root : option comment) (t : comment) :
  isReply (as_nested root t) = VBool true.
Proof. unfold as_nested. now destruct (truthy (root_id root)). Qed.

Lemma reply_of_well_linked (p : value) (c : comment) :
  reply_of p c -> well_linked c.
Proof. intros [R _]. now right. Qed.

Lemma resolve_reply_reply_of (v p : value) (w w' : World) (r : comment) :
  resolve_reply v p w = (Ret (Some r), w') -> reply_of p r.
Proof.
  unfold resolve_reply. intros E. inv_ret.
  destruct x0 as [c|]; cbn in *; [|discriminate].
  match goal with H : Some _ = Some _ |- _ => inversion H end.
  apply as_reply_reply_of.
Qed.

Section Steps.
Context `{Host}.
Variable Q : comment -> Prop.
Variable pct : value -> nat -> bool -> M acc.
Variable fr : value -> value -> M (option (list comment)).

Hypothesis fr_replies :
  forall e p w rs w', fr e p w = (Ret (Some rs), w') -> Forall (reply_of p) rs.

Lemma push_resolved_keeps (p : value) (a a' : acc) (v : value) (w w' : World) :
  (forall c, reply_of p c -> Q c) ->
  Forall Q (fst a) ->
  push_resolved a v p w = (Ret a', w') ->
  Forall Q (fst a').
Proof.
  intros HQ Fa E. unfold push_resolved in E. inv_ret.
  destruct x as [r|]; inv_ret.
  - cbn. apply Forall_app. split; [exact Fa|].
    constructor; [|constructor]. apply HQ.
    eapply resolve_reply_reply_of; eauto.
  - exact Fa.
Qed.

Lemma push_fetched_keeps (p : value) (a a' : acc) (e : value) (w w' : World) :
  (forall c, reply_of p c -> Q c) ->
  Forall Q (fst a) ->
  push_fetched a (fr e p) w = (Ret a', w') ->
  Forall Q (fst a').
Proof.
  intros HQ Fa E. unfold push_fetched in E. inv_ret.
  destruct x as [rs|]; inv_ret.
  - cbn. apply Forall_app. split; [exact Fa|].
    eapply Forall_impl; [exact HQ|]. eapply fr_replies; eauto.
  - exact Fa.
Qed.

Lemma on_token_keeps (parallel : bool) (p : value) (a a' : acc) (token : value)
    (w w' : World) :
  (forall c, reply_of p c -> Q c) ->
  Forall Q (fst a) ->
  on_token fr parallel p a token w = (Ret a', w') ->
  Forall Q (fst a').
Proof.
  intros HQ Fa E. unfold on_token in E. destruct parallel.
  - inv_ret. exact Fa.
  - eapply push_fetched_keeps; eauto.
Qed.

End Steps.

Section Bodies.
Context `{Host}.
Variable pct : value -> nat -> bool -> M acc.
Variable fr : value -> value -> M (option (list comment)).

Hypothesis fr_replies :
  forall e p w rs w', fr e p w = (Ret (Some rs), w') -> Forall (reply_of p) rs.

Lemma thread_root_is_root (tr : value) (w w' : World) (c : comment) :
  thread_root tr w = (Ret (Some c), w') ->
  isReply c = VBool false /\ parentId c = VUndef.
Proof.
  unfold thread_root. intros E. inv_ret.
  match goal with
  | H0 : option_map _ ?o = Some _ |- _ =>
      destruct o as [c0|]; [|discriminate]; cbn in H0; inversion H0; subst
  end.
  split; [reflexivity|]. cbn.
  assert (U : unlinked c0); [|now destruct U].
  case_ret; inv_ret.
  - eapply resolveComment_unlinked; eauto.
  - case_ret; inv_ret.
    + repeat match goal with
             | Hs : Some _ = Some _ |- _ => inversion Hs; subst; clear Hs
             end.
      eapply legacy_root_unlinked; eauto.
    + discriminate.
Qed.

Lemma sub_thread_step_keeps (root : option comment) (depth : nat)
    (parallel : bool) (a a' : acc) (sub : value) (w w' : World) :
  Forall well_linked (fst a) ->
  sub_thread_step pct fr root depth parallel a sub w = (Ret a', w') ->
  Forall well_linked (fst a').
Proof.
  intros Fa E. unfold sub_thread_step in E. inv_ret.
  split_if E.
  { inv_ret. cbn. apply Forall_app. split; [exact Fa|].
    constructor; [|constructor]. eapply reply_of_well_linked.
    eapply legacy_reply_reply_of; eauto. }
  split_if E.
  { eapply push_resolved_keeps; eauto using reply_of_well_linked. }
  split_if E.
  { apply try_catch_inv in E. destruct E as [E|(w1 & _ & E)]; inv_ret.
    - cbn. apply Forall_app. split; [exact Fa|].
      apply Forall_forall. intros c Hc. apply in_map_iff in Hc.
      destruct Hc as (t & <- & _). right. apply as_nested_is_reply.
    - exact Fa. }
  split_if E; [|inv_ret; exact Fa].
  split_if E; [|inv_ret; exact Fa].
  eapply on_token_keeps; eauto using reply_of_well_linked.
Qed.

Lemma view_replies_step_keeps (rr p : value) (parallel : bool) (a a' : acc)
    (w w' : World) :
  Forall well_linked (fst a) ->
  view_replies_step fr rr p parallel a w = (Ret a', w') ->
  Forall well_linked (fst a').
Proof.
  intros Fa E. unfold view_replies_step in E.
  split_if E; [|inv_ret; exact Fa].
  split_if E; [|inv_ret; exact Fa].
  eapply on_token_keeps; eauto using reply_of_well_linked.
Qed.

Lemma continuation_step_keeps (p : value) (parallel : bool) (a a' : acc)
    (cont : value) (w w' : World) :
  Forall well_linked (fst a) ->
  continuation_step fr p parallel a cont w = (Ret a', w') ->
  Forall well_linked (fst a').
Proof.
  intros Fa E. unfold continuation_step in E. inv_ret.
  split_if E; [|inv_ret; exact Fa].
  eapply on_token_keeps; eauto using reply_of_well_linked.
Qed.

Lemma contents_step_keeps (p : value) (a a' : acc) (item : value)
    (w w' : World) :
  Forall well_linked (fst a) ->
  contents_step fr p a item w = (Ret a', w') ->
  Forall well_linked (fst a').
Proof.
  intros Fa E. unfold contents_step in E. inv_ret.
  split_if E.
  { eapply push_resolved_keeps; eauto using reply_of_well_linked. }
  split_if E.
  { eapply push_resolved_keeps; eauto using reply_of_well_linked. }
  split_if E; [|inv_ret; exact Fa].
  split_if E; [|inv_ret; exact Fa].
  eapply push_fetched_keeps; eauto using reply_of_well_linked.
Qed.

Lemma processCommentThread_body_linked (tr : value) (depth : nat)
    (parallel : bool) (w w' : World) (a : acc) :
  processCommentThread_body pct fr tr depth parallel w = (Ret a, w') ->
  Forall well_linked (fst a).
Proof.
  unfold processCommentThread_body. intros E.
  case_ret; [inv_ret; constructor|].
  inv_ret.
  match goal with
  | Hr : thread_root _ _ = (Ret ?root, _) |- _ =>
      assert (R : Forall well_linked
                    (fst (match root with Some c => [c] | None => [] end,
                          @nil descriptor)))
  end.
  { cbn. destruct x as [c|]; [|constructor].
    constructor; [|constructor]. left. eapply thread_root_is_root; eauto. }
  case_ret; [|inv_ret; exact R].
  inv_ret.
  case_ret; [|inv_ret; exact R].
  inv_ret.
  match goal with
  | Hf : foldM (sub_thread_step _ _ _ _ _) _ _ _ = (Ret ?y, _) |- _ =>
      assert (F1 : Forall well_linked (fst y))
        by (eapply (foldM_inv (fun a => Forall well_linked (fst a)));
            [|exact R|exact Hf];
            intros; eapply sub_thread_step_keeps; eauto)
  end.
  match goal with
  | Hf : view_replies_step _ _ _ _ _ _ = (Ret ?y, _) |- _ =>
      assert (F2 : Forall well_linked (fst y))
        by (eapply view_replies_step_keeps; eauto)
  end.
  match goal with
  | Hf : (if truthy (prop "continuations" ?rr) then _ else _) _ = (Ret ?y, _)
    |- _ =>
      assert (F3 : Forall well_linked (fst y));
        [destruct (truthy (prop "continuations" rr)); inv_ret; [|exact F2]|]
  end.
  { match goal with
    | Hf : foldM _ _ _ _ = (Ret ?y, _) |- Forall _ (fst ?y) =>
        eapply (foldM_inv (fun a => Forall well_linked (fst a)));
          [|exact F2|exact Hf];
          intros; eapply continuation_step_keeps; eauto
    end. }
  match goal with
  | Hf : (if truthy (prop "contents" _) then _ else _) _ = (Ret _, _) |- _ =>
      destruct (truthy (prop "contents"
                  (opt_path ["commentRepliesRenderer"] (prop "replies" tr))));
      inv_ret; [|exact F3]
  end.
  match goal with
  | Hf : foldM _ _ _ _ = (Ret ?y, _) |- Forall _ (fst ?y) =>
      eapply (foldM_inv (fun a => Forall well_linked (fst a)));
        [|exact F3|exact Hf];
        intros; eapply contents_step_keeps; eauto
  end.
Qed.

Lemma reply_item_step_keeps (p : value) (collected collected' : list comment)
    (item : value) (w w' : World) :
  Forall (reply_of p) collected ->
  reply_item_step pct fr p collected item w = (Ret collected', w') ->
  Forall (reply_of p) collected'.
Proof.
  intros Fc E. unfold reply_item_step in E. inv_ret.
  assert (Hres : forall vv ww ww' cc,
             (r <- resolve_reply vv p ;;
              match r with
              | Some r => ret (collected ++ [r])
              | None => ret collected
              end) ww = (Ret cc, ww') ->
             Forall (reply_of p) cc).
  { intros vv ww ww' cc E'. inv_ret.
    match goal with
    | Hr : resolve_reply _ _ _ = (Ret ?o, _) |- _ => destruct o as [r|]
    end; inv_ret; [|exact Fc].
    apply Forall_app. split; [exact Fc|].
    constructor; [|constructor]. eapply resolve_reply_reply_of; eauto. }
  case_ret; [eapply Hres; eauto|].
  case_ret; [eapply Hres; eauto|].
  case_ret.
  { apply try_catch_inv in E. destruct E as [E|(w1 & _ & E)]; inv_ret.
    - apply Forall_app. split; [exact Fc|].
      apply Forall_forall. intros c Hc. apply in_map_iff in Hc.
      destruct Hc as (t & <- & _). apply as_reply_reply_of.
    - exact Fc. }
  case_ret; [|inv_ret; exact Fc].
  case_ret; [|inv_ret; exact Fc].
  inv_ret.
  match goal with
  | Hr : fr _ _ _ = (Ret ?o, _) |- _ => destruct o as [rs|]
  end; inv_ret; [|exact Fc].
  apply Forall_app. split; [exact Fc|]. eapply fr_replies; eauto.
Qed.

Lemma fetchReplies_body_replies (e p : value) (w w' : World)
    (rs : list comment) :
  fetchReplies_body pct fr e p w = (Ret (Some rs), w') ->
  Forall (reply_of p) rs.
Proof.
  unfold fetchReplies_body. intros E.
  apply try_catch_inv in E. destruct E as [E|(w1 & _ & E)];
    [|inv_ret; discriminate].
  inv_ret.
  case_ret; [inv_ret; discriminate|].
  inv_ret.
  case_ret; [inv_ret; discriminate|].
  inv_ret.
  case_ret; inv_ret.
  - match goal with Hs : Some _ = Some _ |- _ => inversion Hs; subst end.
    match goal with
    | Hf : foldM _ _ _ _ = (Ret ?y, _) |- Forall _ ?y =>
        eapply (foldM_inv (Forall (reply_of p))); [| |exact Hf];
          [intros; eapply reply_item_step_keeps; eauto|constructor]
    end.
  - match goal with Hs : Some _ = Some _ |- _ => inversion Hs; subst end.
    constructor.
Qed.

End Bodies.

Section Fuel.
Context `{Host}.

Lemma fuel_invariants (fuel : nat) :
  (forall tr d par w a w',
      processCommentThread fuel tr d par w = (Ret a, w') ->
      Forall well_linked (fst a)) /\
  (forall e p w rs w',
      fetchReplies fuel e p w = (Ret (Some rs), w') ->
      Forall (reply_of p) rs).
Proof.
  induction fuel as [|fuel [IHp IHf]].
  - split; intros; discriminate.
  - split.
    + intros tr d par w a w' E. cbn [processCommentThread] in E.
      eapply processCommentThread_body_linked; eauto.
    + intros e p w rs w' E. cbn [fetchReplies] in E.
      eapply fetchReplies_body_replies; eauto.
Qed.

End Fuel.

End ThreadFacts.

Module ThreadLinks.
Import Resolver Threads MainFetch Spec Samples MonadFacts ThreadFacts.







Section Bodies.
Context `{Host}.
Variable pct : value -> nat -> bool -> M acc.
Variable fr : value -> value -> M (option (list comment)).

Hypothesis fr_replies :
  forall e p w rs w', fr e p w = (Ret (Some rs), w') -> Forall (reply_of p) rs.









End Bodies.

Section Fuel.
Context `{Host}.



End Fuel.

End ThreadLinks.

Module ThreadClaims.
Import Resolver Threads MainFetch Spec Samples ThreadFacts ThreadLinks.




End ThreadClaims.

(** ** Durable sink *)

Module SinkFacts.
Import Sink Fallback Spec.

(** Induction on JSON values, through arrays and objects. *)
Lemma value_rect' (P : value -> Prop)
    (HUndef : P VUndef) (HNull : P VNull)
    (HBool : forall b, P (VBool b)) (HNum : forall z, P (VNum z))
    (HStr : forall s, P (VStr s))
    (HArr : forall items, Forall P items -> P (VArr items))
    (HObj : forall fields, P (VObj fields)) :
  forall v, P v.
Proof.
  exact (fix F (v : value) : P v :=
           match v with
           | VUndef => HUndef
           | VNull => HNull
           | VBool b => HBool b
           | VNum z => HNum z
           | VStr s => HStr s
           | VArr items =>
               HArr items
                    ((fix G (l : list value) : Forall P l :=
                        match l with
                        | [] => Forall_nil P
                        | x :: rest => Forall_cons x (F x) (G rest)
                        end) items)
           | VObj fields => HObj fields
           end).
Qed.

Lemma key_eqb_eq (a : value) : forall k, key_eqb a k = true -> a = k.
Proof.
  induction a as [| | | | |items IH|] using value_rect';
    intros k E; destruct k; cbn in E; try discriminate.
  - apply Z.eqb_eq in E. now subst.
  - apply String.eqb_eq in E. now subst.
  - f_equal. revert l E. induction IH as [|x xs Hx _ IHxs]; intros ys E.
    + destruct ys; [reflexivity|discriminate].
    + destruct ys as [|y ys]; [discriminate|].
      apply andb_true_iff in E. destruct E as [E1 E2].
      f_equal; [now apply Hx|now apply IHxs].
Qed.

Lemma key_eqb_refl (a : value) : valid_key a = true -> key_eqb a a = true.
Proof.
  induction a as [| | | | |items IH|] using value_rect';
    cbn; try discriminate; intros V.
  - apply Z.eqb_refl.
  - apply String.eqb_refl.
  - induction IH as [|x xs Hx _ IHxs]; [reflexivity|].
    cbn in V. apply andb_true_iff in V. destruct V as [V1 V2].
    now rewrite (Hx V1), (IHxs V2).
Qed.

Lemma lookup_put (s : store) (c : comment) (k : value) :
  lookup (put s c) k = if key_eqb (id c) k then Some c else lookup s k.
Proof.
  unfold lookup. induction s as [|c' rest IH]; cbn.
  - reflexivity.
  - destruct (key_eqb (id c') (id c)) eqn:E; cbn.
    + apply key_eqb_eq in E. rewrite E.
      destruct (key_eqb (id c) k); reflexivity.
    + rewrite IH. destruct (key_eqb (id c') k) eqn:E1; [|reflexivity].
      destruct (key_eqb (id c) k) eqn:E2; [|reflexivity].
      assert (H1 := key_eqb_eq _ _ E1). assert (H2 := key_eqb_eq _ _ E2).
      rewrite <- H2 in H1. rewrite H1 in E. rewrite H2 in E. congruence.
Qed.

Lemma in_put (s : store) (c x : comment) :
  In x (put s c) -> x = c \/ In x s.
Proof.
  induction s as [|c' rest IH]; cbn.
  - intros [->|[]]. now left.
  - destruct (key_eqb (id c') (id c)); cbn.
    + intros [->|Hin]; auto.
    + intros [->|Hin]; auto. destruct (IH Hin); auto.
Qed.

Lemma uniq_put (s : store) (c : comment) :
  uniq_ids s = true -> uniq_ids (put s c) = true.
Proof.
  induction s as [|c' rest IH]; cbn; intros U.
  - reflexivity.
  - apply andb_true_iff in U. destruct U as [U1 U2].
    destruct (key_eqb (id c') (id c)) eqn:E; cbn.
    + apply key_eqb_eq in E. rewrite <- E. now rewrite U1, U2.
    + rewrite (IH U2), andb_true_r. apply negb_true_iff.
      apply negb_true_iff in U1.
      destruct (existsb (fun x => key_eqb (id c') (id x)) (put rest c)) eqn:X;
        [|reflexivity].
      apply existsb_exists in X. destruct X as (x & Hin & Hx).
      destruct (in_put _ _ _ Hin) as [->|Hin'].
      * congruence.
      * assert (existsb (fun x => key_eqb (id c') (id x)) rest = true)
          by (apply existsb_exists; eauto).
        congruence.
Qed.

Lemma uniq_fold_put (ps : list comment) (s : store) :
  uniq_ids s = true -> uniq_ids (fold_left put ps s) = true.
Proof.
  revert s. induction ps as [|c rest IH]; intros s U; cbn; auto using uniq_put.
Qed.

Lemma in_fold_put (ps : list comment) (s : store) (x : comment) :
  In x (fold_left put ps s) -> In x ps \/ In x s.
Proof.
  revert s. induction ps as [|c rest IH]; intros s; cbn; auto.
  intros Hin. destruct (IH _ Hin) as [H1|H1]; auto.
  destruct (in_put _ _ _ H1); auto.
Qed.

Lemma lookup_fold_put_other (ps : list comment) (s : store) (k : value) :
  (forall c2, In c2 ps -> key_eqb (id c2) k = false) ->
  lookup (fold_left put ps s) k = lookup s k.
Proof.
  revert s. induction ps as [|c rest IH]; intros s Hno; cbn [fold_left]; auto.
  rewrite IH by (intros; apply Hno; now right).
  rewrite lookup_put, Hno; [reflexivity|now left].
Qed.

Lemma lookup_last_put (ps1 ps2 : list comment) (c : comment) (s : store) :
  valid_key (id c) = true ->
  (forall c2, In c2 ps2 -> key_eqb (id c2) (id c) = false) ->
  lookup (fold_left put (ps1 ++ c :: ps2) s) (id c) = Some c.
Proof.
  intros V Hno. rewrite fold_left_app. cbn [fold_left].
  rewrite lookup_fold_put_other by assumption.
  now rewrite lookup_put, key_eqb_refl.
Qed.

End SinkFacts.

Module SinkClaims.
Import Sink Fallback Spec Samples SinkFacts.

Lemma schedule_puts_keyed `{Host} (cs : list comment) :
  forall done rnd,
    Forall keyed done -> Forall keyed (puts (schedule_puts cs done rnd)).
Proof.
  induction cs as [|c rest IH]; intros done rnd Fd; cbn.
  - exact Fd.
  - destruct (truthy (id c)) eqn:T.
    + destruct (valid_key (id c)) eqn:V; cbn; [|exact Fd].
      apply IH. apply Forall_app. split; [exact Fd|].
      constructor; [|constructor]. split; [exact V|now left].
    + cbn. apply IH. apply Forall_app. split; [exact Fd|].
      constructor; [|constructor]. split; [reflexivity|].
      right. now exists rnd.
Qed.

(** The puts already requested are kept, and do not influence the
    rest. *)
Lemma schedule_puts_acc `{Host} (cs : list comment) :
  forall done rnd,
    puts (schedule_puts cs done rnd) = done ++ puts (schedule_puts cs [] rnd) /\
    threw (schedule_puts cs done rnd) = threw (schedule_puts cs [] rnd) /\
    rand (schedule_puts cs done rnd) = rand (schedule_puts cs [] rnd).
Proof.
  induction cs as [|c rest IH]; intros done rnd; cbn [schedule_puts].
  - cbn. now rewrite app_nil_r.
  - destruct (valid_key _); [|cbn; now rewrite app_nil_r].
    destruct (IH (done ++ [if truthy (id c) then c
                           else set_id c (VStr (random_id rnd))])
                 (if truthy (id c) then rnd else S rnd)) as (P1 & T1 & R1).
    destruct (IH ([] ++ [if truthy (id c) then c
                         else set_id c (VStr (random_id rnd))])
                 (if truthy (id c) then rnd else S rnd)) as (P2 & T2 & R2).
    rewrite P1, T1, R1, P2, T2, R2, <- app_assoc. auto.
Qed.

(** The i-th put of a batch write is the i-th record of the batch, under
    its own id when it has one and under the next string drawn when it
    has none. *)
Lemma saveCommentBatch_nth `{Host} (cs : list comment) :
  forall rnd i c',
    nth_error (puts (saveCommentBatch cs rnd)) i = Some c' ->
    exists c,
      nth_error cs i = Some c /\
      c' = (if truthy (id c) then c
            else set_id c (VStr (random_id (rnd + idless (firstn i cs))))) /\
      valid_key (id c') = true.
Proof.
  unfold saveCommentBatch.
  induction cs as [|c rest IH]; intros rnd i c' E; cbn [schedule_puts] in E.
  - destruct i; discriminate.
  - destruct (valid_key (id (if truthy (id c) then c
                             else set_id c (VStr (random_id rnd))))) eqn:V;
      [|destruct i; discriminate].
    destruct (schedule_puts_acc rest
                ([] ++ [if truthy (id c) then c
                        else set_id c (VStr (random_id rnd))])
                (if truthy (id c) then rnd else S rnd)) as (P & _).
    rewrite P in E. destruct i as [|i]; cbn in E.
    + inversion E. subst c'. exists c. split; [reflexivity|].
      unfold idless. cbn. rewrite Nat.add_0_r. split; [reflexivity|exact V].
    + destruct (IH _ _ _ E) as (c0 & N & A & V0). exists c0.
      split; [exact N|]. split; [|exact V0]. rewrite A.
      unfold idless. cbn [firstn filter].
      destruct (truthy (id c)); cbn [negb List.length]; [reflexivity|].
      now rewrite Nat.add_succ_r.
Qed.

(** A batch whose records the store accepts is put whole, one string
    being drawn for each record that lacks an id. *)
Lemma saveCommentBatch_whole `{Host} (cs : list comment) :
  Forall (fun c => storable c = true) cs ->
  forall rnd,
    threw (saveCommentBatch cs rnd) = false /\
    List.length (puts (saveCommentBatch cs rnd)) = List.length cs /\
    rand (saveCommentBatch cs rnd) = (rnd + idless cs)%nat.
Proof.
  unfold saveCommentBatch.
  induction 1 as [|c rest Hc _ IH]; intros rnd; cbn [schedule_puts].
  - unfold idless. cbn. auto.
  - unfold storable in Hc. unfold idless. cbn [filter].
    assert (V : valid_key (id (if truthy (id c) then c
                               else set_id c (VStr (random_id rnd)))) = true).
    { destruct (truthy (id c)); cbn in *; auto. }
    rewrite V.
    destruct (schedule_puts_acc rest
                ([] ++ [if truthy (id c) then c
                        else set_id c (VStr (random_id rnd))])
                (if truthy (id c) then rnd else S rnd)) as (P & T & R).
    rewrite P, T, R.
    destruct (IH (if truthy (id c) then rnd else S rnd)) as (I1 & I2 & I3).
    rewrite I1, I3, length_app, I2. unfold idless.
    destruct (truthy (id c)); cbn; repeat split; lia.
Qed.

Lemma run_writes_puts (txs : list (list comment * tx_outcome)) (s : store) :
  run_writes txs s
  = fold_left put
      (flat_map (fun t => match snd t with
                          | TxComplete => fst t
                          | TxError => []
                          end) txs) s.
Proof.
  unfold run_writes. revert s.
  induction txs as [|[ps o] rest IH]; intros s; cbn; [reflexivity|].
  rewrite IH. unfold commit. cbn. destruct o; cbn.
  - now rewrite fold_left_app.
  - reflexivity.
Qed.

Lemma final_store_puts `{Host} (h : history) :
  final_store h = fold_left put (applied_puts h) [].
Proof.
  unfold final_store, applied_puts, clearCommentStore.
  rewrite run_writes_puts. f_equal.
  induction (schedule_all h 0) as [|[sc o] rest IH]; cbn; [reflexivity|].
  now rewrite IH.
Qed.

Lemma applied_puts_keyed `{Host} (h : history) :
  Forall keyed (applied_puts h).
Proof.
  unfold applied_puts. generalize 0%nat as rnd.
  induction h as [|[cs o] rest IH]; intros rnd; cbn; [constructor|].
  apply Forall_app. split; [|apply IH].
  destruct o; [|constructor].
  apply schedule_puts_keyed. constructor.
Qed.

(** C10 (as amended).  The sink keys the store by record identity and
    upserts.  The i-th record a batch write puts is the i-th record of
    the batch, under its own id when it has one and, when it lacks one,
    under the string drawn for it, successive records that lack an id
    taking successive draws; its id is a valid key.  A batch whose
    records the store accepts is put whole.  Every record of the final
    snapshot has a valid key that is not empty or is a string that was
    drawn; no two records of the snapshot share an id; and for each id,
    the record read back is the last one put under it by a completed
    write. *)
Theorem sink_keyed_by_id `{Host} (h : history) :
  (forall cs rnd i c',
      nth_error (puts (saveCommentBatch cs rnd)) i = Some c' ->
      exists c,
        nth_error cs i = Some c /\
        c' = (if truthy (id c) then c
              else set_id c (VStr (random_id (rnd + idless (firstn i cs))))) /\
        valid_key (id c') = true) /\
  (forall cs rnd,
      Forall (fun c => storable c = true) cs ->
      threw (saveCommentBatch cs rnd) = false /\
      List.length (puts (saveCommentBatch cs rnd)) = List.length cs /\
      rand (saveCommentBatch cs rnd) = (rnd + idless cs)%nat) /\
  (forall c,
      In c (getAllComments (final_store h)) ->
      valid_key (id c) = true /\
      (truthy (id c) = true \/ exists n, id c = VStr (random_id n))) /\
  uniq_ids (getAllComments (final_store h)) = true /\
  (forall ps1 c ps2,
      applied_puts h = ps1 ++ c :: ps2 ->
      (forall c2, In c2 ps2 -> key_eqb (id c2) (id c) = false) ->
      lookup (getAllComments (final_store h)) (id c) = Some c).
Proof.
  split; [|split; [|split; [|split]]].
  - intros cs. apply saveCommentBatch_nth.
  - intros cs rnd F. now apply saveCommentBatch_whole.
  - intros c Hin. unfold getAllComments in Hin.
    rewrite final_store_puts in Hin.
    destruct (in_fold_put _ _ _ Hin) as [Hp|[]].
    assert (F := applied_puts_keyed h).
    rewrite Forall_forall in F. now apply F.
  - unfold getAllComments. rewrite final_store_puts.
    now apply uniq_fold_put.
  - intros ps1 c ps2 E Hno. unfold getAllComments.
    rewrite final_store_puts, E. apply lookup_last_put; [|exact Hno].
    assert (F := applied_puts_keyed h). rewrite E in F.
    apply Forall_app in F. destruct F as [_ F]. inversion F as [|? ? K _].
    apply K.
Qed.

(** On the sample history the record ["x"] read back is the second one,
    the snapshot holds one record per id, and the record without an id
    is stored under the first string drawn. *)
Lemma sink_keyed_by_id_witness :
  lookup (getAllComments (final_store sample_history)) (VStr "x")
    = Some (record (VStr "x") "second") /\
  uniq_ids (getAllComments (final_store sample_history)) = true /\
  map id (getAllComments (final_store sample_history))
    = [VStr "x"; VStr (random_id 0)].
Proof.
  destruct (sink_keyed_by_id sample_history) as (_ & _ & _ & U & L).
  split; [|split; [exact U|reflexivity]].
  apply (L [record (VStr "x") "first"; record (VStr "r0") "anonymous"]
           (record (VStr "x") "second") []).
  - reflexivity.
  - intros c2 [].
Defined.

(** C10, as stated, fails: the string drawn for a record that lacks an
    id is not checked.  On the sample host it is the id of a record the
    store holds already, which the write replaces: of the two records
    written only one is read back.  And on a host whose [Math.random()]
    returns 0 the string drawn is empty, and the record is stored under
    the empty id. *)
Lemma random_id_not_fresh :
  let named := record (VStr "r0") "named" in
  let anonymous := record (VStr EmptyString) "anonymous" in
  puts (saveCommentBatch [anonymous] 0) = [set_id anonymous (VStr "r0")] /\
  getAllComments (final_store [([named], TxComplete);
                               ([anonymous], TxComplete)])
    = [set_id anonymous (VStr "r0")] /\
  map id (getAllComments
            (@final_store zero_host [([anonymous], TxComplete)]))
    = [VStr EmptyString].
Proof. repeat split; reflexivity. Qed.

End SinkClaims.

(** ** The completion barrier *)

Module BarrierFacts.
Import Sink Fallback Spec.

Lemma update_nth_map_seq (g : promise_state -> promise_state)
    (h : nat -> promise_state) (K : nat) :
  forall a i,
    update_nth i g (map h (seq a K))
    = map (fun j => if Nat.eqb j (a + i) then g (h j) else h j) (seq a K).
Proof.
  induction K as [|K IH]; intros a i; destruct i as [|i]; cbn;
    try reflexivity.
  - replace (a + 0)%nat with a by lia. rewrite Nat.eqb_refl. f_equal.
    apply map_ext_in. intros j Hj. apply in_seq in Hj.
    destruct (Nat.eqb_spec j a); [lia|reflexivity].
  - destruct (Nat.eqb_spec a (a + S i)); [lia|]. f_equal.
    rewrite IH. apply map_ext. intros j.
    replace (S a + i)%nat with (a + S i)%nat by lia. reflexivity.
Qed.

Lemma run_handles_pending (K : nat) (trace : list tx_event) :
  forall f : nat -> bool,
    run_handles (map (fun i => handle_state (f i)) (seq 0 K)) trace
    = map (fun i => handle_state (orb (f i) (fired i trace))) (seq 0 K).
Proof.
  unfold run_handles.
  induction trace as [|e rest IH]; intros f; cbn [fold_left].
  - apply map_ext. intros i. cbn. now rewrite orb_false_r.
  - unfold step_handles at 2. rewrite update_nth_map_seq. cbn [Nat.add].
    rewrite (map_ext _ (fun i => handle_state (orb (f i) (Nat.eqb (fst e) i)))).
    + rewrite IH. apply map_ext. intros i. cbn [fired existsb].
      now rewrite orb_assoc.
    + intros j. rewrite (Nat.eqb_sym (fst e) j).
      destruct (Nat.eqb j (fst e)); [|now rewrite orb_false_r].
      rewrite orb_true_r. unfold handle_state, on_tx_event.
      now destruct (f j).
Qed.

Lemma schedule_puts_no_throw `{Host} (cs : list comment) :
  Forall (fun c => storable c = true) cs ->
  forall done rnd, threw (schedule_puts cs done rnd) = false.
Proof.
  induction 1 as [|c rest Hc _ IH]; intros done rnd; cbn; [reflexivity|].
  unfold storable in Hc.
  destruct (truthy (id c)) eqn:T; cbn in Hc.
  - rewrite Hc. apply IH.
  - cbn. apply IH.
Qed.

Lemma scheduled_handles_pending `{Host} (batches : list (list comment)) :
  Forall (Forall (fun c => storable c = true)) batches ->
  forall rnd,
    map handle_of (schedule_batches batches rnd)
    = map (fun i => handle_state false) (seq 0 (List.length batches)).
Proof.
  induction 1 as [|cs rest Hcs _ IH]; intros rnd; cbn; [reflexivity|].
  rewrite IH. unfold handle_of, saveCommentBatch.
  rewrite (schedule_puts_no_throw cs Hcs). cbn. f_equal.
  rewrite <- seq_shift, map_map. reflexivity.
Qed.

Lemma promise_all_of_states (K : nat) (ended : nat -> bool) :
  promise_all (map (fun i => handle_state (ended i)) (seq 0 K))
  = handle_state (forallb ended (seq 0 K)).
Proof.
  unfold promise_all.
  replace (existsb _ (map (fun i => handle_state (ended i)) (seq 0 K)))
    with false.
  - assert (E : forallb (fun h => match h with Resolved => true | _ => false end)
                        (map (fun i => handle_state (ended i)) (seq 0 K))
                = forallb ended (seq 0 K)).
    { induction (seq 0 K) as [|i rest IH]; cbn; [reflexivity|].
      rewrite IH. unfold handle_state. now destruct (ended i). }
    rewrite E. unfold handle_state. now destruct (forallb ended (seq 0 K)).
  - symmetry. induction (seq 0 K) as [|i rest IH]; cbn; [reflexivity|].
    rewrite IH. unfold handle_state. now destruct (ended i).
Qed.

Lemma schedule_puts_throws `{Host} (cs : list comment) :
  forall done rnd,
    existsb (fun c => negb (storable c)) cs = true ->
    threw (schedule_puts cs done rnd) = true.
Proof.
  induction cs as [|c rest IH]; intros done rnd E; cbn in E; [discriminate|].
  cbn [schedule_puts]. unfold storable in E.
  destruct (truthy (id c)) eqn:T; cbn [negb orb] in E.
  - destruct (valid_key (id c)) eqn:V; cbn [negb orb] in E; [|reflexivity].
    now apply IH.
  - cbn. now apply IH.
Qed.

Lemma schedule_all_throws `{Host} (h : history) :
  forall rnd,
    existsb (fun co => existsb (fun c => negb (storable c)) (fst co)) h = true ->
    existsb (fun so => threw (fst so)) (schedule_all h rnd) = true.
Proof.
  induction h as [|[cs o] rest IH]; intros rnd E; cbn in E; [discriminate|].
  cbn [schedule_all existsb fst].
  apply orb_true_iff in E. apply orb_true_iff. destruct E as [E|E].
  - left. unfold saveCommentBatch. now apply schedule_puts_throws.
  - right. now apply IH.
Qed.

Lemma schedule_all_no_throw `{Host} (h : history) :
  Forall (fun co => Forall (fun c => storable c = true) (fst co)) h ->
  forall rnd, existsb (fun so => threw (fst so)) (schedule_all h rnd) = false.
Proof.
  induction 1 as [|[cs o] rest Hcs _ IH]; intros rnd; cbn; [reflexivity|].
  unfold saveCommentBatch at 1. rewrite (schedule_puts_no_throw cs Hcs).
  apply IH.
Qed.

(** A rejected handle stays rejected, whatever its transaction does. *)
Lemma rejected_stays (trace : list tx_event) :
  forall hs,
    existsb is_rejected hs = true ->
    existsb is_rejected (run_handles hs trace) = true.
Proof.
  unfold run_handles.
  induction trace as [|e rest IH]; intros hs E; cbn [fold_left]; [exact E|].
  apply IH. unfold step_handles. generalize (fst e) as i.
  induction hs as [|h hs' IHh]; intros i; [discriminate|].
  cbn [existsb] in E. apply orb_true_iff in E.
  destruct i as [|i]; cbn [update_nth existsb]; apply orb_true_iff.
  - destruct E as [E|E]; [left|now right].
    destruct h; try discriminate. reflexivity.
  - destruct E as [E|E]; [now left|right]. now apply IHh.
Qed.

Lemma scheduled_handle_rejected `{Host} (batches : list (list comment)) :
  forall rnd,
    existsb (existsb (fun c => negb (storable c))) batches = true ->
    existsb is_rejected (map handle_of (schedule_batches batches rnd)) = true.
Proof.
  induction batches as [|cs rest IH]; intros rnd E; [discriminate|].
  cbn [existsb] in E. cbn [schedule_batches map existsb].
  apply orb_true_iff in E. apply orb_true_iff. destruct E as [E|E].
  - left. unfold handle_of, saveCommentBatch.
    now rewrite (schedule_puts_throws cs [] rnd E).
  - right. now apply IH.
Qed.

End BarrierFacts.

Module BarrierClaims.
Import Sink Fallback Spec Samples BarrierFacts.

(** C6 (as amended).  For any number of scheduled writes and any order
    in which their transactions end.  When the store accepts every record
    (its id is missing or a valid key), the barrier
    [Promise.all(pendingWrites)] is resolved exactly when the transaction
    of every write has ended, whether it completed or failed; it is never
    rejected; when it is resolved every handle has settled; and whichever
    way the transactions end, the harvest goes on to the final read of
    the store.  When a record has an id the store refuses, [put] raises,
    the handle of that write is rejected at once, and so is the
    barrier. *)
Theorem write_barrier_resolves_when_all_settled `{Host}
    (batches : list (list comment)) (trace : list tx_event) :
  let hs := run_handles (map handle_of (schedule_batches batches 0)) trace in
  (Forall (Forall (fun c => storable c = true)) batches ->
   (promise_all hs = Resolved <->
    forall i, (i < List.length batches)%nat -> fired i trace = true) /\
   promise_all hs <> Rejected /\
   (promise_all hs = Resolved -> Forall (fun h => settled h = true) hs) /\
   (forall outcomes domThreads,
       drain (combine batches outcomes) domThreads
       = finish (getAllComments (final_store (combine batches outcomes)))
                domThreads (rand_after (combine batches outcomes) 0))) /\
  (existsb (existsb (fun c => negb (storable c))) batches = true ->
   promise_all hs = Rejected).
Proof.
  intros hs. subst hs. split.
  - intros Hst.
    rewrite (scheduled_handles_pending batches Hst 0).
    rewrite run_handles_pending. cbn [orb].
    rewrite promise_all_of_states.
    split; [|split; [|split]].
    + unfold handle_state.
      destruct (forallb (fun i => fired i trace)
                        (seq 0 (List.length batches))) eqn:F.
      * split; [|reflexivity]. intros _ i Hi.
        rewrite forallb_forall in F. apply F. apply in_seq. lia.
      * split; [discriminate|]. intros Hall.
        assert (forallb (fun i => fired i trace)
                        (seq 0 (List.length batches)) = true).
        { apply forallb_forall. intros i Hi. apply Hall.
          apply in_seq in Hi. lia. }
        congruence.
    + unfold handle_state. destruct (forallb _ _); discriminate.
    + unfold handle_state.
      destruct (forallb (fun i => fired i trace)
                        (seq 0 (List.length batches))) eqn:F; [|discriminate].
      intros _. apply Forall_forall. intros h Hin.
      apply in_map_iff in Hin. destruct Hin as (i & <- & Hi).
      rewrite forallb_forall in F. now rewrite (F i Hi).
    + intros outcomes domThreads. unfold drain.
      rewrite schedule_all_no_throw; [reflexivity|].
      apply Forall_forall. intros [cs o] Hin. cbn [fst].
      apply in_combine_l in Hin. rewrite Forall_forall in Hst. now apply Hst.
  - intros E. unfold promise_all.
    change (fun h => match h with Rejected => true | _ => false end)
      with is_rejected.
    rewrite rejected_stays; [reflexivity|].
    now apply scheduled_handle_rejected.
Qed.

(** Three writes whose transactions end out of order, one with an
    error: the barrier is resolved at the end of the trace, and is still
    pending one event earlier. *)
Lemma write_barrier_resolves_when_all_settled_witness :
  promise_all (run_handles (map handle_of (schedule_batches sample_batches 0))
                           sample_trace) = Resolved /\
  promise_all (run_handles (map handle_of (schedule_batches sample_batches 0))
                           (removelast sample_trace)) = Pending.
Proof.
  split; [|reflexivity].
  apply (proj1 (write_barrier_resolves_when_all_settled
                  sample_batches sample_trace)).
  - repeat constructor.
  - intros i Hi. cbn in Hi.
    destruct i as [|[|[|i]]]; [reflexivity|reflexivity|reflexivity|lia].
Defined.

(** C6, as stated, fails: the second of two writes holds a record whose
    id is [true], which is no valid key.  Its handle is rejected as soon
    as it is created, the barrier is rejected whatever the transactions
    do, and the harvest is aborted: [extractComments] returns [null]
    although the first write has stored a record. *)
Lemma persistence_error_aborts_harvest :
  let good := record (VStr "a") "one" in
  let bad := record (VBool true) "two" in
  map handle_of (schedule_batches [[good]; [bad]] 0) = [Pending; Rejected] /\
  (forall trace,
      promise_all (run_handles (map handle_of (schedule_batches [[good]; [bad]] 0))
                               trace) = Rejected) /\
  getAllComments (final_store [([good], TxComplete); ([bad], TxComplete)])
    = [good] /\
  returned (drain [([good], TxComplete); ([bad], TxComplete)] rendered_threads)
    = None.
Proof.
  cbv zeta. split; [reflexivity|]. split; [|split; reflexivity].
  intros trace. unfold promise_all.
  change (fun h => match h with Rejected => true | _ => false end)
    with is_rejected.
  now rewrite rejected_stays.
Qed.

End BarrierClaims.

(** ** Reply queue *)

Module QueueFacts.
Import SimpleQueue Spec.

Lemma queue_inv_create (c : nat) : queue_inv (create c).
Proof.
  unfold queue_inv, create; cbn. repeat split.
  - constructor.
  - intros t [].
  - intros t Ht. lia.
Qed.

Lemma queue_inv_process (q : t) : queue_inv q -> queue_inv (process q).
Proof.
  intros I. assert (I0 := I). destruct I as (R & ND & LT & COV).
  unfold process.
  destruct (orb _ _); [exact I0|].
  destruct (queue q) as [|fn rest] eqn:Q; [exact I0|].
  unfold queue_inv; cbn. repeat split.
  - rewrite R, length_app. cbn. lia.
  - rewrite app_assoc.
    apply (Permutation_NoDup (Permutation_cons_append (rest ++ started q) fn)).
    exact ND.
  - intros t Hin. apply LT. cbn.
    apply in_app_or in Hin. destruct Hin as [Hin|Hin].
    + right. apply in_or_app. now left.
    + apply in_app_or in Hin. destruct Hin as [Hin|[<-|[]]].
      * right. apply in_or_app. now right.
      * now left.
  - intros t Ht. destruct (COV t Ht) as [[<-|Hin]|[Hin|Hin]].
    + right. left. apply in_or_app. right. now left.
    + now left.
    + right. left. apply in_or_app. now left.
    + right. now right.
Qed.

Lemma queue_inv_add (q : t) : queue_inv q -> queue_inv (add q).
Proof.
  intros (R & ND & LT & COV). unfold add. apply queue_inv_process.
  unfold queue_inv; cbn. repeat split.
  - exact R.
  - rewrite <- app_assoc. cbn.
    apply (Permutation_NoDup (Permutation_middle (queue q) (started q) (next q))).
    constructor; [|exact ND].
    intros Hin. assert (next q < next q)%nat; [|lia]. now apply LT.
  - intros t Hin. rewrite <- app_assoc in Hin.
    apply in_app_or in Hin. destruct Hin as [Hin|Hin].
    + assert (t < next q)%nat; [|lia]. apply LT. apply in_or_app. now left.
    + cbn in Hin. destruct Hin as [<-|Hin]; [lia|].
      assert (t < next q)%nat; [|lia]. apply LT. apply in_or_app. now right.
  - intros t Ht. destruct (Nat.eq_dec t (next q)) as [->|Hne].
    + left. apply in_or_app. right. now left.
    + assert (Ht' : (t < next q)%nat) by lia.
      destruct (COV t Ht') as [Hin|Hin]; [|now right].
      left. apply in_or_app. now left.
Qed.

Lemma remove_length (fn : task) (xs : list task) :
  NoDup xs -> In fn xs -> S (List.length (remove fn xs)) = List.length xs.
Proof.
  unfold remove. induction xs as [|x rest IH]; intros ND Hin; [destruct Hin|].
  apply NoDup_cons_iff in ND. destruct ND as [Hnot ND]. cbn.
  destruct (Nat.eqb_spec fn x) as [->|Hne]; cbn.
  - f_equal. clear IH Hin ND.
    induction rest as [|y rest IH]; [reflexivity|]. cbn.
    destruct (Nat.eqb_spec x y) as [->|Hne].
    + exfalso. apply Hnot. now left.
    + cbn. f_equal. apply IH. intros Hin. apply Hnot. now right.
  - f_equal. apply IH; [exact ND|]. destruct Hin as [->|Hin]; [congruence|exact Hin].
Qed.

Lemma in_remove (fn x : task) (xs : list task) :
  In x (remove fn xs) <-> In x xs /\ x <> fn.
Proof.
  unfold remove. rewrite filter_In. split.
  - intros [Hin Hb]. split; [exact Hin|]. intros ->.
    now rewrite Nat.eqb_refl in Hb.
  - intros [Hin Hne]. split; [exact Hin|].
    destruct (Nat.eqb_spec fn x); [congruence|reflexivity].
Qed.

Lemma NoDup_app_remove (fn : task) (xs l : list task) :
  NoDup (xs ++ l) -> NoDup (xs ++ remove fn l).
Proof.
  induction xs as [|x rest IH]; cbn; intros N.
  - unfold remove. now apply NoDup_filter.
  - apply NoDup_cons_iff in N. destruct N as [Hnot N].
    constructor; [|now apply IH].
    intros Hx. apply Hnot. apply in_app_or in Hx. apply in_or_app.
    destruct Hx as [Hx|Hx]; [now left|].
    right. now apply in_remove in Hx.
Qed.

Lemma queue_inv_settle (q : t) (fn : task) : queue_inv q -> queue_inv (settle q fn).
Proof.
  intros I. assert (I0 := I). destruct I as (R & ND & LT & COV).
  unfold settle.
  destruct (existsb (Nat.eqb fn) (started q)) eqn:X; [|exact I0].
  apply existsb_exists in X. destruct X as (y & Hin & Hy).
  apply Nat.eqb_eq in Hy. subst y.
  apply queue_inv_process. unfold queue_inv; cbn. repeat split.
  - assert (NDs : NoDup (started q)) by (now apply NoDup_app_remove_l in ND).
    pose proof (remove_length fn (started q) NDs Hin). lia.
  - now apply NoDup_app_remove.
  - intros t Hin'. apply LT. apply in_app_or in Hin'. apply in_or_app.
    destruct Hin' as [H1|H1]; [now left|].
    right. now apply in_remove in H1.
  - intros t Ht. destruct (COV t Ht) as [H1|[H1|H1]].
    + now left.
    + destruct (Nat.eq_dec t fn) as [->|Hne].
      * right. right. apply in_or_app. right. now left.
      * right. left. apply in_remove. now split.
    + right. right. apply in_or_app. now left.
Qed.

Lemma queue_inv_waiter (q : t) (w : waiter) :
  queue_inv q -> queue_inv (with_waiter q w).
Proof. intros I. exact I. Qed.

Lemma queue_inv_step (q : t) (e : event) : queue_inv q -> queue_inv (step q e).
Proof.
  intros I. destruct e; cbn.
  - now apply queue_inv_add.
  - now apply queue_inv_settle.
  - unfold onIdle. destruct (idle_waiter q); auto.
  - unfold poll. destruct (idle_waiter q); auto.
Qed.

Lemma queue_inv_run (trace : list event) :
  forall q, queue_inv q -> queue_inv (run q trace).
Proof.
  unfold run. induction trace as [|e rest IH]; intros q I; cbn; auto.
  apply IH. now apply queue_inv_step.
Qed.

(** An idle queue has settled every task it was given. *)
Lemma idle_settled (q : t) :
  queue_inv q -> is_idle q = true ->
  running q = 0%nat /\ queue q = [] /\ settled_below (next q) q.
Proof.
  intros (R & ND & LT & COV) I. unfold is_idle in I.
  apply andb_true_iff in I. destruct I as [I1 I2].
  apply Nat.eqb_eq in I1. apply Nat.eqb_eq in I2.
  assert (Q : queue q = []) by (now apply length_zero_iff_nil).
  assert (S : started q = [])
    by (apply length_zero_iff_nil; now rewrite <- R).
  repeat split; auto.
  intros t Ht. destruct (COV t Ht) as [H1|[H1|H1]]; auto.
  - rewrite Q in H1. destruct H1.
  - rewrite S in H1. destruct H1.
Qed.

(** The bookkeeping of the other operations. *)
Lemma process_fields (q : t) :
  next (process q) = next q /\ finished (process q) = finished q /\
  idle_waiter (process q) = idle_waiter q.
Proof.
  unfold process. destruct (orb _ _); [now repeat split|].
  destruct (queue q); now repeat split.
Qed.

Lemma add_fields (q : t) :
  next (add q) = S (next q) /\ finished (add q) = finished q /\
  idle_waiter (add q) = idle_waiter q.
Proof.
  unfold add.
  destruct (process_fields
              (mk (concurrency q) (running q) (queue q ++ [next q])
                  (S (next q)) (started q) (finished q) (idle_waiter q)))
    as (A & B & C).
  now rewrite A, B, C.
Qed.

Lemma settle_fields (q : t) (fn : task) :
  next (settle q fn) = next q /\
  (forall t, In t (finished q) -> In t (finished (settle q fn))) /\
  idle_waiter (settle q fn) = idle_waiter q.
Proof.
  unfold settle. destruct (existsb _ _); [|now repeat split].
  destruct (process_fields
              (mk (concurrency q) (running q - 1) (queue q) (next q)
                  (remove fn (started q)) (finished q ++ [fn]) (idle_waiter q)))
    as (A & B & C).
  rewrite A, B, C. cbn. repeat split.
  intros t Hin. apply in_or_app. now left.
Qed.

Lemma step_monotone (q : t) (e : event) :
  (next q <= next (step q e))%nat /\
  (forall t, In t (finished q) -> In t (finished (step q e))).
Proof.
  destruct e; cbn.
  - destruct (add_fields q) as (A & B & _). rewrite A, B. split; [lia|auto].
  - destruct (settle_fields q t0) as (A & B & _). rewrite A. split; [lia|auto].
  - unfold onIdle. destruct (idle_waiter q); cbn; split; auto.
  - unfold poll. destruct (idle_waiter q); cbn; split; auto.
Qed.

Lemma run_monotone (trace : list event) :
  forall q,
    (next q <= next (run q trace))%nat /\
    (forall t, In t (finished q) -> In t (finished (run q trace))).
Proof.
  unfold run. induction trace as [|e rest IH]; intros q; cbn; [split; auto|].
  destruct (step_monotone q e) as [A B]. destruct (IH (step q e)) as [C D].
  split; [lia|auto].
Qed.

(** The waiter becomes [Done] only at a check that finds the queue idle. *)
Lemma becomes_done (q : t) (e : event) :
  idle_waiter q <> Done -> idle_waiter (step q e) = Done ->
  is_idle (step q e) = true.
Proof.
  intros N D. destruct e; cbn in *.
  - destruct (add_fields q) as (_ & _ & C). congruence.
  - destruct (settle_fields q t0) as (_ & _ & C). congruence.
  - unfold onIdle in *. destruct (idle_waiter q) eqn:W; try congruence.
    unfold check in *. cbn in *. destruct (is_idle q) eqn:I; [|discriminate].
    exact I.
  - unfold poll in *. destruct (idle_waiter q) eqn:W; try congruence.
    unfold check in *. cbn in *. destruct (is_idle q) eqn:I; [|discriminate].
    exact I.
Qed.

Lemma stays_called (q : t) (e : event) :
  idle_waiter q = Waiting ->
  idle_waiter (step q e) = Waiting \/ idle_waiter (step q e) = Done.
Proof.
  intros W. destruct e; cbn.
  - destruct (add_fields q) as (_ & _ & C). left. congruence.
  - destruct (settle_fields q t0) as (_ & _ & C). left. congruence.
  - unfold onIdle. rewrite W. now left.
  - unfold poll. rewrite W. unfold check. cbn. destruct (is_idle q); auto.
Qed.

(** Once [onIdle] is waiting, it resolves only after every task added up
    to now has settled. *)
Lemma waiting_until_settled (trace : list event) :
  forall q,
    queue_inv q -> idle_waiter q = Waiting ->
    idle_waiter (run q trace) = Done ->
    settled_below (next q) (run q trace).
Proof.
  induction trace as [|e rest IH]; intros q I W D.
  - cbn in D. congruence.
  - change (run q (e :: rest)) with (run (step q e) rest) in *.
    assert (I' := queue_inv_step q e I).
    destruct (step_monotone q e) as [Hn Hf].
    destruct (stays_called q e W) as [W'|D'].
    + intros t Ht. apply (IH (step q e) I' W' D). lia.
    + assert (Hidle : is_idle (step q e) = true)
        by (apply becomes_done; congruence).
      destruct (idle_settled _ I' Hidle) as (_ & _ & S).
      intros t Ht. apply (run_monotone rest (step q e)). apply S. lia.
Qed.

Lemma all_settled_spec (n : nat) (q : t) :
  all_settled n q = true <-> settled_below n q.
Proof.
  unfold all_settled, settled_below. rewrite forallb_forall. split.
  - intros Hall t Ht. assert (Hin : In t (seq 0 n)) by (apply in_seq; lia).
    apply Hall in Hin. apply existsb_exists in Hin.
    destruct Hin as (y & Hy & E). apply Nat.eqb_eq in E. now subst.
  - intros Hall t Hin. apply in_seq in Hin. apply existsb_exists.
    exists t. split; [apply Hall; lia|apply Nat.eqb_refl].
Qed.

End QueueFacts.

Module QueueClaims.
Import SimpleQueue Spec Samples QueueFacts.

Lemma run_app (q : t) (a b : list event) :
  run q (a ++ b) = run (run q a) b.
Proof. unfold run. apply fold_left_app. Qed.

Lemma run_cons (q : t) (e : event) (rest : list event) :
  run q (e :: rest) = run (step q e) rest.
Proof. reflexivity. Qed.

Lemma run_nil (q : t) : run q [] = q.
Proof. reflexivity. Qed.

Lemma add_keeps (q : t) (n : nat) :
  queue_inv q /\ next q = n /\ finished q = [] /\ idle_waiter q = NotCalled ->
  queue_inv (add q) /\ next (add q) = S n /\ finished (add q) = [] /\
  idle_waiter (add q) = NotCalled.
Proof.
  intros (I & N & F & W). destruct (add_fields q) as (A & B & C).
  rewrite A, B, C. split; [now apply queue_inv_add|].
  split; [now rewrite N|]. split; assumption.
Qed.

Lemma five_adds (c : nat) :
  queue_inv (run (create c) [Add; Add; Add; Add; Add]) /\
  next (run (create c) [Add; Add; Add; Add; Add]) = 5%nat /\
  finished (run (create c) [Add; Add; Add; Add; Add]) = [] /\
  idle_waiter (run (create c) [Add; Add; Add; Add; Add]) = NotCalled.
Proof.
  rewrite !run_cons, run_nil. unfold step.
  do 5 apply add_keeps.
  split; [apply queue_inv_create|repeat split].
Qed.

Lemma onIdle_then_add (q : t) :
  queue_inv q -> next q = 5%nat -> finished q = [] ->
  idle_waiter q = NotCalled ->
  queue_inv (add (onIdle q)) /\ next (add (onIdle q)) = 6%nat /\
  idle_waiter (add (onIdle q)) = Waiting.
Proof.
  intros I N F W.
  assert (Hbusy : is_idle q = false).
  { destruct (is_idle q) eqn:E; [|reflexivity].
    destruct (idle_settled q I E) as (_ & _ & S).
    assert (Hin : In 0%nat (finished q)) by (apply S; lia).
    rewrite F in Hin. destruct Hin. }
  assert (E6 : onIdle q = with_waiter q Waiting).
  { unfold onIdle. rewrite W. unfold check. now rewrite Hbusy. }
  rewrite E6.
  destruct (add_fields (with_waiter q Waiting)) as (A & B & C).
  rewrite A, C. split; [|split].
  - apply queue_inv_add. exact I.
  - change (next (with_waiter q Waiting)) with (next q). now rewrite N.
  - reflexivity.
Qed.

Lemma six_tasks_split : six_tasks = [Add; Add; Add; Add; Add] ++ [OnIdle; Add].
Proof. reflexivity. Qed.

Lemma waiting_after_six (c : nat) :
  queue_inv (run (create c) six_tasks) /\
  next (run (create c) six_tasks) = 6%nat /\
  idle_waiter (run (create c) six_tasks) = Waiting.
Proof.
  rewrite six_tasks_split, run_app.
  rewrite (run_cons _ OnIdle), (run_cons _ Add), run_nil.
  destruct (five_adds c) as (I & N & F & W).
  apply onIdle_then_add; assumption.
Qed.

(** C5.  [onIdle] resolves only at a check that finds no running task
    and an empty queue, and then every task added so far has settled; the
    condition is evaluated again at each check, not once at the call: when
    five tasks are added, [onIdle()] is called and a sixth task is added
    before anything else happens, [onIdle] is not resolved before all six
    tasks have settled, whatever happens next and whatever the
    concurrency limit. *)
Theorem onIdle_waits_for_every_task (c : nat) :
  (forall trace e,
      idle_waiter (run (create c) trace) <> Done ->
      idle_waiter (step (run (create c) trace) e) = Done ->
      running (step (run (create c) trace) e) = 0%nat /\
      queue (step (run (create c) trace) e) = [] /\
      all_settled (next (step (run (create c) trace) e))
                  (step (run (create c) trace) e) = true) /\
  (forall rest,
      idle_waiter (run (create c) (six_tasks ++ rest)) = Done ->
      all_settled 6 (run (create c) (six_tasks ++ rest)) = true).
Proof.
  split.
  - intros trace e N D.
    assert (I : queue_inv (step (run (create c) trace) e))
      by (apply queue_inv_step, queue_inv_run, queue_inv_create).
    destruct (idle_settled _ I (becomes_done _ _ N D)) as (R & Q & S).
    repeat split; auto. now apply all_settled_spec.
  - intros rest D. apply all_settled_spec.
    rewrite run_app in *.
    destruct (waiting_after_six c) as (I & N & W).
    rewrite <- N. apply waiting_until_settled; assumption.
Qed.

(** With four workers: once the six tasks have settled and the timer has
    fired, [onIdle] is resolved and the six tasks are settled. *)
Lemma onIdle_waits_for_every_task_witness :
  idle_waiter (run (create 4) (six_tasks ++ six_settle)) = Done /\
  all_settled 6 (run (create 4) (six_tasks ++ six_settle)) = true.
Proof.
  split; [vm_compute; reflexivity|].
  apply (proj2 (onIdle_waits_for_every_task 4) six_settle).
  vm_compute; reflexivity.
Defined.

(** While the sixth task is still running, the timer finds the queue
    busy and [onIdle] keeps waiting. *)
Example onIdle_still_waiting :
  idle_waiter (run (create 4)
                   (six_tasks ++ [Settle 0; Settle 1; Settle 2; Settle 3;
                                  Settle 4; Poll])) = Waiting.
Proof. vm_compute. reflexivity. Qed.

End QueueClaims.

(** ** Token walker *)

Module WalkerFacts.
Import Walker Spec.

Section WithHost.
Context `{Host}.
Variable fetchMain : nat -> value -> batch.

(** What one turn does to the counters. *)
Lemma enqueue_counters (w : t) (d : descriptor) :
  batchNumber (enqueue w d) = batchNumber w /\
  fetched (enqueue w d) = fetched w /\
  pendingWrites (enqueue w d) = pendingWrites w.
Proof. unfold enqueue. destruct (has _ _); now repeat split. Qed.

Lemma fold_enqueue_counters (ds : list descriptor) :
  forall w,
    batchNumber (fold_left enqueue ds w) = batchNumber w /\
    fetched (fold_left enqueue ds w) = fetched w /\
    pendingWrites (fold_left enqueue ds w) = pendingWrites w.
Proof.
  induction ds as [|d rest IH]; intros w; cbn; [now repeat split|].
  destruct (IH (enqueue w d)) as (A & B & C).
  destruct (enqueue_counters w d) as (A' & B' & C').
  rewrite A, B, C. now repeat split.
Qed.

Lemma turn_effect (w : t) (result : batch) :
  fst (turn fetchMain w result)
    = (if truthy (nextToken result)
       then Some (fetchMain (List.length (fetched w)) (nextToken result))
       else None) /\
  fetched (snd (turn fetchMain w result))
    = (if truthy (nextToken result)
       then fetched w ++ [nextToken result] else fetched w) /\
  batchNumber (snd (turn fetchMain w result)) = (batchNumber w + 1)%Z /\
  pendingWrites (snd (turn fetchMain w result))
    = (if (0 <? List.length (comments result))%nat
       then pendingWrites w ++ [comments result] else pendingWrites w).
Proof.
  unfold turn, start_fetch.
  destruct (truthy (nextToken result));
    destruct (0 <? List.length (comments result))%nat;
    destruct (replyTokens result) as [rts|]; cbn;
    try (match goal with
         | |- context [fold_left enqueue ?ds ?w0] =>
             destruct (fold_enqueue_counters ds w0) as (A & B & C);
             rewrite A, B, C
         end); cbn; now repeat split.
Qed.

(** The loop never stops for want of budget when it is entered with
    [batchNumber <= ceiling] and the turns that remain. *)
Lemma loop_stops (fuel : nat) :
  forall w cp,
    (batchNumber w <= ceiling)%Z ->
    (Z.of_nat fuel + batchNumber w = ceiling + 1)%Z ->
    snd (loop fetchMain fuel w cp) <> StillLooping /\
    (batchNumber (fst (loop fetchMain fuel w cp)) <= ceiling + 1)%Z /\
    (Z.of_nat (List.length (fetched (fst (loop fetchMain fuel w cp))))
     <= Z.of_nat (List.length (fetched w))
        + (batchNumber (fst (loop fetchMain fuel w cp)) - batchNumber w))%Z.
Proof.
  induction fuel as [|fuel IH]; intros w cp Hb Hf.
  - lia.
  - destruct cp as [result|]; cbn [loop].
    + destruct (turn fetchMain w result) as [np w'] eqn:T.
      destruct (turn_effect w result) as (_ & F & B & _).
      rewrite T in F, B. cbn [snd] in F, B.
      assert (Hlen : (Z.of_nat (List.length (fetched w'))
                      <= Z.of_nat (List.length (fetched w)) + 1)%Z).
      { rewrite F. destruct (truthy (nextToken result)); [|lia].
        rewrite length_app. cbn. lia. }
      destruct (batchNumber w' >? ceiling)%Z eqn:C; cbn [fst snd].
      * split; [discriminate|]. split; lia.
      * assert (Hb' : (batchNumber w' <= ceiling)%Z) by lia.
        assert (Hf' : (Z.of_nat fuel + batchNumber w' = ceiling + 1)%Z) by lia.
        destruct (IH w' np Hb' Hf') as (S1 & S2 & S3).
        split; [exact S1|]. split; lia.
    + cbn [fst snd]. split; [discriminate|]. split; lia.
Qed.

Lemma loop_none (fuel : nat) (w : t) :
  loop fetchMain fuel w None = (w, NoNextToken).
Proof. destruct fuel; reflexivity. Qed.

End WithHost.

Section Chain.
Context `{Host}.
Variable pages : list batch.
Hypothesis pages_chain : is_chain pages.

Lemma ceiling_positive : (0 < ceiling)%Z.
Proof. unfold ceiling. lia. Qed.

Lemma loop_chain (fuel : nat) :
  forall k w,
    (k < List.length pages)%nat ->
    List.length (fetched w) = S k ->
    batchNumber w = (Z.of_nat k + 1)%Z ->
    (Z.of_nat k < ceiling)%Z ->
    (Z.of_nat fuel + Z.of_nat k = ceiling)%Z ->
    let r := loop (chain pages) fuel w
                  (Some (nth k pages MainFetch.empty_batch)) in
    List.length (fetched (fst r))
      = Nat.min (List.length pages) (Z.to_nat (ceiling + 1)) /\
    batchNumber (fst r)
      = (Z.of_nat (Nat.min (List.length pages) (Z.to_nat ceiling)) + 1)%Z /\
    snd r = (if (Z.of_nat (List.length pages) <? ceiling)%Z
             then NoNextToken else SafetyCeiling).
Proof.
  pose proof ceiling_positive as Hpos.
  destruct pages_chain as (Hne & Hnext & Hlast).
  induction fuel as [|fuel IH]; intros k w Hk Hlen Hbn Hkc Hfuel r; subst r.
  - lia.
  - cbn [loop].
    destruct (turn (chain pages) w (nth k pages MainFetch.empty_batch))
      as [np w'] eqn:T.
    destruct (turn_effect (chain pages) w (nth k pages MainFetch.empty_batch))
      as (P & F & B & _).
    rewrite T in P, F, B. cbn [fst snd] in P, F, B.
    destruct (Nat.eq_dec (k + 1) (List.length pages)) as [Elast|Nlast].
    + (* the last page *)
      replace (List.length pages - 1)%nat with k in Hlast by lia.
      rewrite Hlast in P, F. subst np.
      destruct (batchNumber w' >? ceiling)%Z eqn:C; cbn [fst snd].
      * assert (Z.of_nat (List.length pages) = ceiling) by lia.
        rewrite F, Hlen, B, Hbn.
        destruct (Z.ltb_spec (Z.of_nat (List.length pages)) ceiling); [lia|].
        repeat split; lia.
      * rewrite loop_none. cbn [fst snd]. rewrite F, Hlen, B, Hbn.
        destruct (Z.ltb_spec (Z.of_nat (List.length pages)) ceiling); [|lia].
        repeat split; lia.
    + (* a page with a next token *)
      assert (Hn : truthy (nextToken (nth k pages MainFetch.empty_batch)) = true)
        by (apply Hnext; lia).
      rewrite Hn in P, F. subst np.
      assert (Hlen' : List.length (fetched w') = S (S k))
        by (rewrite F, length_app, Hlen; cbn; lia).
      destruct (batchNumber w' >? ceiling)%Z eqn:C; cbn [fst snd].
      * rewrite Hlen', B, Hbn.
        destruct (Z.ltb_spec (Z.of_nat (List.length pages)) ceiling); [lia|].
        repeat split; lia.
      * unfold chain at 2. rewrite Hlen.
        apply (IH (S k) w'); lia.
Qed.

Lemma walk_chain (continuationToken : value) (totalFetched0 : Z) :
  let r := walk (chain pages) continuationToken totalFetched0 in
  List.length (fetched (fst r))
    = Nat.min (List.length pages) (Z.to_nat (ceiling + 1)) /\
  batchNumber (fst r)
    = (Z.of_nat (Nat.min (List.length pages) (Z.to_nat ceiling)) + 1)%Z /\
  snd r = (if (Z.of_nat (List.length pages) <? ceiling)%Z
           then NoNextToken else SafetyCeiling).
Proof.
  pose proof ceiling_positive as Hpos.
  destruct pages_chain as (Hne & _ & _).
  unfold walk, start_fetch. cbn [init fetched List.length app].
  unfold chain at 1.
  apply (loop_chain (Z.to_nat ceiling) 0);
    cbn [init fetched batchNumber List.length]; lia.
Qed.

End Chain.

End WalkerFacts.

Module WalkerClaims.
Import Walker Spec Samples WalkerFacts.

(** C2 (as amended).  On a fixed chain of N pages where every page but
    the last carries a next token: if N is at most 100001 the walk issues
    exactly N main fetches, and if N is at most 100000 it also makes N
    turns, one per page; it stops for want of a next token when N is below
    100000 and at the safety ceiling otherwise, a longer chain being cut
    after 100000 turns and 100001 fetches.  In general, whatever the
    fetches yield, the walk stops, either because a fetch yielded no next
    token or at the ceiling, after at most 100000 turns and 100001
    fetches. *)
Theorem walk_terminates_on_chain `{Host}
    (pages : list batch) (continuationToken : value) (totalFetched0 : Z) :
  is_chain pages ->
  let r := walk (chain pages) continuationToken totalFetched0 in
  let N := List.length pages in
  ((Z.of_nat N <= ceiling + 1)%Z -> List.length (fetched (fst r)) = N) /\
  ((Z.of_nat N <= ceiling)%Z -> batchNumber (fst r) = (Z.of_nat N + 1)%Z) /\
  ((Z.of_nat N < ceiling)%Z -> snd r = NoNextToken) /\
  ((ceiling <= Z.of_nat N)%Z ->
   snd r = SafetyCeiling /\ batchNumber (fst r) = (ceiling + 1)%Z) /\
  ((ceiling + 1 <= Z.of_nat N)%Z ->
   Z.of_nat (List.length (fetched (fst r))) = (ceiling + 1)%Z) /\
  (forall fetchMain token total,
      (snd (walk fetchMain token total) = NoNextToken \/
       snd (walk fetchMain token total) = SafetyCeiling) /\
      (batchNumber (fst (walk fetchMain token total)) <= ceiling + 1)%Z /\
      (Z.of_nat (List.length (fetched (fst (walk fetchMain token total))))
       <= ceiling + 1)%Z).
Proof.
  intros Hc r N. subst r N.
  pose proof ceiling_positive as Hpos.
  destruct (walk_chain pages Hc continuationToken totalFetched0) as (F & B & S).
  split; [|split; [|split; [|split; [|split]]]].
  - intros Hn. rewrite F. lia.
  - intros Hn. rewrite B. lia.
  - intros Hn. rewrite S.
    destruct (Z.ltb_spec (Z.of_nat (List.length pages)) ceiling); [reflexivity|lia].
  - intros Hn. rewrite S, B.
    destruct (Z.ltb_spec (Z.of_nat (List.length pages)) ceiling); [lia|].
    split; [reflexivity|lia].
  - intros Hn. rewrite F. lia.
  - intros fetchMain token total. unfold walk, start_fetch.
    set (w0 := mk (batchNumber (init total)) (fetched (init total) ++ [token])
                  (pendingWrites (init total)) (totalFetched (init total))
                  (processedReplyTokens (init total)) (replyQueue (init total))).
    destruct (loop_stops fetchMain (Z.to_nat ceiling) w0
                (Some (fetchMain (List.length (fetched (init total))) token)))
      as (S1 & S2 & S3).
    + change (batchNumber w0) with 1%Z. lia.
    + change (batchNumber w0) with 1%Z. lia.
    + change (batchNumber w0) with 1%Z in S3.
      change (List.length (fetched w0)) with 1%nat in S3.
      split; [|split; [exact S2|]].
      * destruct (snd (loop fetchMain (Z.to_nat ceiling) w0 _)); auto.
        congruence.
      * lia.
Qed.

Lemma short_chain_is_chain : is_chain short_chain.
Proof.
  unfold is_chain, short_chain. cbn. repeat split; try lia.
  intros i Hi. assert (i = 0%nat) by lia. now subst.
Qed.

(** On the two-page chain the walk issues two fetches, makes two turns
    and stops for want of a next token. *)
Lemma walk_terminates_on_chain_witness :
  List.length (fetched (fst (walk (chain short_chain) (VStr "T0") 0))) = 2%nat /\
  batchNumber (fst (walk (chain short_chain) (VStr "T0") 0)) = 3%Z /\
  snd (walk (chain short_chain) (VStr "T0") 0) = NoNextToken.
Proof.
  destruct (walk_terminates_on_chain short_chain (VStr "T0") 0
              short_chain_is_chain) as (F & B & S & _).
  split; [|split].
  - apply F. unfold ceiling. cbn. lia.
  - apply B. unfold ceiling. cbn. lia.
  - apply S. unfold ceiling. cbn. lia.
Defined.

Lemma long_chain_length :
  List.length long_chain = S (Z.to_nat (ceiling + 1)).
Proof.
  unfold long_chain. rewrite length_app, repeat_length. cbn [List.length]. lia.
Qed.

Lemma long_chain_is_chain : is_chain long_chain.
Proof.
  unfold is_chain. rewrite long_chain_length. split; [lia|]. split.
  - intros i Hi. unfold long_chain.
    rewrite app_nth1 by (rewrite repeat_length; lia).
    rewrite nth_repeat_lt by lia. reflexivity.
  - unfold long_chain.
    rewrite app_nth2 by (rewrite repeat_length; lia).
    rewrite repeat_length.
    replace (S (Z.to_nat (ceiling + 1)) - 1 - Z.to_nat (ceiling + 1))%nat
      with 0%nat by lia.
    reflexivity.
Qed.

(** C2, as stated, fails: on a chain of 100002 pages the walk issues
    100001 main fetches and stops at the ceiling. *)
Lemma long_chain_cut_at_ceiling :
  is_chain long_chain /\
  List.length long_chain = S (Z.to_nat 100001) /\
  List.length (fetched (fst (walk (chain long_chain) (VStr "T0") 0)))
    = Z.to_nat 100001 /\
  List.length (fetched (fst (walk (chain long_chain) (VStr "T0") 0)))
    <> List.length long_chain.
Proof.
  pose proof ceiling_positive as Hpos.
  assert (L := long_chain_length).
  destruct (walk_chain long_chain long_chain_is_chain (VStr "T0") 0)
    as (F & _ & _).
  assert (C : (ceiling + 1 = 100001)%Z) by reflexivity.
  rewrite C in *.
  split; [exact long_chain_is_chain|]. split; [exact L|]. split; lia.
Qed.

End WalkerClaims.

Module DedupFacts.
Import Walker Spec EntityFacts.

Section WithHost.
Context `{Host}.
Variable fetchMain : nat -> value -> batch.

Lemma distinct_tokens_snoc (l : list value) (k : value) :
  distinct_tokens l = true -> has l k = false ->
  distinct_tokens (l ++ [k]) = true.
Proof.
  unfold has. induction l as [|x rest IH]; cbn; intros D Hk; [reflexivity|].
  apply andb_true_iff in D. destruct D as [D1 D2].
  apply orb_false_iff in Hk. destruct Hk as [Hx Hrest].
  rewrite (IH D2 Hrest), andb_true_r.
  rewrite existsb_app. cbn. rewrite Hx, orb_false_r. exact D1.
Qed.

Lemma enqueue_inv (w : t) (d : descriptor) :
  dedup_inv w -> dedup_inv (enqueue w d).
Proof.
  intros (Q & D & K). unfold enqueue.
  destruct (has (processedReplyTokens w) (tokenKey d)) eqn:E;
    [now repeat split|].
  unfold dedup_inv; cbn. repeat split.
  - rewrite map_app, Q. reflexivity.
  - now apply distinct_tokens_snoc.
  - apply Forall_app. split; [exact K|]. now repeat constructor.
Qed.

Lemma fold_enqueue_inv (ds : list descriptor) :
  forall w, dedup_inv w -> dedup_inv (fold_left enqueue ds w).
Proof.
  induction ds as [|d rest IH]; intros w I; cbn; auto using enqueue_inv.
Qed.

Lemma turn_inv (w : t) (result : batch) :
  dedup_inv w -> dedup_inv (snd (turn fetchMain w result)).
Proof.
  intros I. unfold turn, start_fetch.
  destruct (truthy (nextToken result));
    destruct (0 <? List.length (comments result))%nat;
    destruct (replyTokens result) as [rts|]; cbn [snd];
    try (match goal with
         | |- dedup_inv (mk _ _ _ _ (processedReplyTokens (fold_left enqueue ?ds ?w0))
                            (replyQueue (fold_left enqueue ?ds ?w0))) =>
             change (dedup_inv (fold_left enqueue ds w0));
             apply fold_enqueue_inv
         end); exact I.
Qed.

Lemma loop_inv (fuel : nat) :
  forall w cp, dedup_inv w -> dedup_inv (fst (loop fetchMain fuel w cp)).
Proof.
  induction fuel as [|fuel IH]; intros w cp I; destruct cp as [result|];
    cbn [loop fst]; auto.
  destruct (turn fetchMain w result) as [np w'] eqn:T.
  assert (I' : dedup_inv w') by (change w' with (snd (np, w'));
                                  rewrite <- T; now apply turn_inv).
  destruct (batchNumber w' >? ceiling)%Z; cbn [fst]; auto.
Qed.

Lemma walk_inv (token : value) (total : Z) :
  dedup_inv (fst (walk fetchMain token total)).
Proof.
  unfold walk, start_fetch. apply loop_inv.
  unfold dedup_inv; cbn. repeat split. constructor.
Qed.

End WithHost.
End DedupFacts.

Module DedupClaims.
Import Walker Spec Samples Session DedupFacts.

(** C1.  Within one session each dedup key is to be fetched at most
    once.  On the sample session it is fetched twice: the page holds one
    thread whose [contents] list a continuation item with the token
    ["R1"]; the main fetch collects that token for the queue and, in the
    pass over the legacy [contents], fetches its replies at once; the walk
    then puts the key ["R1"] into the processed set and queues one task
    for it, which fetches the same replies again.  Two of the requests
    sent ask for the continuation ["R1"]. *)
Lemma reply_token_fetched_twice :
  exists st writes w',
    single_batch_session 5 (VStr "T0") replies_world = (Ret (st, writes), w') /\
    processedReplyTokens st = [VStr "R1"] /\
    List.length (replyQueue st) = 1%nat /\
    fetches_of (VStr "R1") w' = 2%nat.
Proof.
  unfold single_batch_session, walk, start_fetch.
  replace (Z.to_nat ceiling) with (S (S (Z.to_nat (ceiling - 2))))
    by (unfold ceiling; lia).
  eexists. eexists. eexists.
  split; [vm_compute; reflexivity|].
  repeat split.
Qed.

End DedupClaims.

(** ** Fallback extractor *)

Module FallbackClaims.
Import Walker Sink Fallback Spec Samples WalkerFacts.

Lemma one_batch_walk `{Host} (r : comment) (next token : value)
    (rts : list descriptor) :
  truthy next = true ->
  let w := fst (walk (one_batch_then_failure (mkBatch [r] next (Some rts)))
                     token 0) in
  pendingWrites w = [[r]] /\ fetched w = [token; next].
Proof.
  intros Hnext w. subst w. unfold walk, start_fetch.
  replace (Z.to_nat ceiling) with (S (S (Z.to_nat (ceiling - 2))))
    by (unfold ceiling; lia).
  set (fm := one_batch_then_failure (mkBatch [r] next (Some rts))).
  set (w0 := mk (batchNumber (init 0)) (fetched (init 0) ++ [token])
                (pendingWrites (init 0)) (totalFetched (init 0))
                (processedReplyTokens (init 0)) (replyQueue (init 0))).
  change (fm (List.length (fetched (init 0))) token)
    with (mkBatch [r] next (Some rts)).
  cbn [loop].
  destruct (turn fm w0 (mkBatch [r] next (Some rts))) as [np w1] eqn:T1.
  destruct (turn_effect fm w0 (mkBatch [r] next (Some rts))) as (P1 & F1 & B1 & W1).
  rewrite T1 in P1, F1, B1, W1. cbn [fst snd nextToken comments] in P1, F1, B1, W1.
  rewrite Hnext in P1, F1.
  change (fm (List.length (fetched w0)) next) with MainFetch.empty_batch in P1.
  change (batchNumber w0) with 1%Z in B1.
  change (fetched w0) with [token] in F1.
  change (pendingWrites w0) with (@nil (list comment)) in W1.
  cbn in F1, W1, B1. subst np.
  assert (C1 : (batchNumber w1 >? ceiling)%Z = false)
    by (rewrite B1; reflexivity).
  rewrite C1.
  destruct (turn fm w1 MainFetch.empty_batch) as [np w2] eqn:T2.
  destruct (turn_effect fm w1 MainFetch.empty_batch) as (P2 & F2 & B2 & W2).
  rewrite T2 in P2, F2, B2, W2. cbn in P2, F2, B2, W2. subst np.
  assert (C2 : (batchNumber w2 >? ceiling)%Z = false)
    by (rewrite B2, B1; reflexivity).
  rewrite C2, loop_none. cbn [fst].
  rewrite W2, W1, F2, F1. now split.
Qed.

Lemma finish_nonempty `{Host} (c : comment) (rest : list comment)
    (domThreads : list dom_thread) (rnd : nat) :
  finish (c :: rest) domThreads rnd
  = mkOutcome (mkDocument domThreads 0) (Some (c :: rest)).
Proof. reflexivity. Qed.

Lemma finish_empty `{Host} (domThreads : list dom_thread) (rnd : nat) :
  finish [] domThreads rnd
  = mkOutcome (mkDocument domThreads 1)
              (match scrape domThreads rnd with
               | [] => None
               | s :: ss => Some (s :: ss)
               end).
Proof.
  unfold finish, emergency_scrape, querySelectorAll. cbn.
  now destruct (scrape domThreads rnd).
Qed.

(** One write of one record: what the barrier and the final read make of
    it, according to the record and to the way its transaction ended. *)
Lemma one_write_drained `{Host} (r : comment) (o : tx_outcome)
    (domThreads : list dom_thread) :
  (fallback_ran (drain [([r], o)] domThreads) = true
   <-> storable r = true /\ o = TxError) /\
  (storable r = true -> o = TxComplete ->
   exists r', returned (drain [([r], o)] domThreads) = Some [r'] /\
              (truthy (id r) = true -> r' = r)).
Proof.
  unfold storable, drain, final_store, rand_after, schedule_all,
    saveCommentBatch.
  cbn [schedule_puts]. unfold run_writes, commit, clearCommentStore,
    getAllComments.
  destruct (truthy (id r)) eqn:T; cbn [negb orb].
  - destruct (valid_key (id r)) eqn:V.
    + destruct o; cbn -[finish scrape].
      * rewrite finish_nonempty. cbn.
        split; [split; [discriminate|intros [_ E]; discriminate]|].
        intros _ _. exists r. now split.
      * rewrite finish_empty. cbn. split; [now split|discriminate].
    + cbn.
      split; [split; [discriminate|intros [E _]; discriminate]|discriminate].
  - destruct o; cbn -[finish scrape].
    + rewrite finish_nonempty. cbn.
      split; [split; [discriminate|intros [_ E]; discriminate]|].
      intros _ _. eexists. split; [reflexivity|discriminate].
    + rewrite finish_empty. cbn. split; [now split|discriminate].
Qed.

(** C7 (as amended).  The emergency scrape is run, the document being
    asked for its rendered threads, if and only if the snapshot read
    after the barriers holds no record: a snapshot that holds a record is
    returned as it is and the document is not queried; on an empty one
    the document is queried once and the scraped records, if any, are
    returned.  When a write handle was rejected the snapshot is not read
    and the scrape is not run.  In a session whose first batch brought
    one record and a next token, and whose every later fetch failed, the
    walk hands one write to the sink, and the scrape is run exactly when
    the store accepted the record and the transaction of that write
    failed; when the write completed the one record is returned. *)
Theorem fallback_only_on_empty_snapshot `{Host} :
  (forall snapshot domThreads rnd,
      let o := finish snapshot domThreads rnd in
      (fallback_ran o = true <-> List.length snapshot = 0%nat) /\
      (snapshot <> [] ->
       queries (page o) = 0%nat /\ returned o = Some snapshot) /\
      (snapshot = [] ->
       queries (page o) = 1%nat /\
       returned o = match scrape domThreads rnd with
                    | [] => None
                    | s :: ss => Some (s :: ss)
                    end)) /\
  (forall h domThreads,
      fallback_ran (drain h domThreads) = true
      <-> existsb (fun so => threw (fst so)) (schedule_all h 0) = false /\
          List.length (getAllComments (final_store h)) = 0%nat) /\
  (forall r next token rts domThreads o,
      truthy next = true ->
      let w := fst (walk (one_batch_then_failure (mkBatch [r] next (Some rts)))
                         token 0) in
      let out := drain (map (fun b => (b, o)) (pendingWrites w)) domThreads in
      List.length (fetched w) = 2%nat /\
      pendingWrites w = [[r]] /\
      (fallback_ran out = true <-> storable r = true /\ o = TxError) /\
      (storable r = true -> o = TxComplete ->
       exists r', returned out = Some [r'] /\
                  (truthy (id r) = true -> r' = r))).
Proof.
  split; [|split].
  - intros snapshot domThreads rnd o. subst o.
    destruct snapshot as [|c rest].
    + rewrite finish_empty. cbn. repeat split; auto; congruence.
    + rewrite finish_nonempty. cbn.
      split; [split; discriminate|]. split; [now split|discriminate].
  - intros h domThreads. unfold drain.
    destruct (existsb (fun so => threw (fst so)) (schedule_all h 0)).
    + cbn. split; [discriminate|]. intros [E _]. discriminate.
    + destruct (getAllComments (final_store h)) as [|c rest].
      * rewrite finish_empty. cbn. now split.
      * rewrite finish_nonempty. cbn. split; [discriminate|].
        intros [_ E]. discriminate.
  - intros r next token rts domThreads o Hnext w out. subst out w.
    destruct (one_batch_walk r next token rts Hnext) as (W & F).
    rewrite W, F. cbn [map List.length].
    destruct (one_write_drained r o domThreads) as (R1 & R2).
    split; [reflexivity|]. split; [reflexivity|]. split; assumption.
Qed.

(** One harvested record, then failure: the scrape is not run when the
    write has completed, although the page has rendered threads; with
    nothing harvested it is run. *)
Lemma fallback_only_on_empty_snapshot_witness :
  let w := fst (walk (one_batch_then_failure
                        (mkBatch [record (VStr "x") "only"] (VStr "T1") (Some [])))
                     (VStr "T0") 0) in
  returned (drain (map (fun b => (b, TxComplete)) (pendingWrites w))
                  rendered_threads)
    = Some [record (VStr "x") "only"] /\
  fallback_ran (drain [] rendered_threads) = true /\
  option_map (@List.length comment) (returned (drain [] rendered_threads))
    = Some 2%nat.
Proof.
  intros w. subst w. split; [|split; reflexivity].
  destruct fallback_only_on_empty_snapshot as (_ & _ & S).
  destruct (S (record (VStr "x") "only") (VStr "T1") (VStr "T0") []
              rendered_threads TxComplete eq_refl) as (_ & _ & _ & R).
  destruct (R eq_refl eq_refl) as (r' & E & I).
  rewrite E, (I eq_refl). reflexivity.
Defined.

(** C7, as stated, fails: one record was harvested through the primary
    pipeline and every later fetch failed, but the transaction of the
    write of that record failed too; the snapshot is empty, the document
    is queried and the two rendered threads are scraped. *)
Lemma fallback_after_failed_write :
  let w := fst (walk (one_batch_then_failure
                        (mkBatch [record (VStr "x") "only"] (VStr "T1") (Some [])))
                     (VStr "T0") 0) in
  let out := drain (map (fun b => (b, TxError)) (pendingWrites w))
                   rendered_threads in
  pendingWrites w = [[record (VStr "x") "only"]] /\
  fallback_ran out = true /\
  option_map (map id) (returned out)
    = Some [VStr "scraped-r0"; VStr "scraped-r1"].
Proof.
  assert (W : pendingWrites
                (fst (walk (one_batch_then_failure
                              (mkBatch [record (VStr "x") "only"] (VStr "T1")
                                       (Some [])))
                           (VStr "T0") 0))
              = [[record (VStr "x") "only"]]).
  { apply (one_batch_walk (record (VStr "x") "only") (VStr "T1") (VStr "T0") []).
    reflexivity. }
  cbv zeta. rewrite W. split; [reflexivity|]. split; reflexivity.
Qed.

End FallbackClaims.

(** ** The definitions at work *)

Module Examples.
Import Resolver Threads MainFetch Samples.

(** A view model whose key is in the entity store is resolved from the
    payload stored under that key. *)
Example resolve_from_entity_store :
  exists r,
    resolveComment keyed_view_model (Some [(VStr "K1", entity_payload)])
      = Ret (Some r) /\
    id r = VStr "K1" /\ author r = VStr "@zed" /\ text r = VStr "hi there" /\
    time r = VStr "2 days ago" /\ likes r = VStr "12".
Proof. eexists. split; [vm_compute; reflexivity|]. now repeat split. Qed.

(** An empty node still resolves to a record: the author defaults to
    ['Unknown']. *)
Example resolve_empty_node :
  exists r,
    resolveComment (VObj []) None = Ret (Some r) /\
    id r = VUndef /\ author r = VStr "Unknown" /\ text r = VStr EmptyString.
Proof. eexists. split; [vm_compute; reflexivity|]. now repeat split. Qed.

(** The search visits the properties named by an array index first, by
    ascending index, whatever their place in the document. *)
Example deepFind_visits_indices_first :
  Discovery.deepFind "k" (VObj [("b", VObj [("k", VStr "A")]);
                                ("10", VObj [("k", VStr "B")]);
                                ("2", VObj [("k", VStr "C")])])
  = [VStr "C"; VStr "B"; VStr "A"].
Proof. reflexivity. Qed.

(** The next token is read from the last item of the appended items. *)
Example next_continuation_of_page :
  extractNextContinuation next_page_response = (VStr "T2", VStr "ctp").
Proof. reflexivity. Qed.

(** A token that is a bare string, as the view-replies button yields it,
    is not an endpoint: [fetchReplies] returns [null] without a request. *)
Example fetchReplies_of_string_token :
  fetchReplies 3 (VStr "R1") (VStr "c1") (scripted_world [replies_page])
    = (Ret None, scripted_world [replies_page]).
Proof. reflexivity. Qed.

(** The sample host serializes a token object structurally. *)
Example stringify_endpoint :
  stringify (reply_endpoint "R1")
    = Some ("{" ++ quote "continuationCommand" ++ ":{" ++ quote "token" ++ ":"
                ++ quote "R1" ++ "}}")%string.
Proof. reflexivity. Qed.

End Examples.

(** ** Scheduling of the reply queue *)

Module QueueExtras.
Import SimpleQueue Spec Samples QueueFacts.

Lemma sched_inv_create (c : nat) : sched_inv (create c).
Proof.
  unfold sched_inv, create; cbn. split; [lia|]. split; [now left|].
  split; [|intros t []].
  exists 0%nat. split; [lia|]. split; [reflexivity|intros t []].
Qed.

(** [process()] restores the scheduling invariant once a slot has been
    freed or a task appended. *)
Lemma sched_inv_process (q : t) :
  (running q <= concurrency q)%nat ->
  (queue q = [] \/ (concurrency q <= S (running q))%nat \/
   exists x, queue q = [x]) ->
  (exists a, (a <= next q)%nat /\ queue q = seq a (next q - a) /\
             forall t, In t (started q ++ finished q) -> (t < a)%nat) ->
  (forall t, In t (finished q) -> ~ In t (started q)) ->
  sched_inv (process q).
Proof.
  intros B W (a & Ha & Q & LT) D. unfold process.
  destruct (concurrency q <=? running q)%nat eqn:E1; cbn [orb].
  { apply Nat.leb_le in E1. split; [exact B|]. split; [now right|].
    split; [now exists a|exact D]. }
  apply Nat.leb_gt in E1.
  destruct (queue q) as [|fn rest] eqn:Eq; cbn [List.length Nat.eqb].
  { split; [exact B|]. split; [left; exact Eq|].
    split; [exists a; rewrite Eq; auto|exact D]. }
  destruct (next q - a)%nat as [|m] eqn:Em; cbn [seq] in Q; [discriminate|].
  inversion Q; subst fn rest.
  unfold sched_inv; cbn. split; [lia|]. split; [|split].
  - destruct W as [W|[W|(x & W)]]; [discriminate|now right|].
    inversion W as [[E1' E2']]. now left.
  - exists (S a). split; [lia|]. split; [f_equal; lia|].
    intros t Hin. apply in_app_or in Hin. destruct Hin as [Hin|Hin].
    + apply in_app_or in Hin. destruct Hin as [Hin|[<-|[]]]; [|lia].
      assert (t < a)%nat; [|lia]. apply LT. apply in_or_app. now left.
    + assert (t < a)%nat; [|lia]. apply LT. apply in_or_app. now right.
  - intros t Hf Hin. apply in_app_or in Hin. destruct Hin as [Hin|[<-|[]]].
    + now apply (D t).
    + assert (a < a)%nat; [|lia]. apply LT. apply in_or_app. now right.
Qed.

Lemma sched_inv_add (q : t) : sched_inv q -> sched_inv (add q).
Proof.
  intros (B & W & (a & Ha & Q & LT) & D). unfold add.
  apply sched_inv_process;
    cbn [queue next started finished running concurrency].
  - exact B.
  - destruct W as [W|W].
    + right. right. exists (next q). now rewrite W.
    + right. left. lia.
  - exists a. split; [lia|]. split; [|exact LT].
    replace (S (next q) - a)%nat with (S (next q - a)) by lia.
    rewrite seq_S, <- Q. do 2 f_equal. lia.
  - exact D.
Qed.

Lemma sched_inv_settle (q : t) (fn : task) :
  queue_inv q -> sched_inv q -> sched_inv (settle q fn).
Proof.
  intros (R & _) I. assert (I0 := I).
  destruct I as (B & W & (a & Ha & Q & LT) & D). unfold settle.
  destruct (existsb (Nat.eqb fn) (started q)) eqn:X; [|exact I0].
  apply existsb_exists in X. destruct X as (y & Hin & Hy).
  apply Nat.eqb_eq in Hy. subst y.
  assert (Hrun : (1 <= running q)%nat).
  { rewrite R. destruct (started q); [destruct Hin|cbn; lia]. }
  apply sched_inv_process;
    cbn [queue next started finished running concurrency].
  - lia.
  - destruct W as [W|W]; [now left|]. right. left. lia.
  - exists a. split; [exact Ha|]. split; [exact Q|].
    intros t Ht. apply LT. apply in_app_or in Ht. apply in_or_app.
    destruct Ht as [Ht|Ht].
    + left. now apply in_remove in Ht.
    + apply in_app_or in Ht. destruct Ht as [Ht|[<-|[]]]; [now right|now left].
  - intros t Ht Hr. apply in_remove in Hr. destruct Hr as [Hr Hne].
    apply in_app_or in Ht. destruct Ht as [Ht|[<-|[]]].
    + now apply (D t).
    + now apply Hne.
Qed.

Lemma sched_inv_step (q : t) (e : event) :
  queue_inv q -> sched_inv q -> sched_inv (step q e).
Proof.
  intros I S. destruct e; cbn.
  - now apply sched_inv_add.
  - now apply sched_inv_settle.
  - unfold onIdle. destruct (idle_waiter q); auto.
  - unfold poll. destruct (idle_waiter q); auto.
Qed.

Lemma sched_inv_run (trace : list event) :
  forall q, queue_inv q -> sched_inv q -> sched_inv (run q trace).
Proof.
  unfold run. induction trace as [|e rest IH]; intros q I S; cbn; auto.
  apply IH; [now apply queue_inv_step|now apply sched_inv_step].
Qed.

Lemma process_concurrency (q : t) : concurrency (process q) = concurrency q.
Proof.
  unfold process. destruct (orb _ _); [reflexivity|].
  now destruct (queue q).
Qed.

Lemma step_concurrency (q : t) (e : event) :
  concurrency (step q e) = concurrency q.
Proof.
  destruct e; cbn.
  - unfold add. now rewrite process_concurrency.
  - unfold settle. destruct (existsb _ _); [|reflexivity].
    now rewrite process_concurrency.
  - unfold onIdle. now destruct (idle_waiter q).
  - unfold poll. now destruct (idle_waiter q).
Qed.

Lemma run_concurrency (trace : list event) :
  forall q, concurrency (run q trace) = concurrency q.
Proof.
  unfold run. induction trace as [|e rest IH]; intros q; cbn; [reflexivity|].
  now rewrite IH, step_concurrency.
Qed.

Lemma reachable (c : nat) (trace : list event) :
  queue_inv (run (create c) trace) /\ sched_inv (run (create c) trace) /\
  concurrency (run (create c) trace) = c.
Proof.
  split; [apply queue_inv_run, queue_inv_create|].
  split; [|apply run_concurrency].
  apply sched_inv_run; [apply queue_inv_create|apply sched_inv_create].
Qed.

(** X1.  Bounded concurrency.  Whatever tasks are added and whichever
    of them settle, in any order, the number of running tasks never
    exceeds the limit the queue was created with; and no slot stays free
    while a task waits: whenever the queue is not empty, exactly [c]
    tasks are running. *)
Theorem running_within_limit (c : nat) (trace : list event) :
  (running (run (create c) trace) <= c)%nat /\
  (queue (run (create c) trace) <> [] -> running (run (create c) trace) = c).
Proof.
  destruct (reachable c trace) as (_ & (B & W & _) & C).
  rewrite C in *. split; [exact B|].
  intros Hq. destruct W as [W|W]; [congruence|lia].
Qed.

(** Two workers and three tasks: the third one waits, and both workers
    are busy. *)
Lemma running_within_limit_witness :
  queue (run (create 2) [Add; Add; Add]) <> [] /\
  running (run (create 2) [Add; Add; Add]) = 2%nat.
Proof.
  assert (Hq : queue (run (create 2) [Add; Add; Add]) <> [])
    by (vm_compute; discriminate).
  split; [exact Hq|].
  exact (proj2 (running_within_limit 2 [Add; Add; Add]) Hq).
Defined.

(** X2.  Tasks start in the order they were added.  Tasks being numbered
    by their call of [add], the waiting tasks are always the most recent
    ones, in increasing order, and every task that has started or settled
    carries a smaller number than every task still waiting. *)
Theorem tasks_start_in_order (c : nat) (trace : list event) :
  exists first,
    queue (run (create c) trace)
    = seq first (List.length (queue (run (create c) trace))) /\
    (first + List.length (queue (run (create c) trace))
     = next (run (create c) trace))%nat /\
    forall t,
      In t (started (run (create c) trace)) \/
      In t (finished (run (create c) trace)) ->
      (t < first)%nat.
Proof.
  destruct (reachable c trace) as (_ & (_ & _ & (a & Ha & Q & LT) & _) & _).
  assert (Hlen : List.length (queue (run (create c) trace))
                 = (next (run (create c) trace) - a)%nat)
    by (rewrite Q; apply length_seq).
  exists a. rewrite Hlen.
  split; [exact Q|]. split; [lia|].
  intros t Ht. apply LT. apply in_or_app. exact Ht.
Qed.

(** One worker and three tasks: the first task, which has started, was
    added before the tasks that wait. *)
Lemma tasks_start_in_order_witness :
  exists first,
    queue (run (create 1) [Add; Add; Add]) = seq first 2 /\
    (0 < first)%nat.
Proof.
  destruct (tasks_start_in_order 1 [Add; Add; Add]) as (first & Q & _ & LT).
  exists first. split; [exact Q|].
  apply LT. left. vm_compute. now left.
Defined.

(** X3.  [onIdle] does not hang.  In any reachable state in which every
    task added so far has settled, nothing is running and nothing waits,
    so the loop condition of [onIdle] is false: a call of [onIdle]
    resolves at once and a waiting one resolves at its next check. *)
Theorem idle_once_all_settled (c : nat) (trace : list event) :
  all_settled (next (run (create c) trace)) (run (create c) trace) = true ->
  is_idle (run (create c) trace) = true /\
  (idle_waiter (run (create c) trace) = NotCalled ->
   idle_waiter (onIdle (run (create c) trace)) = Done) /\
  (idle_waiter (run (create c) trace) = Waiting ->
   idle_waiter (poll (run (create c) trace)) = Done).
Proof.
  intros A. apply all_settled_spec in A.
  destruct (reachable c trace)
    as ((R & _ & LTq & _) & (_ & _ & (a & Ha & Q & LT) & D) & _).
  set (q := run (create c) trace) in *.
  assert (Hq : queue q = []).
  { destruct (queue q) as [|x rest] eqn:E; [reflexivity|].
    assert (Hx : (x < next q)%nat) by (apply LTq; now left).
    assert (Hlt : (x < a)%nat)
      by (apply LT; apply in_or_app; right; now apply A).
    destruct (next q - a)%nat as [|m]; cbn in Q; [discriminate|].
    inversion Q. lia. }
  assert (Hs : started q = []).
  { destruct (started q) as [|x rest] eqn:E; [reflexivity|].
    exfalso. apply (D x); [apply A|now left].
    apply LTq. apply in_or_app. right. now left. }
  assert (I : is_idle q = true).
  { unfold is_idle. rewrite R, Hs, Hq. reflexivity. }
  split; [exact I|]. split; intros Wt.
  - unfold onIdle. rewrite Wt. unfold check. now rewrite I.
  - unfold poll. rewrite Wt. unfold check. now rewrite I.
Qed.

(** Four workers, six tasks that have all settled while [onIdle] was
    waiting: its next check resolves it. *)
Lemma idle_once_all_settled_witness :
  is_idle (run (create 4) (six_tasks ++ removelast six_settle)) = true /\
  idle_waiter (poll (run (create 4) (six_tasks ++ removelast six_settle)))
  = Done.
Proof.
  destruct (idle_once_all_settled 4 (six_tasks ++ removelast six_settle))
    as (I & _ & P).
  - vm_compute. reflexivity.
  - split; [exact I|]. apply P. vm_compute. reflexivity.
Defined.

End QueueExtras.

(** ** Accounting of the walk *)

Module WalkerExtras.
Import Walker Spec Samples WalkerFacts.

Section WithHost.
Context `{Host}.
Variable fetchMain : nat -> value -> batch.

Lemma fold_enqueue_total (ds : list descriptor) :
  forall w, totalFetched (fold_left enqueue ds w) = totalFetched w.
Proof.
  induction ds as [|d rest IH]; intros w; cbn; [reflexivity|].
  rewrite IH. unfold enqueue. now destruct (has _ _).
Qed.

Lemma turn_total (w : t) (result : batch) :
  totalFetched (snd (turn fetchMain w result))
  = if nonempty (comments result)
    then (totalFetched w + Z.of_nat (List.length (comments result)))%Z
    else totalFetched w.
Proof.
  unfold turn, start_fetch, nonempty.
  destruct (truthy (nextToken result));
    destruct (0 <? List.length (comments result))%nat;
    destruct (replyTokens result) as [rts|]; cbn;
    try rewrite fold_enqueue_total; reflexivity.
Qed.

Lemma page_of_app (tokens : list value) (x : value) (k : nat) :
  (k < List.length tokens)%nat ->
  page_of fetchMain (tokens ++ [x]) k = page_of fetchMain tokens k.
Proof. intros Hk. unfold page_of. now rewrite app_nth1. Qed.

Lemma in_page_order_snoc (tokens : list value) (x : value) (n : nat) :
  List.length tokens = S n ->
  in_page_order fetchMain tokens ->
  x = nextToken (page_of fetchMain tokens n) ->
  truthy x = true ->
  in_page_order fetchMain (tokens ++ [x]).
Proof.
  intros L O X T k Hk. rewrite length_app in Hk. cbn in Hk.
  destruct (Nat.eq_dec k n) as [->|Hne].
  - rewrite page_of_app by lia.
    rewrite app_nth2 by lia. rewrite L, Nat.sub_diag. cbn. now split.
  - rewrite page_of_app by lia. rewrite app_nth1 by lia. apply O. lia.
Qed.

Lemma concat_nonempty (l : list (list comment)) :
  List.concat (filter nonempty l) = List.concat l.
Proof.
  induction l as [|cs rest IH]; [reflexivity|].
  cbn [filter]. destruct cs as [|c cs'].
  - change (nonempty []) with false. exact IH.
  - change (nonempty (c :: cs')) with true. cbn [List.concat].
    now rewrite IH.
Qed.

(** One turn keeps the books. *)
Lemma turn_account (seed : value) (total0 : Z) (w : t) (n : nat)
    (result : batch) :
  account fetchMain seed total0 w n ->
  List.length (fetched w) = S n ->
  result = page_of fetchMain (fetched w) n ->
  let w' := snd (turn fetchMain w result) in
  let np := fst (turn fetchMain w result) in
  account fetchMain seed total0 w' (S n) /\
  List.length (fetched w')
  = (S n + match np with Some _ => 1 | None => 0 end)%nat /\
  (forall r, np = Some r -> r = page_of fetchMain (fetched w') (S n)).
Proof.
  intros (B & (rest & S0) & O & P & T) L R w' np. subst w' np.
  destruct (turn_effect fetchMain w result) as (E1 & E2 & E3 & E4).
  assert (E5 := turn_total w result).
  set (w' := snd (turn fetchMain w result)) in *.
  rewrite E1.
  assert (Hpages :
            map (page_of fetchMain (fetched w')) (seq 0 (S n))
            = map (page_of fetchMain (fetched w)) (seq 0 n) ++ [result]).
  { rewrite seq_S, map_app. cbn [map Nat.add]. f_equal.
    - apply map_ext_in. intros k Hk. apply in_seq in Hk.
      rewrite E2. destruct (truthy (nextToken result)); [|reflexivity].
      apply page_of_app. lia.
    - rewrite E2. destruct (truthy (nextToken result));
        [rewrite page_of_app by lia|]; now rewrite R. }
  assert (Hacc : account fetchMain seed total0 w' (S n)).
  { unfold account. split; [rewrite E3, B; lia|]. split; [|split; [|split]].
    - rewrite E2, S0. destruct (truthy (nextToken result)); eauto.
      exists (rest ++ [nextToken result]). reflexivity.
    - rewrite E2. destruct (truthy (nextToken result)) eqn:Tn; [|exact O].
      apply (in_page_order_snoc _ _ n); auto. now rewrite R.
    - rewrite Hpages, map_app, filter_app, <- P, E4. cbn [map filter].
      unfold nonempty at 1.
      destruct (0 <? List.length (comments result))%nat;
        [reflexivity|now rewrite app_nil_r].
    - rewrite E5, E4, T. unfold nonempty.
      destruct (0 <? List.length (comments result))%nat; [|reflexivity].
      rewrite concat_app, length_app. cbn [List.concat].
      rewrite app_nil_r. lia. }
  split; [exact Hacc|]. split.
  - rewrite E2. destruct (truthy (nextToken result));
      [rewrite length_app; cbn; lia|lia].
  - intros r Hr. destruct (truthy (nextToken result)) eqn:Tn; [|discriminate].
    inversion Hr. rewrite E2. unfold page_of.
    rewrite app_nth2 by lia. rewrite L, Nat.sub_diag. reflexivity.
Qed.

Lemma loop_account (seed : value) (total0 : Z) (fuel : nat) :
  forall w cur n,
    account fetchMain seed total0 w n ->
    List.length (fetched w)
    = (n + match cur with Some _ => 1 | None => 0 end)%nat ->
    (forall r, cur = Some r -> r = page_of fetchMain (fetched w) n) ->
    exists n',
      account fetchMain seed total0 (fst (loop fetchMain fuel w cur)) n' /\
      (n' <= List.length (fetched (fst (loop fetchMain fuel w cur))) <= S n')%nat /\
      (snd (loop fetchMain fuel w cur) = NoNextToken ->
       List.length (fetched (fst (loop fetchMain fuel w cur))) = n').
Proof.
  induction fuel as [|fuel IH]; intros w cur n A L C.
  - destruct cur; cbn in *; exists n; (split; [exact A|]);
      (split; [lia|]); intros E; [discriminate|lia].
  - destruct cur as [result|]; cbn [loop].
    + destruct (turn_account seed total0 w n result A) as (A' & L' & C');
        [lia|now apply C|].
      destruct (turn fetchMain w result) as [np w'] eqn:T.
      cbn [fst snd] in A', L', C'.
      destruct (batchNumber w' >? ceiling)%Z; cbn [fst snd].
      * exists (S n). split; [exact A'|]. split.
        -- destruct np; lia.
        -- discriminate.
      * apply (IH w' np (S n)); assumption.
    + cbn. exists n. split; [exact A|]. split; lia.
Qed.

Lemma walk_account (token : value) (total0 : Z) :
  exists n,
    account fetchMain token total0 (fst (walk fetchMain token total0)) n /\
    (n <= List.length (fetched (fst (walk fetchMain token total0))) <= S n)%nat /\
    (snd (walk fetchMain token total0) = NoNextToken ->
     List.length (fetched (fst (walk fetchMain token total0))) = n).
Proof.
  unfold walk, start_fetch.
  apply (loop_account token total0 _ _ _ 0%nat).
  - unfold account, init; cbn. split; [reflexivity|]. split; [now exists []|].
    split; [intros k Hk; cbn in Hk; lia|]. split; [reflexivity|lia].
  - reflexivity.
  - intros r Hr. inversion Hr. reflexivity.
Qed.

End WithHost.

(** X4.  Pages are requested strictly in order.  The first main fetch
    asks for the token the walk was started with, and every later one
    asks for the next token returned by the fetch before it, which was
    not empty: no page is skipped and none is requested out of turn. *)
Theorem pages_requested_in_order `{Host} (fetchMain : nat -> value -> batch)
    (token : value) (total0 : Z) :
  (exists rest, fetched (fst (walk fetchMain token total0)) = token :: rest) /\
  (forall k,
      (S k < List.length (fetched (fst (walk fetchMain token total0))))%nat ->
      nth (S k) (fetched (fst (walk fetchMain token total0))) VUndef
      = nextToken
          (fetchMain k
             (nth k (fetched (fst (walk fetchMain token total0))) VUndef)) /\
      truthy (nth (S k) (fetched (fst (walk fetchMain token total0))) VUndef)
      = true).
Proof.
  destruct (walk_account fetchMain token total0) as (n & (_ & S0 & O & _) & _).
  split; [exact S0|exact O].
Qed.

(** On the sample chain of two pages the second fetch asks for the
    token of the first page. *)
Lemma pages_requested_in_order_witness :
  nth 1 (fetched (fst (walk (chain short_chain) (VStr "T0") 0))) VUndef
  = VStr "T1".
Proof.
  destruct (pages_requested_in_order (chain short_chain) (VStr "T0") 0)
    as (_ & O).
  destruct (O 0%nat) as (E & _).
  - vm_compute. lia.
  - rewrite E. vm_compute. reflexivity.
Defined.

(** X5.  Every record of every processed page is handed to the sink
    exactly once.  The batches the loop itself hands to
    [saveCommentBatch] (the writes of the reply tasks apart) are the
    comment lists of the processed pages, in page order, the empty ones
    left out; [totalFetched] is the initial count plus the number of
    records of those pages; and when the walk ends for want of a next
    token, every page that was fetched has been processed. *)
Theorem every_page_written_once `{Host} (fetchMain : nat -> value -> batch)
    (token : value) (total0 : Z) :
  pendingWrites (fst (walk fetchMain token total0))
  = filter nonempty
      (map comments
           (pages_processed fetchMain (fst (walk fetchMain token total0)))) /\
  List.concat (pendingWrites (fst (walk fetchMain token total0)))
  = flat_map comments
      (pages_processed fetchMain (fst (walk fetchMain token total0))) /\
  totalFetched (fst (walk fetchMain token total0))
  = (total0
     + Z.of_nat
         (List.length
            (flat_map comments
               (pages_processed fetchMain
                  (fst (walk fetchMain token total0))))))%Z /\
  (snd (walk fetchMain token total0) = NoNextToken ->
   List.length (pages_processed fetchMain (fst (walk fetchMain token total0)))
   = List.length (fetched (fst (walk fetchMain token total0)))).
Proof.
  destruct (walk_account fetchMain token total0)
    as (n & (B & _ & _ & P & T) & _ & E).
  set (st := fst (walk fetchMain token total0)) in *.
  assert (Hn : Z.to_nat (batchNumber st - 1) = n) by lia.
  unfold pages_processed. rewrite Hn.
  assert (Hc : List.concat (pendingWrites st)
               = flat_map comments
                   (map (page_of fetchMain (fetched st)) (seq 0 n))).
  { rewrite P, concat_nonempty, flat_map_concat_map. reflexivity. }
  split; [exact P|]. split; [exact Hc|]. split.
  - rewrite T, Hc. reflexivity.
  - intros Hstop. rewrite length_map, length_seq. symmetry. now apply E.
Qed.

(** The sample chain ends for want of a next token, both pages having
    been processed. *)
Lemma every_page_written_once_witness :
  List.length
    (pages_processed (chain short_chain)
                     (fst (walk (chain short_chain) (VStr "T0") 0)))
  = 2%nat.
Proof.
  destruct (every_page_written_once (chain short_chain) (VStr "T0") 0)
    as (_ & _ & _ & E).
  rewrite E; vm_compute; reflexivity.
Defined.

End WalkerExtras.

(** ** What the sink keeps *)

Module SinkExtras.
Import Sink Fallback Spec Samples SinkFacts.

Lemma present_lookup (s : store) (k : value) :
  present s k = true <-> exists c, lookup s k = Some c.
Proof.
  unfold present, lookup. induction s as [|c rest IH]; cbn.
  - split; [discriminate|intros (c & E); discriminate].
  - destruct (key_eqb (id c) k); cbn; [|exact IH].
    split; [now exists c|reflexivity].
Qed.

Lemma lookup_put_persists (s : store) (c : comment) (k : value) :
  present s k = true -> present (put s c) k = true.
Proof.
  rewrite !present_lookup. intros (x & E). rewrite lookup_put.
  destruct (key_eqb (id c) k); eauto.
Qed.

Lemma put_length (s : store) (c : comment) :
  (List.length s <= List.length (put s c))%nat.
Proof.
  induction s as [|c' rest IH]; cbn; [lia|].
  destruct (key_eqb (id c') (id c)); cbn; lia.
Qed.

Lemma fold_put_persists (ps : list comment) :
  forall s k,
    (present s k = true -> present (fold_left put ps s) k = true) /\
    (List.length s <= List.length (fold_left put ps s))%nat.
Proof.
  induction ps as [|c rest IH]; intros s k; cbn; [split; [auto|lia]|].
  destruct (IH (put s c) k) as [P L]. split.
  - intros Hp. apply P. now apply lookup_put_persists.
  - pose proof (put_length s c). lia.
Qed.

(** X6.  Nothing stored is ever lost.  Whatever write transactions
    follow, and whether they complete or fail, an id that is in the store
    stays in the store, and the store never shrinks: between
    [clearCommentStore] and the final read the sink only inserts and
    replaces. *)
Theorem stored_ids_persist (txs : list (list comment * tx_outcome))
    (s : store) (k : value) :
  (present s k = true -> present (run_writes txs s) k = true) /\
  (List.length s <= List.length (run_writes txs s))%nat.
Proof.
  rewrite SinkClaims.run_writes_puts. apply fold_put_persists.
Qed.

(** A record written by a first transaction is still there after a
    second one has failed and a third has written another record. *)
Lemma stored_ids_persist_witness :
  present (run_writes [([record (VStr "b") "two"], TxError);
                       ([record (VStr "c") "three"], TxComplete)]
                      [record (VStr "a") "one"])
          (VStr "a") = true.
Proof.
  apply (stored_ids_persist
           [([record (VStr "b") "two"], TxError);
            ([record (VStr "c") "three"], TxComplete)]
           [record (VStr "a") "one"] (VStr "a")).
  reflexivity.
Defined.











End SinkExtras.

(** ** The emergency scrape and the value returned *)

Module FallbackExtras.
Import Sink Fallback Spec Samples.

(** X8.  What the emergency scrape produces.  It yields one record for
    each rendered thread that has both a text and an author, and no
    other: each is a root comment (not a reply, no parent) with a
    non-empty text, author and like count, and an id made of the prefix
    [scraped-] and one of the random strings drawn during the scrape. *)
Theorem scraped_records_are_roots `{Host} (threads : list dom_thread)
    (rnd : nat) :
  (List.length (scrape threads rnd)
   = List.length
       (filter (fun th => andb (truthy (content_text th))
                               (truthy (author_text th))) threads)) /\
  (forall c,
      In c (scrape threads rnd) ->
      isReply c = VBool false /\ parentId c = VUndef /\
      truthy (text c) = true /\ truthy (author c) = true /\
      truthy (likes c) = true /\
      exists n,
        (rnd <= n < rnd + List.length threads)%nat /\
        id c = VStr ("scraped-" ++ random_id n)).
Proof.
  revert rnd.
  induction threads as [|th rest IH]; intros rnd; cbn [scrape filter].
  - split; [reflexivity|intros c []].
  - destruct (andb (truthy (content_text th)) (truthy (author_text th))) eqn:E.
    + destruct (IH (S rnd)) as [L P]. split; [cbn; now rewrite L|].
      intros c [<-|Hin].
      * apply andb_true_iff in E. destruct E as [E1 E2]. cbn.
        repeat split; auto.
        -- apply ResolverFacts.or_truthy_r. reflexivity.
        -- exists rnd. split; [lia|reflexivity].
      * destruct (P c Hin) as (A & B & C & D & E' & n & Hn & I).
        repeat split; auto. exists n. split; [cbn; lia|exact I].
    + destruct (IH rnd) as [L P]. split; [exact L|].
      intros c Hin.
      destruct (P c Hin) as (A & B & C & D & E' & n & Hn & I).
      repeat split; auto. exists n. split; [cbn; lia|exact I].
Qed.

(** The first record scraped from the sample page. *)
Lemma scraped_records_are_roots_witness :
  isReply (hd (record VUndef EmptyString) (scrape rendered_threads 0))
  = VBool false.
Proof.
  apply (proj2 (scraped_records_are_roots rendered_threads 0)).
  vm_compute. now left.
Defined.

(** X9.  What [extractComments] returns once the writes are drained.
    It returns [null] exactly when the snapshot is empty and the scrape
    found nothing; otherwise it returns a list that is not empty: the
    snapshot alone when that holds a record, scraped records never being
    mixed into harvested ones, and the scraped records when it holds
    none. *)
Theorem extraction_returns_null_or_records `{Host} (snapshot : list comment)
    (domThreads : list dom_thread) (rnd : nat) :
  (returned (finish snapshot domThreads rnd) = None
   <-> snapshot = [] /\ scrape domThreads rnd = []) /\
  (forall l,
      returned (finish snapshot domThreads rnd) = Some l ->
      l <> [] /\
      (snapshot <> [] -> l = snapshot) /\
      (snapshot = [] -> l = scrape domThreads rnd)).
Proof.
  unfold finish. destruct snapshot as [|c rest]; cbn.
  - destruct (scrape domThreads rnd) as [|s ss]; cbn.
    + split; [split; auto|intros l E; discriminate].
    + split; [split; [discriminate|intros [_ E]; discriminate]|].
      intros l E. inversion E. repeat split; try discriminate; congruence.
  - split; [split; [discriminate|intros [E _]; discriminate]|].
    intros l E. inversion E. repeat split; try discriminate; congruence.
Qed.

(** One harvested record: it is returned as it is, although the page has
    rendered threads. *)
Lemma extraction_returns_null_or_records_witness :
  returned (finish [record (VStr "a") "one"] rendered_threads 0)
  = Some [record (VStr "a") "one"].
Proof.
  destruct (extraction_returns_null_or_records
              [record (VStr "a") "one"] rendered_threads 0) as (_ & P).
  destruct (returned (finish [record (VStr "a") "one"] rendered_threads 0))
    as [l|] eqn:E.
  - destruct (P l eq_refl) as (_ & S & _). rewrite S; [reflexivity|discriminate].
  - vm_compute in E. discriminate.
Defined.

End FallbackExtras.

(** ** How the fetchers change the world *)

Module WorldFacts.
Import Resolver Transport Threads MainFetch Spec EntityFacts.

Lemma fetchWithRetry_world (u : string) (b : value) (retries : nat) :
  forall (backoff : Z) (w : World),
  exists n ds,
    (1 <= n <= S retries)%nat /\
    snd (fetchWithRetry u b retries backoff w)
    = mkWorld (net w) (calls w + n) (requests w ++ repeat (mkRequest u b) n)
              (delays w ++ ds) (entityStore w) (apiKey w) (context w).
Proof.
  induction retries as [|r IH]; intros backoff w.
  - exists 1%nat, []. split; [lia|]. cbn [fetchWithRetry fetch].
    rewrite app_nil_r, Nat.add_1_r.
    destruct (net w (calls w)) as [resp|msg]; [destruct (ok resp)|];
      reflexivity.
  - cbn [fetchWithRetry fetch].
    set (w1 := mkWorld (net w) (S (calls w)) (requests w ++ [mkRequest u b])
                       (delays w) (entityStore w) (apiKey w) (context w)).
    assert (Hone : exists n ds,
               (1 <= n <= S (S r))%nat /\
               w1 = mkWorld (net w) (calls w + n)
                            (requests w ++ repeat (mkRequest u b) n)
                            (delays w ++ ds) (entityStore w) (apiKey w)
                            (context w)).
    { exists 1%nat, []. split; [lia|]. subst w1.
      now rewrite app_nil_r, Nat.add_1_r. }
    assert (Hretry : exists n ds,
               (1 <= n <= S (S r))%nat /\
               snd (fetchWithRetry u b r (backoff * 2) (sleep backoff w1))
               = mkWorld (net w) (calls w + n)
                         (requests w ++ repeat (mkRequest u b) n)
                         (delays w ++ ds) (entityStore w) (apiKey w)
                         (context w)).
    { destruct (IH (backoff * 2)%Z (sleep backoff w1)) as (n & ds & Hn & E).
      exists (S n), (backoff :: ds). split; [lia|]. rewrite E. cbn.
      rewrite <- !app_assoc. cbn. f_equal. lia. }
    destruct (net w (calls w)) as [resp|msg]; [destruct (ok resp)|];
      cbn [snd]; assumption.
Qed.

Lemma extends_refl (w : World) : extends w w.
Proof.
  unfold extends. repeat split; auto.
  - exists []. rewrite app_nil_r. cbn. split; [reflexivity|]. split; [lia|constructor].
  - exists []. now rewrite app_nil_r.
Qed.

Lemma extends_trans (w1 w2 w3 : World) :
  extends w1 w2 -> extends w2 w3 -> extends w1 w3.
Proof.
  intros (N1 & K1 & C1 & (rs1 & R1 & L1 & F1) & (ds1 & D1) & S1)
         (N2 & K2 & C2 & (rs2 & R2 & L2 & F2) & (ds2 & D2) & S2).
  unfold extends. split; [congruence|]. split; [congruence|].
  split; [congruence|]. split; [|split].
  - exists (rs1 ++ rs2). rewrite R2, R1, L2, L1, length_app, app_assoc.
    split; [reflexivity|]. split; [lia|].
    apply Forall_app. split; [exact F1|].
    eapply Forall_impl; [|exact F2].
    intros r (A & B & C). unfold page_request. rewrite <- K1, <- C1. auto.
  - exists (ds1 ++ ds2). now rewrite D2, D1, app_assoc.
  - auto.
Qed.

Lemma gf_ret {A} (a : A) (w : World) : grows_from w (ret a).
Proof. intros r w' E. inversion E. apply extends_refl. Qed.

Lemma gf_lift {A} (x : res A) (w : World) : grows_from w (lift x).
Proof. intros r w' E. inversion E. apply extends_refl. Qed.

Lemma gf_out_of_fuel {A} (w : World) : grows_from w (@out_of_fuel A).
Proof. intros r w' E. inversion E. apply extends_refl. Qed.

Lemma gf_bind {A B} (m : M A) (k : A -> M B) (w : World) :
  grows_from w m ->
  (forall a w1, grows_from w1 (k a)) ->
  grows_from w (bind m k).
Proof.
  intros Hm Hk r w' E. unfold bind in E.
  destruct (m w) as [[a| |] w1] eqn:Em.
  - eapply extends_trans; [eapply Hm; eauto|eapply Hk; eauto].
  - inversion E; subst. eapply Hm; eauto.
  - inversion E; subst. eapply Hm; eauto.
Qed.

Lemma gf_get_world {B} (k : World -> M B) (w : World) :
  grows_from w (k w) -> grows_from w (bind get_world k).
Proof. intros Hk r w' E. unfold bind, get_world in E. eapply Hk; eauto. Qed.

Lemma gf_try_catch {A} (m h : M A) (w : World) :
  grows_from w m ->
  (forall w1, grows_from w1 h) ->
  grows_from w (try_catch m h).
Proof.
  intros Hm Hh r w' E. unfold try_catch in E.
  destruct (m w) as [[a| |] w1] eqn:Em.
  - inversion E; subst. eapply Hm; eauto.
  - eapply extends_trans; [eapply Hm; eauto|eapply Hh; eauto].
  - inversion E; subst. eapply Hm; eauto.
Qed.

Lemma gf_foldM {A B} (f : A -> B -> M A) (xs : list B) :
  (forall a x w, grows_from w (f a x)) ->
  forall a w, grows_from w (foldM f xs a).
Proof.
  intros Hf. induction xs as [|x rest IH]; intros a w; cbn [foldM].
  - apply gf_ret.
  - apply gf_bind; auto.
Qed.

(** The transport sends page requests when it is given the page's URL
    and a body built from the page's context. *)
Lemma gf_fetch (w : World) (continuation clickTrackingParams : value) :
  truthy continuation = true ->
  grows_from w
    (fetchWithRetryM (next_url (apiKey w))
                     (request_body (context w) continuation
                                   clickTrackingParams)).
Proof.
  intros T r w' E. unfold fetchWithRetryM, send in E.
  destruct (fetchWithRetry_world
              (next_url (apiKey w))
              (request_body (context w) continuation clickTrackingParams)
              default_retries default_backoff w) as (n & ds & Hn & Ew).
  destruct (fetchWithRetry _ _ _ _ w) as [resp w1]. cbn [snd] in Ew.
  inversion E; subst. unfold extends; cbn.
  repeat split; auto.
  - eexists. split; [reflexivity|]. rewrite repeat_length.
    split; [reflexivity|].
    apply Forall_forall. intros x Hx. apply repeat_spec in Hx. subst x.
    unfold page_request; cbn. auto.
  - now exists ds.
Qed.

Lemma gf_set_merged (fu : value) (w : World) (merged : JSMap.t) :
  mergeEntities fu (entityStore w) = Ret merged ->
  grows_from w (set_store merged).
Proof.
  intros Em r w' E. unfold set_store in E. inversion E; subst.
  unfold extends; cbn. repeat split; auto.
  - exists []. rewrite app_nil_r. cbn. split; [reflexivity|]. split; [lia|constructor].
  - exists []. now rewrite app_nil_r.
  - intros k Hk. unfold mergeEntities, res_bind in Em.
    destruct (parseEntityStore fu) as [newStore| |]; try discriminate.
    inversion Em. rewrite has_set_all, Hk. apply orb_true_r.
Qed.

Lemma gf_merge_updates (data : value) (w : World) :
  grows_from w (merge_updates data).
Proof.
  unfold merge_updates. apply gf_bind; [apply gf_lift|]. intros fu w1.
  destruct (truthy fu); [|apply gf_ret].
  apply gf_get_world. intros r w' E. unfold bind in E.
  destruct (lift (mergeEntities fu (entityStore w1)) w1) as [[merged| |] w2] eqn:El;
    unfold lift in El; inversion El; subst.
  - eapply gf_set_merged; eauto.
  - inversion E; subst. apply extends_refl.
  - inversion E; subst. apply extends_refl.
Qed.

Lemma gf_response_json (r : response) (w : World) :
  grows_from w (response_json r).
Proof. unfold response_json. apply gf_lift. Qed.

Create HintDb gf.
#[export] Hint Resolve gf_ret gf_lift gf_out_of_fuel gf_merge_updates
  gf_response_json : gf.

Ltac gf_step :=
  match goal with
  | |- grows_from _ (bind get_world _) => apply gf_get_world
  | |- grows_from _ (bind _ _) => apply gf_bind; [|intros ? ?]
  | |- grows_from _ (try_catch _ _) => apply gf_try_catch; [|intros ?]
  | |- grows_from _ (foldM _ _ _) => apply gf_foldM; intros ? ? ?
  | |- grows_from _ (if ?c then _ else _) => destruct c eqn:?
  | |- grows_from _ (match ?o with _ => _ end) => destruct o eqn:?
  | |- grows_from _ _ => solve [auto with gf]
  end.

Ltac gf := repeat (cbv beta zeta; gf_step).

Lemma gf_resolve_reply (v p : value) (w : World) :
  grows_from w (resolve_reply v p).
Proof. unfold resolve_reply. gf. Qed.

Lemma gf_push_resolved (a : acc) (v p : value) (w : World) :
  grows_from w (push_resolved a v p).
Proof. unfold push_resolved. gf. apply gf_resolve_reply. Qed.

Lemma gf_push_fetched (a : acc) (fetched : M (option (list comment)))
    (w : World) :
  grows_from w fetched -> grows_from w (push_fetched a fetched).
Proof. intros Hf. unfold push_fetched. gf. Qed.

#[export] Hint Resolve gf_resolve_reply gf_push_resolved gf_push_fetched : gf.

Section Bodies.
Context `{Host}.
Variable pct : value -> nat -> bool -> M acc.
Variable fr : value -> value -> M (option (list comment)).
Hypothesis pct_grows : forall tr d par w, grows_from w (pct tr d par).
Hypothesis fr_grows : forall e p w, grows_from w (fr e p).

Lemma gf_thread_root (tr : value) (w : World) : grows_from w (thread_root tr).
Proof. unfold thread_root. gf. Qed.

Lemma gf_on_token (parallel : bool) (p : value) (a : acc) (token : value)
    (w : World) :
  grows_from w (on_token fr parallel p a token).
Proof. unfold on_token. gf. Qed.

#[local] Hint Resolve gf_thread_root gf_on_token : gf.

Lemma gf_sub_thread_step (root : option comment) (depth : nat)
    (parallel : bool) (a : acc) (sub : value) (w : World) :
  grows_from w (sub_thread_step pct fr root depth parallel a sub).
Proof. unfold sub_thread_step. gf. Qed.

Lemma gf_view_replies_step (rr p : value) (parallel : bool) (a : acc)
    (w : World) :
  grows_from w (view_replies_step fr rr p parallel a).
Proof. unfold view_replies_step. gf. Qed.

Lemma gf_continuation_step (p : value) (parallel : bool) (a : acc)
    (cont : value) (w : World) :
  grows_from w (continuation_step fr p parallel a cont).
Proof. unfold continuation_step. gf. Qed.

Lemma gf_contents_step (p : value) (a : acc) (item : value) (w : World) :
  grows_from w (contents_step fr p a item).
Proof. unfold contents_step. gf. Qed.

#[local] Hint Resolve gf_sub_thread_step gf_view_replies_step
  gf_continuation_step gf_contents_step : gf.

Lemma gf_processCommentThread_body (tr : value) (depth : nat)
    (parallel : bool) (w : World) :
  grows_from w (processCommentThread_body pct fr tr depth parallel).
Proof. unfold processCommentThread_body. gf. Qed.

Lemma gf_reply_item_step (p : value) (collected : list comment)
    (item : value) (w : World) :
  grows_from w (reply_item_step pct fr p collected item).
Proof. unfold reply_item_step. gf. Qed.

#[local] Hint Resolve gf_reply_item_step : gf.

Lemma gf_fetchReplies_body (e p : value) (w : World) :
  grows_from w (fetchReplies_body pct fr e p).
Proof.
  unfold fetchReplies_body. gf.
  apply gf_fetch.
  match goal with
  | Hc : orb _ (orb _ (negb (truthy ?c))) = false |- truthy ?c = true =>
      destruct (truthy c); [reflexivity|];
      now rewrite !orb_true_r in Hc
  end.
Qed.

End Bodies.

Section Fuel.
Context `{Host}.

Lemma gf_fuel (fuel : nat) :
  (forall tr d par w, grows_from w (processCommentThread fuel tr d par)) /\
  (forall e p w, grows_from w (fetchReplies fuel e p)).
Proof.
  induction fuel as [|fuel [IHp IHf]].
  - split; intros; apply gf_out_of_fuel.
  - split.
    + intros tr d par w. cbn [processCommentThread].
      now apply gf_processCommentThread_body.
    + intros e p w. cbn [fetchReplies].
      now apply gf_fetchReplies_body.
Qed.

Lemma gf_main_item_step (fuel : nat) (a : acc) (item : value) (w : World) :
  grows_from w (main_item_step fuel a item).
Proof. unfold main_item_step. gf. apply (proj1 (gf_fuel fuel)). Qed.

Lemma gf_main_action_step (fuel : nat) (a : acc) (action : value)
    (w : World) :
  grows_from w (main_action_step fuel a action).
Proof. unfold main_action_step. gf. apply gf_main_item_step. Qed.

Lemma gf_warn_if_empty (cs : list comment) (actions : value) (w : World) :
  grows_from w (warn_if_empty cs actions).
Proof. unfold warn_if_empty. gf. Qed.

Lemma gf_main_fetch (fuel : nat) (e : value) (w : World) :
  grows_from w (fetchCommentsViaContinuation fuel e).
Proof.
  unfold fetchCommentsViaContinuation. gf;
    try apply gf_main_action_step; try apply gf_warn_if_empty.
  all: apply gf_fetch;
    match goal with
    | Hc : orb _ (orb _ (negb (truthy ?c))) = false |- truthy ?c = true =>
        destruct (truthy c); [reflexivity|];
        now rewrite !orb_true_r in Hc
    end.
Qed.

End Fuel.

End WorldFacts.

Module FetchExtras.
Import Resolver Transport Threads MainFetch Session Spec Samples.
Import TransportFacts WorldFacts.

(** X10.  Retries resend the same request.  Whatever the number of
    retries and the first delay, every attempt of [fetchWithRetry] sends
    the URL and the body it was given, one request per attempt, and the
    call changes nothing else: not the entity store, not the page
    configuration. *)
Theorem retries_resend_the_same_request (u : string) (b : value)
    (retries : nat) (backoff : Z) (w : World) :
  requests (snd (fetchWithRetry u b retries backoff w))
  = requests w
    ++ repeat (mkRequest u b)
              (attempts w (snd (fetchWithRetry u b retries backoff w))) /\
  (1 <= attempts w (snd (fetchWithRetry u b retries backoff w))
   <= S retries)%nat /\
  entityStore (snd (fetchWithRetry u b retries backoff w)) = entityStore w /\
  apiKey (snd (fetchWithRetry u b retries backoff w)) = apiKey w /\
  context (snd (fetchWithRetry u b retries backoff w)) = context w.
Proof.
  destruct (fetchWithRetry_world u b retries backoff w) as (n & ds & Hn & E).
  rewrite E. unfold attempts. cbn.
  replace (calls w + n - calls w)%nat with n by lia.
  repeat split; auto; lia.
Qed.

(** X11.  The fetchers only extend the world.  Whatever its outcome
    (a result, an exception or an exhausted budget), a call of
    [processCommentThread], [fetchReplies] or
    [fetchCommentsViaContinuation] leaves the page configuration as it
    is, logs exactly one request per [fetch] call, each of them a request
    to the page's [next] endpoint that carries the page's context and a
    continuation that is not empty, and removes no key from the entity
    store. *)
Theorem fetchers_only_extend_the_world `{Host} (fuel : nat) :
  (forall tr d par w r w',
      processCommentThread fuel tr d par w = (r, w') -> extends w w') /\
  (forall e p w r w',
      fetchReplies fuel e p w = (r, w') -> extends w w') /\
  (forall e w r w',
      fetchCommentsViaContinuation fuel e w = (r, w') -> extends w w').
Proof.
  split; [|split].
  - intros tr d par w. apply (proj1 (gf_fuel fuel)).
  - intros e p w. apply (proj2 (gf_fuel fuel)).
  - intros e w. apply gf_main_fetch.
Qed.

(** On the sample page whose thread announces its replies, the main
    fetch extends the world. *)
Lemma fetchers_only_extend_the_world_witness :
  extends replies_world
          (snd (fetchCommentsViaContinuation 5 (VStr "T0") replies_world)).
Proof.
  destruct (fetchCommentsViaContinuation 5 (VStr "T0") replies_world)
    as [r w'] eqn:E.
  exact (proj2 (proj2 (fetchers_only_extend_the_world 5)) _ _ _ _ E).
Defined.

(** X12.  No configuration or no token, no request.  When the page has
    no API key or no context, both fetchers return their failure value
    (the empty batch, [null]) and leave the world as it is; so does
    [fetchReplies] for every endpoint that is a bare string, such an
    endpoint having no [continuationCommand], and the task queued for
    such a token writes nothing. *)
Theorem no_request_without_config_or_token `{Host} (fuel : nat) (w : World) :
  (truthy (apiKey w) = false \/ truthy (context w) = false ->
   (forall e, fetchCommentsViaContinuation fuel e w = (Ret empty_batch, w)) /\
   (forall e p, fetchReplies (S fuel) e p w = (Ret None, w))) /\
  (forall s p, fetchReplies (S fuel) (VStr s) p w = (Ret None, w)) /\
  (forall s p, reply_task (S fuel) (mkDescriptor (VStr s) p) w = (Ret None, w)).
Proof.
  assert (Hstr : forall s p, fetchReplies (S fuel) (VStr s) p w = (Ret None, w)).
  { intros s p. cbn [fetchReplies].
    unfold fetchReplies_body, try_catch, bind, get_world.
    change (opt_path ["continuationCommand"; "token"] (VStr s)) with VUndef.
    cbn [truthy negb]. rewrite !orb_true_r. reflexivity. }
  split; [|split; [exact Hstr|]].
  - intros Hcfg.
    assert (Hc : forall c, orb (negb (truthy (apiKey w)))
                               (orb (negb (truthy (context w))) c) = true).
    { intros c. destruct Hcfg as [E|E]; rewrite E; cbn;
        [reflexivity|apply orb_true_r]. }
    split.
    + intros e. unfold fetchCommentsViaContinuation, try_catch, bind, get_world.
      now rewrite Hc.
    + intros e p. cbn [fetchReplies].
      unfold fetchReplies_body, try_catch, bind, get_world. now rewrite Hc.
  - intros s p. unfold reply_task, try_catch, bind. cbn [d_token d_parentId].
    now rewrite Hstr.
Qed.

(** On a page without configuration nothing is requested. *)
Lemma no_request_without_config_or_token_witness :
  fetchCommentsViaContinuation 5 (VStr "T0") down_world
  = (Ret empty_batch, down_world).
Proof.
  apply (proj1 (no_request_without_config_or_token 5 down_world)).
  left. reflexivity.
Defined.

Lemma send_all_fail (u : string) (b : value) (w : World) :
  (forall i, (i < 6)%nat -> failed (net w (calls w + i)%nat) = true) ->
  exists w',
    send u b w = (sentinel, w') /\ calls w' = (calls w + 6)%nat /\
    entityStore w' = entityStore w.
Proof.
  intros Hall. exists (snd (send u b w)). unfold send, default_retries,
    default_backoff.
  destruct (fetchWithRetry_run u b 5 1000 w)
    as (n & Hn & Hc & _ & _ & _ & Hlast).
  destruct (fetchWithRetry_world u b 5 1000 w) as (n' & ds & _ & E).
  destruct Hlast as [[H1 H2]|(H1 & H2 & H3)].
  - assert (Hlt : (n - 1 < 6)%nat) by lia.
    specialize (Hall _ Hlt). rewrite H1 in Hall. unfold failed in Hall.
    rewrite H2 in Hall. discriminate.
  - split; [|split].
    + rewrite (surjective_pairing (fetchWithRetry u b 5 1000 w)).
      now rewrite H3.
    + rewrite Hc. lia.
    + now rewrite E.
Qed.

(** X13.  A fetch that fails gives the failure value.  On a configured
    page, when the six attempts of the transport all fail, the main fetch
    returns the empty batch without a next token and the reply fetch
    returns [null]; six requests have been made and the entity store is
    as it was. *)
Theorem failed_fetch_gives_failure_value `{Host} (fuel : nat) (t : string)
    (p : value) (w : World) :
  truthy (apiKey w) = true ->
  truthy (context w) = true ->
  t <> EmptyString ->
  (forall i, (i < 6)%nat -> failed (net w (calls w + i)%nat) = true) ->
  (exists w',
      fetchCommentsViaContinuation fuel (VStr t) w = (Ret empty_batch, w') /\
      calls w' = (calls w + 6)%nat /\ entityStore w' = entityStore w) /\
  (exists w',
      fetchReplies (S fuel) (reply_endpoint t) p w = (Ret None, w') /\
      calls w' = (calls w + 6)%nat /\ entityStore w' = entityStore w).
Proof.
  intros Hk Hc Ht Hall.
  assert (Tt : truthy (VStr t) = true).
  { cbn. apply negb_true_iff. now apply String.eqb_neq. }
  split.
  - destruct (send_all_fail (next_url (apiKey w))
                (request_body (context w) (VStr t) VNull) w Hall)
      as (w' & Es & Ec & Ee).
    exists w'. split; [|split; assumption].
    unfold fetchCommentsViaContinuation, try_catch, bind, get_world,
      fetchWithRetryM.
    rewrite Hk, Hc, Tt. cbn [negb orb]. rewrite Es. reflexivity.
  - destruct (send_all_fail (next_url (apiKey w))
                (request_body (context w) (VStr t) VUndef) w Hall)
      as (w' & Es & Ec & Ee).
    exists w'. split; [|split; assumption].
    cbn [fetchReplies].
    unfold fetchReplies_body, try_catch, bind, get_world, fetchWithRetryM.
    change (opt_path ["continuationCommand"; "token"] (reply_endpoint t))
      with (VStr t).
    change (or_ (opt_path ["continuationCommand"; "clickTrackingParams"]
                          (reply_endpoint t))
                (opt_path ["clickTrackingParams"] (reply_endpoint t)))
      with VUndef.
    rewrite Hk, Hc, Tt. cbn [negb orb]. rewrite Es. reflexivity.
Qed.

(** A configured page whose network is down. *)
Lemma failed_fetch_gives_failure_value_witness :
  exists w',
    fetchCommentsViaContinuation 5 (VStr "T0") (scripted_world [])
    = (Ret empty_batch, w') /\
    calls w' = 6%nat.
Proof.
  destruct (failed_fetch_gives_failure_value 5 "T0" VUndef (scripted_world []))
    as ((w' & E & C & _) & _).
  - reflexivity.
  - reflexivity.
  - discriminate.
  - intros i Hi. cbn. now destruct i.
  - exists w'. split; [exact E|exact C].
Defined.

Lemma bind_ret_eq {A B} (m : M A) (k : A -> M B) (w w1 : World) (a : A) :
  m w = (Ret a, w1) -> bind m k w = k a w1.
Proof. unfold bind. now intros ->. Qed.

Lemma bind_throw_eq {A B} (m : M A) (k : A -> M B) (w w1 : World) :
  m w = (Throw, w1) -> bind m k w = (Throw, w1).
Proof. unfold bind. now intros ->. Qed.

Lemma try_catch_throw_eq {A} (m : M A) (a : A) (w w1 : World) :
  m w = (Throw, w1) -> try_catch m (ret a) w = (Ret a, w1).
Proof. unfold try_catch. now intros ->. Qed.

Lemma send_first_ok (u : string) (b : value) (w : World) (resp : response) :
  net w (calls w) = Responded resp -> ok resp = true ->
  send u b w = (resp, snd (fetch u b w)).
Proof.
  intros Hn Ho. unfold send, default_retries. cbn [fetchWithRetry].
  unfold fetch at 1 2 3. rewrite Hn, Ho. reflexivity.
Qed.

Lemma fold_res_no_fuel {A B} (f : A -> B -> res A) (xs : list B) :
  (forall a x, f a x <> Fuel) -> forall acc, fold_res f xs acc <> Fuel.
Proof.
  intros Hf. induction xs as [|x rest IH]; intros acc; cbn; [discriminate|].
  specialize (Hf acc x). destruct (f acc x); cbn; try congruence; apply IH.
Qed.

Lemma iterate_no_fuel (v : value) : iterate v <> Fuel.
Proof. destruct v; discriminate. Qed.

Lemma parse_mutation_no_fuel (a : JSMap.t) (x : value) :
  parse_mutation a x <> Fuel.
Proof.
  unfold parse_mutation, member_of.
  destruct (nullish x); cbn [res_bind]; [discriminate|].
  destruct (truthy (prop "payload" x)); [|discriminate].
  destruct (truthy (prop "commentEntityPayload" (prop "payload" x)));
    discriminate.
Qed.

Lemma mergeEntities_no_fuel (fu : value) (st : JSMap.t) :
  mergeEntities fu st <> Fuel.
Proof.
  unfold mergeEntities, parseEntityStore.
  destruct (truthy (opt_path ["entityBatchUpdate"; "mutations"] fu));
    cbn [res_bind]; [|discriminate].
  assert (I := iterate_no_fuel (opt_path ["entityBatchUpdate"; "mutations"] fu)).
  destruct (iterate (opt_path ["entityBatchUpdate"; "mutations"] fu))
    as [ms| |]; cbn [res_bind]; try congruence.
  assert (N := fold_res_no_fuel parse_mutation ms parse_mutation_no_fuel
                                JSMap.empty).
  destruct (fold_res parse_mutation ms JSMap.empty); cbn [res_bind];
    congruence.
Qed.

(** Merging the updates of a response returns or raises, and touches
    nothing but the entity store. *)
Lemma merge_updates_outcome (data : value) (w : World) :
  exists w', calls w' = calls w /\
             (merge_updates data w = (Ret tt, w') \/
              merge_updates data w = (Throw, w')).
Proof.
  unfold merge_updates, bind, lift, member_of, get_world, set_store.
  destruct (nullish data); [exists w; auto|].
  destruct (truthy (prop "frameworkUpdates" data)); [|exists w; auto].
  assert (N := mergeEntities_no_fuel (prop "frameworkUpdates" data)
                                     (entityStore w)).
  destruct (mergeEntities _ _) as [m| |]; try congruence.
  - eexists. split; [|left; reflexivity]. reflexivity.
  - exists w. auto.
Qed.

Lemma action_items_of_char (c : ascii) :
  action_items (VStr (String c EmptyString)) = Ret VUndef.
Proof. reflexivity. Qed.

Lemma main_actions_of_chars `{Host} (fuel : nat) (s : string) (a : acc)
    (w : World) :
  foldM (main_action_step fuel) (chars s) a w = (Ret a, w).
Proof.
  induction s as [|c rest IH]; cbn [chars foldM]; [reflexivity|].
  unfold bind at 1. unfold main_action_step at 1.
  rewrite action_items_of_char. unfold bind at 1, lift. cbn [truthy].
  unfold ret at 1. exact IH.
Qed.

(** X14.  A response the fetchers cannot read gives the failure value.
    On a configured page whose first attempt is answered with an [ok]
    response: when the body cannot be parsed, or is [null], or carries an
    [onResponseReceivedEndpoints] that is there but is neither a list
    nor a string, the exception raised is caught, the main fetch
    returns the empty batch without a next token and the reply fetch
    returns [null], one request having been sent.  The main fetch does
    the same when [onResponseReceivedEndpoints] is a string that is not
    empty: no comment is found in it, and logging the actions of the
    empty batch raises. *)
Theorem unreadable_response_gives_failure_value `{Host} (fuel : nat)
    (t : string) (p : value) (w : World) (resp : response) :
  truthy (apiKey w) = true ->
  truthy (context w) = true ->
  t <> EmptyString ->
  net w (calls w) = Responded resp ->
  ok resp = true ->
  (unreadable (json resp) = true ->
   (exists w', fetchCommentsViaContinuation fuel (VStr t) w
               = (Ret empty_batch, w') /\ calls w' = S (calls w)) /\
   (exists w', fetchReplies (S fuel) (reply_endpoint t) p w = (Ret None, w') /\
               calls w' = S (calls w))) /\
  (forall data s,
      json resp = Some data -> s <> EmptyString ->
      prop "onResponseReceivedEndpoints" data = VStr s ->
      exists w', fetchCommentsViaContinuation fuel (VStr t) w
                 = (Ret empty_batch, w') /\ calls w' = S (calls w)).
Proof.
  intros Hk Hc Ht Hn Ho.
  assert (Tt : truthy (VStr t) = true).
  { cbn. apply negb_true_iff. now apply String.eqb_neq. }
  set (w1m := snd (fetch (next_url (apiKey w))
                         (request_body (context w) (VStr t) VNull) w)).
  set (w1r := snd (fetch (next_url (apiKey w))
                         (request_body (context w) (VStr t) VUndef) w)).
  assert (C1m : calls w1m = S (calls w)) by reflexivity.
  assert (C1r : calls w1r = S (calls w)) by reflexivity.
  assert (Em : forall r w',
             (data <- response_json resp ;;
              merge_updates data ;;;
              let actions := prop "onResponseReceivedEndpoints" data in
              a <- (if truthy actions then
                      acts <- lift (iterate actions) ;;
                      foldM (main_action_step fuel) acts ([], [])
                    else ret ([], [])) ;;
              let nextToken := next_token_of (extractNextContinuation data) in
              warn_if_empty (fst a) actions ;;;
              ret (mkBatch (fst a) nextToken (Some (snd a)))) w1m = (r, w') ->
             fetchCommentsViaContinuation fuel (VStr t) w
             = match r with
               | Throw => (Ret empty_batch, w')
               | _ => (r, w')
               end).
  { intros r w' E. unfold fetchCommentsViaContinuation.
    unfold try_catch. unfold bind at 1. unfold get_world at 1.
    rewrite Hk, Hc, Tt. cbn [negb orb].
    unfold bind at 1. unfold fetchWithRetryM at 1.
    rewrite (send_first_ok _ _ w resp Hn Ho). fold w1m.
    rewrite Ho. cbn [negb]. cbv zeta in E |- *. rewrite E. now destruct r. }
  assert (Er : forall r w',
             (data <- response_json resp ;;
              merge_updates data ;;;
              let actions := prop "onResponseReceivedEndpoints" data in
              if truthy actions then
                acts <- lift (iterate actions) ;;
                allTargetItems <- lift (all_target_items acts) ;;
                collected <- foldM (reply_item_step
                                      (processCommentThread fuel)
                                      (fetchReplies fuel) p)
                                   allTargetItems [] ;;
                ret (Some collected)
              else ret (Some [])) w1r = (r, w') ->
             fetchReplies (S fuel) (reply_endpoint t) p w
             = match r with
               | Throw => (Ret None, w')
               | _ => (r, w')
               end).
  { intros r w' E. cbn [fetchReplies]. unfold fetchReplies_body.
    unfold try_catch. unfold bind at 1. unfold get_world at 1.
    change (opt_path ["continuationCommand"; "token"] (reply_endpoint t))
      with (VStr t).
    change (or_ (opt_path ["continuationCommand"; "clickTrackingParams"]
                          (reply_endpoint t))
                (opt_path ["clickTrackingParams"] (reply_endpoint t)))
      with VUndef.
    rewrite Hk, Hc, Tt. cbn [negb orb].
    unfold bind at 1. unfold fetchWithRetryM at 1.
    rewrite (send_first_ok _ _ w resp Hn Ho). fold w1r.
    rewrite Ho. cbn [negb]. cbv zeta in E |- *. rewrite E. now destruct r. }
  split.
  - intros U. unfold unreadable in U.
    destruct (json resp) as [data|] eqn:J.
    + apply orb_true_iff in U. destruct U as [U|U].
      * assert (Mu : forall w0, merge_updates data w0 = (Throw, w0)).
        { intros w0. unfold merge_updates, bind, lift, member_of.
          now rewrite U. }
        split.
        -- exists w1m. split; [|exact C1m].
           rewrite (Em Throw w1m); [reflexivity|].
           unfold response_json. rewrite J.
           erewrite bind_ret_eq by reflexivity.
           erewrite bind_throw_eq by apply Mu. reflexivity.
        -- exists w1r. split; [|exact C1r].
           rewrite (Er Throw w1r); [reflexivity|].
           unfold response_json. rewrite J.
           erewrite bind_ret_eq by reflexivity.
           erewrite bind_throw_eq by apply Mu. reflexivity.
      * apply andb_true_iff in U. destruct U as [Ta Ni].
        assert (It : iterate (prop "onResponseReceivedEndpoints" data) = Throw).
        { destruct (prop "onResponseReceivedEndpoints" data);
            try reflexivity; discriminate. }
        split.
        -- destruct (merge_updates_outcome data w1m) as (w2 & C2 & [Mu|Mu]);
             exists w2; (split; [|now rewrite C2]);
             rewrite (Em Throw w2); try reflexivity;
             unfold response_json; rewrite J;
             erewrite bind_ret_eq by reflexivity.
           ++ erewrite bind_ret_eq by exact Mu. cbv zeta. rewrite Ta, It.
              reflexivity.
           ++ erewrite bind_throw_eq by exact Mu. reflexivity.
        -- destruct (merge_updates_outcome data w1r) as (w2 & C2 & [Mu|Mu]);
             exists w2; (split; [|now rewrite C2]);
             rewrite (Er Throw w2); try reflexivity;
             unfold response_json; rewrite J;
             erewrite bind_ret_eq by reflexivity.
           ++ erewrite bind_ret_eq by exact Mu. cbv zeta. rewrite Ta, It.
              reflexivity.
           ++ erewrite bind_throw_eq by exact Mu. reflexivity.
    + split.
      * exists w1m. split; [|exact C1m].
        rewrite (Em Throw w1m); [reflexivity|].
        unfold response_json. rewrite J. reflexivity.
      * exists w1r. split; [|exact C1r].
        rewrite (Er Throw w1r); [reflexivity|].
        unfold response_json. rewrite J. reflexivity.
  - intros data s J Hs Ea.
    assert (Ts : truthy (VStr s) = true).
    { cbn. apply negb_true_iff. now apply String.eqb_neq. }
    destruct (merge_updates_outcome data w1m) as (w2 & C2 & [Mu|Mu]);
      exists w2; (split; [|now rewrite C2]);
      rewrite (Em Throw w2); try reflexivity;
      unfold response_json; rewrite J;
      erewrite bind_ret_eq by reflexivity.
    + erewrite bind_ret_eq by exact Mu. cbv zeta. rewrite Ea, Ts.
      cbn [iterate]. unfold bind at 2. unfold lift at 1.
      erewrite bind_ret_eq by apply main_actions_of_chars.
      cbn [fst]. unfold warn_if_empty. cbn [List.length Nat.eqb].
      rewrite Ts. reflexivity.
    + erewrite bind_throw_eq by exact Mu. reflexivity.
Qed.

(** A page whose actions are a number, and a page whose actions are a
    string. *)
Lemma unreadable_response_gives_failure_value_witness :
  fst (fetchCommentsViaContinuation
         5 (VStr "T0")
         (scripted_world [VObj [("onResponseReceivedEndpoints", VNum 1)]]))
  = Ret empty_batch /\
  fst (fetchCommentsViaContinuation
         5 (VStr "T0")
         (scripted_world [VObj [("onResponseReceivedEndpoints", VStr "x")]]))
  = Ret empty_batch.
Proof.
  assert (N : forall a b : ascii, String a (String b EmptyString) <> EmptyString)
    by discriminate.
  assert (N1 : forall a : ascii, String a EmptyString <> EmptyString)
    by discriminate.
  split.
  - destruct (unreadable_response_gives_failure_value
                5 "T0" VUndef
                (scripted_world [VObj [("onResponseReceivedEndpoints", VNum 1)]])
                (mkResponse true 200
                   (Some (VObj [("onResponseReceivedEndpoints", VNum 1)])))
                eq_refl eq_refl (N _ _) eq_refl eq_refl)
      as (U & _).
    destruct (U eq_refl) as ((w' & E & _) & _). now rewrite E.
  - destruct (unreadable_response_gives_failure_value
                5 "T0" VUndef
                (scripted_world [VObj [("onResponseReceivedEndpoints", VStr "x")]])
                (mkResponse true 200
                   (Some (VObj [("onResponseReceivedEndpoints", VStr "x")])))
                eq_refl eq_refl (N _ _) eq_refl eq_refl)
      as (_ & S).
    destruct (S (VObj [("onResponseReceivedEndpoints", VStr "x")]) "x"
                eq_refl (N1 _) eq_refl) as (w' & E & _).
    now rewrite E.
Defined.

End FetchExtras.

Module PaginationExtras.
Import Resolver Transport Threads MainFetch Session Spec Samples.
Import TransportFacts WorldFacts.

Lemma extends_requests (w w' : World) :
  extends w w' -> exists rs, requests w' = requests w ++ rs.
Proof. intros (_ & _ & _ & (rs & R & _) & _). now exists rs. Qed.

(** X15.  The next page is asked for with the token extracted from the
    page before.  The object returned as [nextToken] for an extracted
    token and click-tracking value is read back by
    [fetchCommentsViaContinuation] as that token and that value: on a
    configured page, the first request the next fetch sends carries
    them. *)
Theorem next_page_request_carries_extracted_token `{Host} (fuel : nat)
    (token ctp : value) (w : World) :
  truthy (apiKey w) = true ->
  truthy (context w) = true ->
  truthy token = true ->
  exists rest,
    requests (snd (fetchCommentsViaContinuation
                     fuel (next_token_of (token, ctp)) w))
    = requests w
      ++ mkRequest (next_url (apiKey w)) (request_body (context w) token ctp)
         :: rest.
Proof.
  intros Hk Hc Ht.
  unfold fetchCommentsViaContinuation, next_token_of. cbn [fst snd].
  rewrite Ht.
  set (e := VObj [("token", token); ("clickTrackingParams", ctp);
                  ("continuationCommand",
                   VObj [("token", token); ("clickTrackingParams", ctp)])]).
  assert (E1 : or_ (opt_path ["continuationCommand"; "token"] e)
                   (opt_path ["token"] e) = token).
  { change (opt_path ["continuationCommand"; "token"] e) with token.
    unfold or_. now rewrite Ht. }
  assert (E2 : or_ (opt_path ["continuationCommand"; "clickTrackingParams"] e)
                   (opt_path ["clickTrackingParams"] e) = ctp).
  { change (opt_path ["continuationCommand"; "clickTrackingParams"] e)
      with ctp.
    change (opt_path ["clickTrackingParams"] e) with ctp.
    unfold or_. now destruct (truthy ctp). }
  unfold try_catch at 1. unfold bind at 1. unfold get_world at 1.
  cbv zeta. change (match e with VStr _ => e | _ => ?x end) with x.
  change (match e with VStr _ => VNull | _ => ?x end) with x.
  rewrite E1, E2, Hk, Hc, Ht. cbn [negb orb].
  set (req := mkRequest (next_url (apiKey w))
                        (request_body (context w) token ctp)).
  unfold bind at 1. unfold fetchWithRetryM at 1. unfold send.
  destruct (fetchWithRetry_world (next_url (apiKey w))
              (request_body (context w) token ctp)
              default_retries default_backoff w) as (n & ds & Hn & Ew).
  destruct (fetchWithRetry (next_url (apiKey w))
              (request_body (context w) token ctp)
              default_retries default_backoff w) as [resp w1] eqn:Ef.
  cbn [snd] in Ew.
  assert (R1 : requests w1 = requests w ++ req :: repeat req (n - 1)).
  { rewrite Ew. cbn [requests]. destruct n as [|n]; [lia|].
    cbn [repeat]. now replace (S n - 1)%nat with n by lia. }
  match goal with
  | |- context [match ?m w1 with _ => _ end] =>
      assert (G : grows_from w1 m)
  end.
  { gf; auto using gf_main_action_step, gf_warn_if_empty. }
  match type of G with
  | grows_from _ ?m => destruct (m w1) as [[b| |] w2] eqn:Em
  end; cbn [snd ret];
    destruct (extends_requests _ _ (G _ _ Em)) as (rs & R2);
    exists (repeat req (n - 1) ++ rs);
    rewrite R2, R1, <- app_assoc; reflexivity.
Qed.

(** The token of the sample page, asked for on a configured page. *)
Lemma next_page_request_carries_extracted_token_witness :
  exists rest,
    requests (snd (fetchCommentsViaContinuation
                     5 (next_token_of (VStr "T2", VStr "ctp"))
                     (scripted_world [])))
    = mkRequest (next_url (VStr "KEY"))
                (request_body (VObj []) (VStr "T2") (VStr "ctp"))
      :: rest.
Proof.
  destruct (next_page_request_carries_extracted_token
              5 (VStr "T2") (VStr "ctp") (scripted_world [])
              eq_refl eq_refl eq_refl) as (rest & E).
  exists rest. exact E.
Defined.

End PaginationExtras.

(** ** The results of a thread *)

Module ThreadExtras.
Import Resolver Threads MainFetch Spec Samples MonadFacts ThreadFacts.

Lemma appends_refl (par : bool) (p : value) (a : acc) : appends par p a a.
Proof.
  unfold appends. split; [|split; [|reflexivity]].
  - exists []. now rewrite app_nil_r.
  - exists []. now rewrite app_nil_r.
Qed.

Lemma appends_trans (par : bool) (p : value) (a b c : acc) :
  appends par p a b -> appends par p b c -> appends par p a c.
Proof.
  intros ((m1 & E1 & F1) & (d1 & G1 & T1) & S1)
         ((m2 & E2 & F2) & (d2 & G2 & T2) & S2).
  unfold appends. split; [|split].
  - exists (m1 ++ m2). rewrite E2, E1, app_assoc. split; [reflexivity|].
    apply Forall_app. now split.
  - exists (d1 ++ d2). rewrite G2, G1, app_assoc. split; [reflexivity|].
    apply Forall_app. now split.
  - intros P. now rewrite S2, S1.
Qed.

Lemma appends_push (par : bool) (p : value) (a : acc) (cs : list comment) :
  Forall (fun c => isReply c = VBool true) cs ->
  appends par p a (push_all a cs).
Proof.
  intros F. unfold appends, push_all; cbn. split; [|split; [|reflexivity]].
  - now exists cs.
  - exists []. now rewrite app_nil_r.
Qed.

Lemma foldM_appends {B} (par : bool) (p : value) (f : acc -> B -> M acc)
    (xs : list B) :
  (forall a x w a' w', f a x w = (Ret a', w') -> appends par p a a') ->
  forall a w a' w', foldM f xs a w = (Ret a', w') -> appends par p a a'.
Proof.
  intros Hf. induction xs as [|x rest IH]; intros a w a' w' E; cbn in E.
  - apply ret_inv in E. destruct E as [<- _]. apply appends_refl.
  - apply bind_ret_inv in E. destruct E as (a1 & w1 & E1 & E2).
    eapply appends_trans; [eapply Hf; eauto|eapply IH; eauto].
Qed.

Lemma reply_of_flagged (p : value) (rs : list comment) :
  Forall (reply_of p) rs -> Forall (fun c => isReply c = VBool true) rs.
Proof. apply Forall_impl. now intros c [R _]. Qed.

Section Bodies.
Context `{Host}.
Variable pct : value -> nat -> bool -> M acc.
Variable fr : value -> value -> M (option (list comment)).

Hypothesis fr_replies :
  forall e p w rs w', fr e p w = (Ret (Some rs), w') -> Forall (reply_of p) rs.

Lemma push_resolved_appends (par : bool) (p : value) (a a' : acc) (v : value)
    (w w' : World) :
  push_resolved a v p w = (Ret a', w') -> appends par p a a'.
Proof.
  intros E. unfold push_resolved in E. inv_ret.
  destruct x as [r|]; inv_ret; [|apply appends_refl].
  apply appends_push. constructor; [|constructor].
  eapply resolve_reply_reply_of; eauto.
Qed.

Lemma push_fetched_appends (par : bool) (p : value) (a a' : acc) (e : value)
    (w w' : World) :
  push_fetched a (fr e p) w = (Ret a', w') -> appends par p a a'.
Proof.
  intros E. unfold push_fetched in E. inv_ret.
  destruct x as [rs|]; inv_ret; [|apply appends_refl].
  apply appends_push. eapply reply_of_flagged, fr_replies; eauto.
Qed.

Lemma on_token_appends (par : bool) (p : value) (a a' : acc) (token : value)
    (w w' : World) :
  truthy token = true ->
  on_token fr par p a token w = (Ret a', w') -> appends par p a a'.
Proof.
  intros T E. unfold on_token in E. destruct par.
  - inv_ret. unfold appends, collect; cbn. split; [|split; [|discriminate]].
    + exists []. now rewrite app_nil_r.
    + eexists. split; [reflexivity|]. constructor; [|constructor]. now split.
  - eapply push_fetched_appends; eauto.
Qed.

Lemma sub_thread_step_appends (root : option comment) (depth : nat)
    (par : bool) (a a' : acc) (sub : value) (w w' : World) :
  sub_thread_step pct fr root depth par a sub w = (Ret a', w') ->
  appends par (root_id root) a a'.
Proof.
  intros E. unfold sub_thread_step in E. inv_ret.
  split_if E.
  { inv_ret. apply appends_push. constructor; [|constructor].
    eapply legacy_reply_reply_of; eauto. }
  split_if E.
  { eapply push_resolved_appends; eauto. }
  split_if E.
  { apply try_catch_inv in E. destruct E as [E|(w1 & _ & E)]; inv_ret.
    - apply appends_push. apply Forall_forall. intros c Hc.
      apply in_map_iff in Hc. destruct Hc as (t & <- & _).
      apply as_nested_is_reply.
    - apply appends_refl. }
  split_if E; [|inv_ret; apply appends_refl].
  split_if E; [|inv_ret; apply appends_refl].
  eapply on_token_appends; eauto.
Qed.

Lemma view_replies_step_appends (rr p : value) (par : bool) (a a' : acc)
    (w w' : World) :
  view_replies_step fr rr p par a w = (Ret a', w') -> appends par p a a'.
Proof.
  intros E. unfold view_replies_step in E.
  split_if E; [|inv_ret; apply appends_refl].
  split_if E; [|inv_ret; apply appends_refl].
  eapply on_token_appends; eauto.
Qed.

Lemma continuation_step_appends (p : value) (par : bool) (a a' : acc)
    (cont : value) (w w' : World) :
  continuation_step fr p par a cont w = (Ret a', w') -> appends par p a a'.
Proof.
  intros E. unfold continuation_step in E. inv_ret.
  split_if E; [|inv_ret; apply appends_refl].
  eapply on_token_appends; eauto.
Qed.

Lemma contents_step_appends (p : value) (par : bool) (a a' : acc)
    (item : value) (w w' : World) :
  contents_step fr p a item w = (Ret a', w') -> appends par p a a'.
Proof.
  intros E. unfold contents_step in E. inv_ret.
  split_if E.
  { eapply push_resolved_appends; eauto. }
  split_if E.
  { eapply push_resolved_appends; eauto. }
  split_if E; [|inv_ret; apply appends_refl].
  split_if E; [|inv_ret; apply appends_refl].
  eapply push_fetched_appends; eauto.
Qed.

Lemma processCommentThread_body_shape (tr : value) (depth : nat)
    (par : bool) (w w' : World) (a : acc) :
  processCommentThread_body pct fr tr depth par w = (Ret a, w') ->
  exists root,
    (forall c, root = Some c -> isReply c = VBool false /\ parentId c = VUndef) /\
    appends par (root_id root)
            (match root with Some c => [c] | None => [] end, []) a.
Proof.
  unfold processCommentThread_body. intros E.
  case_ret; [inv_ret; exists None; split; [discriminate|apply appends_refl]|].
  inv_ret.
  match goal with
  | Hr : thread_root _ _ = (Ret ?root, _) |- _ =>
      exists root; split;
        [intros c ->; eapply thread_root_is_root; eauto|]
  end.
  case_ret; [|inv_ret; apply appends_refl].
  inv_ret.
  case_ret; [|inv_ret; apply appends_refl].
  inv_ret.
  match goal with
  | Hf : foldM (sub_thread_step _ _ _ _ _) _ _ _ = (Ret ?y, _) |- _ =>
      assert (F1 : appends par (root_id x)
                     (match x with Some c => [c] | None => [] end, []) y)
        by (eapply foldM_appends; [|exact Hf];
            intros; eapply sub_thread_step_appends; eauto)
  end.
  match goal with
  | Hf : view_replies_step _ _ _ _ _ _ = (Ret ?y, _) |- _ =>
      assert (F2 : appends par (root_id x)
                     (match x with Some c => [c] | None => [] end, []) y)
        by (eapply appends_trans; [exact F1|];
            eapply view_replies_step_appends; eauto)
  end.
  match goal with
  | Hf : (if truthy (prop "continuations" ?rr) then _ else _) _ = (Ret ?y, _)
    |- _ =>
      assert (F3 : appends par (root_id x)
                     (match x with Some c => [c] | None => [] end, []) y);
        [destruct (truthy (prop "continuations" rr)); inv_ret; [|exact F2]|]
  end.
  { eapply appends_trans; [exact F2|].
    match goal with
    | Hf : foldM _ _ _ _ = (Ret _, _) |- _ =>
        eapply foldM_appends; [|exact Hf];
          intros; eapply continuation_step_appends; eauto
    end. }
  match goal with
  | Hf : (if truthy (prop "contents" _) then _ else _) _ = (Ret _, _) |- _ =>
      destruct (truthy (prop "contents"
                  (opt_path ["commentRepliesRenderer"] (prop "replies" tr))));
      inv_ret; [|exact F3]
  end.
  eapply appends_trans; [exact F3|].
  match goal with
  | Hf : foldM _ _ _ _ = (Ret _, _) |- _ =>
      eapply foldM_appends; [|exact Hf];
        intros; eapply contents_step_appends; eauto
  end.
Qed.

End Bodies.

(** X16.  What a thread yields.  The results of [processCommentThread]
    are the root comment of the thread, if it has one, followed by
    records that are all flagged as replies; the root is the only record
    not flagged, and it has no parent.  Every reply token handed to the
    collector is not empty and is tagged with the id of that root
    ([undefined] when the thread has none); without a collector no token
    is returned. *)
Theorem thread_yields_root_then_replies `{Host} (fuel : nat) (tr : value)
    (d : nat) (par : bool) (w w' : World) (a : acc) :
  processCommentThread fuel tr d par w = (Ret a, w') ->
  exists root replies,
    fst a = match root with Some c => c :: replies | None => replies end /\
    (forall c, root = Some c ->
               isReply c = VBool false /\ parentId c = VUndef) /\
    Forall (fun c => isReply c = VBool true) replies /\
    Forall (tagged (root_id root)) (snd a) /\
    (par = false -> snd a = []).
Proof.
  destruct fuel as [|fuel]; [discriminate|]. cbn [processCommentThread].
  intros E.
  destruct (processCommentThread_body_shape
              (processCommentThread fuel) (fetchReplies fuel)
              (proj2 (fuel_invariants fuel)) tr d par w w' a E)
    as (root & R & (more & E1 & F1) & (ds & E2 & F2) & S).
  exists root, more. cbn [fst snd] in *.
  split; [rewrite E1; now destruct root|].
  split; [exact R|]. split; [exact F1|].
  split; [now rewrite E2|exact S].
Qed.

(** The sample thread that announces its replies: the root comes first
    and the token collected is tagged with its id. *)
Lemma thread_yields_root_then_replies_witness :
  match processCommentThread
          5 (prop "commentThreadRenderer" thread_with_replies) 0 true
          replies_world with
  | (Ret a, _) =>
      exists root replies,
        fst a = match root with Some c => c :: replies | None => replies end /\
        Forall (fun c => isReply c = VBool true) replies /\
        Forall (tagged (root_id root)) (snd a)
  | _ => False
  end.
Proof.
  destruct (processCommentThread
              5 (prop "commentThreadRenderer" thread_with_replies) 0 true
              replies_world) as [[a| |] w'] eqn:E.
  - destruct (thread_yields_root_then_replies _ _ _ _ _ _ _ E)
      as (root & replies & E1 & _ & F & T & _).
    exists root, replies. auto.
  - vm_compute in E. discriminate.
  - vm_compute in E. discriminate.
Defined.

End ThreadExtras.

(** ** More on the entity store and the resolver *)

Module ResolverExtras.
Import Resolver Threads MainFetch Spec Samples EntityFacts ResolverFacts.

Lemma fold_res_app {A B} (f : A -> B -> res A) (xs ys : list B) (acc : A) :
  fold_res f (xs ++ ys) acc = res_bind (fold_res f xs acc) (fold_res f ys).
Proof.
  revert acc. induction xs as [|x rest IH]; intros acc; cbn; [reflexivity|].
  destruct (f acc x); cbn; auto.
Qed.

Lemma parseEntityStore_updates (ms : list value) :
  parseEntityStore (updates ms) = fold_res parse_mutation ms JSMap.empty.
Proof. reflexivity. Qed.

(** Mutations under other keys leave the payload of a key alone. *)
Lemma fold_parse_other (k : value) (ms : list value) :
  Forall (fun m => sameValueZero (prop "entityKey" m) k = false) ms ->
  forall acc store,
    fold_res parse_mutation ms acc = Ret store ->
    JSMap.get store k = JSMap.get acc k.
Proof.
  induction 1 as [|m rest Hm _ IH]; intros acc store E; cbn in E.
  - now inversion E.
  - unfold res_bind in E.
    destruct (parse_mutation acc m) as [acc'| |] eqn:Em; try discriminate.
    rewrite (IH _ _ E). clear E IH.
    unfold parse_mutation, member_of, res_bind in Em.
    destruct (nullish m); try discriminate.
    destruct (truthy (prop "payload" m)); [|now inversion Em].
    destruct (truthy (prop "commentEntityPayload" (prop "payload" m)));
      inversion Em; now rewrite get_set, Hm.
Qed.

(** X17.  Within one batch update the last mutation of a key wins.  When
    [parseEntityStore] succeeds on a list of mutations, the payload it
    holds under a string key is the payload of the last mutation of that
    key that carries one, its [commentEntityPayload] when it has one. *)
Theorem last_mutation_of_a_key_wins (pre post : list value) (m : value)
    (k : string) (store : JSMap.t) :
  prop "entityKey" m = VStr k ->
  truthy (prop "payload" m) = true ->
  Forall (fun m' => sameValueZero (prop "entityKey" m') (VStr k) = false)
         post ->
  parseEntityStore (updates (pre ++ m :: post)) = Ret store ->
  JSMap.get store (VStr k)
  = if truthy (prop "commentEntityPayload" (prop "payload" m))
    then prop "commentEntityPayload" (prop "payload" m)
    else prop "payload" m.
Proof.
  intros K P O E. rewrite parseEntityStore_updates, fold_res_app in E.
  unfold res_bind in E.
  destruct (fold_res parse_mutation pre JSMap.empty) as [acc| |];
    try discriminate.
  cbn [fold_res] in E. unfold res_bind in E.
  destruct (parse_mutation acc m) as [acc'| |] eqn:Em; try discriminate.
  rewrite (fold_parse_other _ _ O _ _ E).
  unfold parse_mutation, member_of, res_bind in Em.
  destruct (nullish m); try discriminate. rewrite P, K in Em.
  assert (R : sameValueZero (VStr k) (VStr k) = true)
    by (cbn; apply String.eqb_refl).
  destruct (truthy (prop "commentEntityPayload" (prop "payload" m)));
    inversion Em; now rewrite get_set, R.
Qed.

(** The sample update that carries the key ["k2"] twice. *)
Lemma last_mutation_of_a_key_wins_witness :
  exists store,
    parseEntityStore (updates ([mutation "k2" "a2"]
                               ++ mutation "k2" "b2" :: [mutation "k3" "b3"]))
    = Ret store /\
    JSMap.get store (VStr "k2") = payload_of "b2".
Proof.
  eexists. split; [reflexivity|].
  apply (last_mutation_of_a_key_wins
           [mutation "k2" "a2"] [mutation "k3" "b3"] (mutation "k2" "b2") "k2").
  - reflexivity.
  - reflexivity.
  - constructor; [reflexivity|constructor].
  - reflexivity.
Defined.

(** X18.  A mutation without a payload changes nothing.  A mutation that
    is an object without a [payload] (such as a deletion) is skipped: the
    update parses to the same map as the update without it, so an entity
    once stored is never removed. *)
Theorem mutation_without_payload_is_skipped (pre post : list value)
    (m : value) :
  nullish m = false ->
  truthy (prop "payload" m) = false ->
  parseEntityStore (updates (pre ++ m :: post))
  = parseEntityStore (updates (pre ++ post)).
Proof.
  intros N P. rewrite !parseEntityStore_updates, !fold_res_app.
  destruct (fold_res parse_mutation pre JSMap.empty) as [acc| |];
    cbn [res_bind fold_res]; try reflexivity.
  unfold parse_mutation at 1. unfold member_of. rewrite N. cbn [res_bind].
  now rewrite P.
Qed.

(** A deletion between two sample mutations. *)
Lemma mutation_without_payload_is_skipped_witness :
  parseEntityStore
    (updates ([mutation "k1" "a1"]
              ++ VObj [("entityKey", VStr "k1"); ("type", VStr "DELETE")]
                 :: [mutation "k2" "a2"]))
  = parseEntityStore (updates ([mutation "k1" "a1"] ++ [mutation "k2" "a2"])).
Proof.
  apply mutation_without_payload_is_skipped; reflexivity.
Defined.

Lemma author_truthy (source : value) :
  truthy (or_ (found_author source) (VStr "Unknown")) = true.
Proof. now apply or_truthy_r. Qed.

(** X19.  A stored entity overrides the view model.  When the entity
    store holds a payload under the key of a view model, the record is
    built from that payload alone, exactly as if the payload had been
    resolved on its own; only the id is taken from the view model. *)
Theorem stored_entity_overrides_view_model (vm : value) (m : JSMap.t) :
  truthy vm = true ->
  truthy (key_of vm) = true ->
  truthy (JSMap.get m (key_of vm)) = true ->
  resolveComment vm (Some m)
  = match resolveComment (JSMap.get m (key_of vm)) None with
    | Ret (Some c) => Ret (Some (set_id c (key_of vm)))
    | r => r
    end.
Proof.
  intros V K P.
  assert (S1 : source_of vm (Some m) = JSMap.get m (key_of vm)).
  { unfold source_of. rewrite K. now apply or_truthy_l. }
  assert (S2 : source_of (JSMap.get m (key_of vm)) None
               = JSMap.get m (key_of vm)) by reflexivity.
  unfold resolveComment. rewrite V, P, S1, S2. cbn [negb]. cbv zeta.
  unfold found_id. rewrite K.
  set (p := JSMap.get m (key_of vm)).
  unfold res_bind.
  destruct (found_text p) as [t| |]; try reflexivity.
  destruct (found_authorUrl p) as [u| |]; try reflexivity.
  destruct (found_member p) as [mb| |]; try reflexivity.
  rewrite !author_truthy. cbn [negb andb]. rewrite !andb_false_r.
  reflexivity.
Qed.

(** The sample view model, its payload being in the store: the record
    carries the text of the payload and the key of the view model. *)
Lemma stored_entity_overrides_view_model_witness :
  exists c,
    resolveComment keyed_view_model (Some [(VStr "K1", entity_payload)])
    = Ret (Some c) /\
    id c = VStr "K1" /\ text c = VStr "hi there".
Proof.
  eexists. split; [|split].
  - eapply eq_trans;
      [exact (stored_entity_overrides_view_model
                keyed_view_model [(VStr "K1", entity_payload)]
                eq_refl eq_refl eq_refl)|].
    vm_compute. reflexivity.
  - reflexivity.
  - reflexivity.
Defined.

Lemma absolute_url_shape (u r : value) :
  absolute_url (or_ u (VStr EmptyString)) = Ret r ->
  exists s, r = VStr s /\ (s = EmptyString \/ startsWith "http" s = true).
Proof.
  unfold absolute_url, or_.
  destruct (truthy u) eqn:T.
  - rewrite T. destruct u; try discriminate.
    destruct (startsWith "http" s) eqn:S; intros E; inversion E.
    + exists s. auto.
    + eexists. split; [reflexivity|]. right. reflexivity.
  - cbn. intros E. inversion E. exists EmptyString. auto.
Qed.

(** X20.  What every resolved record carries.  A record returned by
    [resolveComment] has an author and a like count that are not empty
    (['Unknown'] and ['0'] when nothing is found); its [isMember] flag is
    the truth value of its member label; its author URL is a string that
    is empty or starts with [http], a relative URL having been prefixed
    with the origin of the site; and it is not yet linked: [isReply] and
    [parentId] are unset. *)
Theorem resolved_record_is_complete (vm : value) (store : option JSMap.t)
    (c : comment) :
  resolveComment vm store = Ret (Some c) ->
  truthy (author c) = true /\
  truthy (likes c) = true /\
  isMember c = VBool (truthy (member c)) /\
  (exists s, authorUrl c = VStr s /\
             (s = EmptyString \/ startsWith "http" s = true)) /\
  isReply c = VUndef /\ parentId c = VUndef.
Proof.
  unfold resolveComment, res_bind.
  destruct (truthy vm); cbn [negb]; try discriminate.
  destruct (found_text _); try discriminate.
  destruct (found_authorUrl _) as [u| |] eqn:U; try discriminate.
  destruct (found_member _); try discriminate.
  rewrite author_truthy. cbn [negb andb]. rewrite !andb_false_r.
  intros E. inversion E. cbn.
  split; [apply author_truthy|].
  split; [apply or_truthy_r, or_truthy_r; reflexivity|].
  split; [reflexivity|]. split; [|now split].
  unfold found_authorUrl in U.
  match type of U with
  | absolute_url (or_ ?a (or_ ?b _)) = _ =>
      assert (Eo : or_ a (or_ b (VStr EmptyString))
                   = or_ (or_ a b) (VStr EmptyString))
        by (unfold or_; destruct (truthy a) eqn:Ta;
            [now rewrite Ta|reflexivity]);
      rewrite Eo in U
  end.
  eapply absolute_url_shape; eauto.
Qed.

(** The record resolved from the sample payload. *)
Lemma resolved_record_is_complete_witness :
  exists c,
    resolveComment keyed_view_model (Some [(VStr "K1", entity_payload)])
    = Ret (Some c) /\
    truthy (author c) = true /\ authorUrl c = VStr EmptyString.
Proof.
  eexists. split; [vm_compute; reflexivity|].
  split.
  - eapply (resolved_record_is_complete
              keyed_view_model (Some [(VStr "K1", entity_payload)])).
    vm_compute. reflexivity.
  - reflexivity.
Defined.

(** X21.  The next token is read from the last item only.  Among the
    continuation items of a response, [extractNextContinuation] looks at
    the last one: the items before it do not matter; a response without
    items, or whose last item is not a continuation item, yields no
    token, so that [fetchCommentsViaContinuation] returns no next token
    and the walk ends. *)
Theorem next_token_read_from_last_item (items : list value)
    (lastItem : value) :
  extractNextContinuation (append_items (items ++ [lastItem]))
  = extractNextContinuation (append_items [lastItem]) /\
  extractNextContinuation (append_items []) = (VNull, VNull) /\
  (nullish (opt_path ["continuationItemRenderer"] lastItem) = true ->
   next_token_of (extractNextContinuation (append_items (items ++ [lastItem])))
   = VNull).
Proof.
  assert (Hlast : forall its,
             extractNextContinuation (append_items (its ++ [lastItem]))
             = (let cir := opt_path ["continuationItemRenderer"] lastItem in
                (or_ (opt_path ["button"; "buttonRenderer"; "command";
                                "continuationCommand"; "token"] cir)
                     (or_ (opt_path ["continuationEndpoint";
                                     "continuationCommand"; "token"] cir)
                          VNull),
                 or_ (opt_path ["button"; "buttonRenderer"; "command";
                                "clickTrackingParams"] cir)
                     (or_ (opt_path ["continuationEndpoint";
                                     "clickTrackingParams"] cir)
                          VNull)))).
  { intros its. unfold extractNextContinuation, append_items.
    cbn [member_of nullish prop assoc String.eqb Ascii.eqb Bool.eqb].
    change (opt_path ["1"; "reloadContinuationItemsCommand";
                      "continuationItems"]
              (VArr [VObj [("appendContinuationItemsAction",
                            VObj [("continuationItems",
                                   VArr (its ++ [lastItem]))])]]))
      with VUndef.
    change (opt_path ["0"; "appendContinuationItemsAction";
                      "continuationItems"]
              (VArr [VObj [("appendContinuationItemsAction",
                            VObj [("continuationItems",
                                   VArr (its ++ [lastItem]))])]]))
      with (VArr (its ++ [lastItem])).
    unfold or_ at 1. cbn [truthy nonempty_array].
    unfold or_ at 1. cbn [truthy].
    destruct (its ++ [lastItem]) as [|x xs] eqn:Ex.
    - destruct its; discriminate.
    - rewrite <- Ex, last_last. reflexivity. }
  split; [|split].
  - rewrite (Hlast items). exact (eq_sym (Hlast [])).
  - reflexivity.
  - intros N. rewrite (Hlast items). cbv zeta.
    destruct (opt_path ["continuationItemRenderer"] lastItem);
      try discriminate; reflexivity.
Qed.

(** The sample page ends with a continuation item; put a comment after
    it and no token is found. *)
Lemma next_token_read_from_last_item_witness :
  next_token_of
    (extractNextContinuation
       (append_items ([legacy_comment "c1" "ann" "one"]
                      ++ [legacy_comment "c9" "ann" "last"])))
  = VNull.
Proof.
  apply (proj2 (proj2 (next_token_read_from_last_item
                         [legacy_comment "c1" "ann" "one"]
                         (legacy_comment "c9" "ann" "last")))).
  reflexivity.
Defined.

End ResolverExtras.

(** ** Finding the token of the newest-first sort *)

Module DiscoveryExtras.
Import Resolver Discovery Spec Samples.

Lemma in_insert_indexed {A} (i : N) (x : A) (l : list (N * A)) (e : N * A) :
  In e (insert_indexed i x l) <-> e = (i, x) \/ In e l.
Proof.
  induction l as [|[j y] rest IH]; cbn.
  - intuition congruence.
  - destruct (i <=? j)%N; cbn; [intuition congruence|].
    rewrite IH. intuition congruence.
Qed.

(** [Object.entries] lists every property, and nothing else. *)
Lemma in_entries {A} (fields : list (string * A)) (kv : string * A) :
  In kv (entries fields) <-> In kv fields.
Proof.
  unfold entries. rewrite in_app_iff, in_map_iff, filter_In.
  assert (I : forall e, In e (indexed fields) <->
                        In (snd e) fields /\ array_index (fst (snd e)) = Some (fst e)).
  { induction fields as [|[k v] rest IH]; intros e; cbn; [tauto|].
    destruct (array_index k) as [i|] eqn:E.
    - rewrite in_insert_indexed, IH. split.
      + intros [->|[H1 H2]]; cbn; auto.
      + intros [[H0|H1] H2].
        * left. destruct e as [j kv']. cbn in *. subst kv'. cbn in H2.
          congruence.
        * right. now split.
    - rewrite IH. split.
      + intros [H1 H2]. auto.
      + intros [[H0|H1] H2]; [|now split].
        rewrite <- H0 in H2. cbn in H2. congruence. }
  split.
  - intros [(e & <- & He)|[H _]]; [now apply I in He|exact H].
  - intros H. destruct (array_index (fst kv)) as [i|] eqn:E.
    + left. exists (i, kv). split; [reflexivity|]. apply I. now split.
    + right. now split.
Qed.

Lemma insert_indexed_map {A B} (g : A -> B) (i : N) (x : A) (l : list (N * A)) :
  insert_indexed i (g x) (map (fun e => (fst e, g (snd e))) l)
  = map (fun e => (fst e, g (snd e))) (insert_indexed i x l).
Proof.
  induction l as [|[j y] rest IH]; cbn; [reflexivity|].
  destruct (i <=? j)%N; cbn; [reflexivity|]. now rewrite IH.
Qed.

(** [Object.entries] looks at the names only. *)
Lemma entries_map {A B} (g : A -> B) (fields : list (string * A)) :
  entries (map (fun kv => (fst kv, g (snd kv))) fields)
  = map (fun kv => (fst kv, g (snd kv))) (entries fields).
Proof.
  unfold entries. rewrite map_app. f_equal.
  - assert (I : indexed (map (fun kv => (fst kv, g (snd kv))) fields)
                = map (fun e => (fst e, (fst (snd e), g (snd (snd e)))))
                      (indexed fields)).
    { induction fields as [|[k v] rest IH]; [reflexivity|].
      cbn [map]. unfold indexed in *. cbn [fold_right fst snd]. rewrite IH.
      destruct (array_index k); [|reflexivity].
      exact (insert_indexed_map (fun kv : string * A => (fst kv, g (snd kv)))
                                n (k, v) _). }
    rewrite I, !map_map. reflexivity.
  - induction fields as [|[k v] rest IH]; cbn; [reflexivity|].
    destruct (array_index k); cbn; now rewrite IH.
Qed.

(** The search of an object: its properties in the order of
    [Object.entries], each a result when its name is the key, then
    searched in turn. *)
Lemma deepFind_object (k : string) (fields : list (string * value)) :
  deepFind k (VObj fields)
  = flat_map (fun kv => (if String.eqb (fst kv) k then [snd kv] else [])
                        ++ deepFind k (snd kv))
             (entries fields).
Proof.
  cbn [deepFind].
  rewrite (entries_map (fun v => (v, deepFind k v)) fields).
  rewrite flat_map_concat_map, map_map, <- flat_map_concat_map. reflexivity.
Qed.

Lemma deepFind_here (k : string) (fields : list (string * value)) (v : value) :
  In (k, v) fields -> In v (deepFind k (VObj fields)).
Proof.
  intros Hin. cbn [deepFind]. apply in_flat_map.
  exists (k, (v, deepFind k v)). split.
  - apply in_entries. apply in_map_iff. now exists (k, v).
  - cbn [fst snd]. rewrite String.eqb_refl. now left.
Qed.

Lemma deepFind_field (k p : string) (fields : list (string * value))
    (y : value) :
  In y (deepFind k (assoc p fields)) -> In y (deepFind k (VObj fields)).
Proof.
  intros Hin. cbn [deepFind]. apply in_flat_map.
  assert (F : exists kv, In kv fields /\ In y (deepFind k (snd kv))).
  { induction fields as [|[p' v'] rest IH]; cbn [assoc] in Hin; [destruct Hin|].
    destruct (String.eqb p p').
    - exists (p', v'). split; [now left|exact Hin].
    - destruct (IH Hin) as (kv & Hkv & Hy). exists kv. split; [now right|exact Hy]. }
  destruct F as (kv & Hkv & Hy).
  exists (fst kv, (snd kv, deepFind k (snd kv))). split.
  - apply in_entries. apply in_map_iff. now exists kv.
  - apply in_or_app. now right.
Qed.

Lemma deepFind_prop (k p : string) (x y : value) :
  In y (deepFind k (prop p x)) -> In y (deepFind k x).
Proof.
  destruct x as [| | | |s|items|fields]; cbn [prop]; try (intros []).
  - destruct (index_of_key p); [|intros []].
    unfold char_at. destruct (String.get n s); intros [].
  - destruct (index_of_key p) as [i|]; [|intros []].
    intros Hin. cbn [deepFind]. apply in_flat_map.
    destruct (Nat.lt_ge_cases i (List.length items)) as [Hlt|Hge].
    + exists (nth i items VUndef). split; [now apply nth_In|exact Hin].
    + rewrite nth_overflow in Hin by exact Hge. destruct Hin.
  - apply deepFind_field.
Qed.

(** X22.  [deepFind] reaches every depth.  Wherever an object that
    holds the key sits in the document (under any path of property names
    and array indices), the value it stores under the key is among the
    results. *)
Theorem deepFind_reaches_every_depth (k : string) (path : list string)
    (x : value) (fields : list (string * value)) (v : value) :
  opt_path path x = VObj fields ->
  In (k, v) fields ->
  In v (deepFind k x).
Proof.
  revert x. induction path as [|p rest IH]; intros x E Hin.
  - cbn in E. subst x. now apply deepFind_here.
  - cbn [opt_path] in E. destruct (nullish x); [discriminate|].
    apply (deepFind_prop k p). now apply IH.
Qed.

(** The sort menu of the sample page is found under a path of six
    steps. *)
Lemma deepFind_reaches_every_depth_witness :
  In sort_menu (deepFind "sortFilterSubMenuRenderer" initial_data).
Proof.
  apply (deepFind_reaches_every_depth
           "sortFilterSubMenuRenderer"
           ["contents"; "results"; "1"; "itemSectionRenderer"; "header"; "0";
            "commentsHeaderRenderer"; "sortMenu"]
           initial_data [("sortFilterSubMenuRenderer", sort_menu)]).
  - reflexivity.
  - now left.
Defined.

Lemma scan_items_sound (items : list value) :
  forall t0 tok,
    scan_items items t0 = Ret tok -> truthy tok = true -> truthy t0 = false ->
    exists item, In item items /\ offers_newest item tok.
Proof.
  induction items as [|item rest IH]; intros t0 tok E T T0; cbn in E.
  - inversion E. congruence.
  - unfold res_bind in E.
    destruct (titled_newest item) as [[|]| |] eqn:N; try discriminate.
    + destruct (truthy (item_token item)) eqn:Ti.
      * inversion E. subst tok. exists item. split; [now left|].
        now repeat split.
      * destruct (IH _ _ E T Ti) as (i & Hi & O). exists i. split; [now right|exact O].
    + destruct (IH _ _ E T T0) as (i & Hi & O). exists i. split; [now right|exact O].
Qed.

Lemma scan_menus_sound (menus : list value) :
  forall t0 tok,
    scan_menus menus t0 = Ret tok -> truthy tok = true -> truthy t0 = false ->
    exists menu items item,
      In menu menus /\ iterate (prop "subMenuItems" menu) = Ret items /\
      In item items /\ offers_newest item tok.
Proof.
  induction menus as [|menu rest IH]; intros t0 tok E T T0; cbn in E.
  - inversion E. congruence.
  - unfold res_bind, member_of in E.
    destruct (nullish menu); [discriminate|].
    assert (Hrest : forall t1, truthy t1 = false ->
                               scan_menus rest t1 = Ret tok ->
               exists menu0 items item,
                 In menu0 (menu :: rest) /\
                 iterate (prop "subMenuItems" menu0) = Ret items /\
                 In item items /\ offers_newest item tok).
    { intros t1 T1 E1. destruct (IH _ _ E1 T T1) as (m & its & i & Hm & R).
      exists m, its, i. split; [now right|exact R]. }
    destruct (truthy (prop "subMenuItems" menu)).
    + destruct (iterate (prop "subMenuItems" menu)) as [items| |] eqn:I;
        try discriminate.
      destruct (scan_items items t0) as [t1| |] eqn:S; try discriminate.
      destruct (truthy t1) eqn:T1; [|now apply (Hrest t1)].
      inversion E. subst t1.
      destruct (scan_items_sound _ _ _ S T T0) as (i & Hi & O).
      exists menu, items, i. split; [now left|auto].
    + rewrite T0 in E. now apply (Hrest t0).
Qed.

Lemma scan_sources_sound (sources : list value) :
  forall t0 tok,
    scan_sources sources t0 = Ret tok -> truthy tok = true ->
    truthy t0 = false ->
    exists source menu items item,
      In source sources /\
      In menu (deepFind "sortFilterSubMenuRenderer" source) /\
      iterate (prop "subMenuItems" menu) = Ret items /\
      In item items /\ offers_newest item tok.
Proof.
  induction sources as [|source rest IH]; intros t0 tok E T T0; cbn in E.
  - inversion E. congruence.
  - unfold res_bind in E.
    destruct (scan_menus (deepFind "sortFilterSubMenuRenderer" source) t0)
      as [t1| |] eqn:S; try discriminate.
    destruct (truthy t1) eqn:T1.
    + inversion E. subst t1.
      destruct (scan_menus_sound _ _ _ S T T0) as (m & its & i & Hm & R).
      exists source, m, its, i. split; [now left|]. split; [exact Hm|exact R].
    + destruct (IH _ _ E T T1) as (s & m & its & i & Hs & R).
      exists s, m, its, i. split; [now right|exact R].
Qed.

(** X23.  The newest-first token comes from a sort menu.  A token found
    by the search at the start of [extractComments] is the token of a
    sub menu item whose title includes ['Newest'] or ['En yeni'], listed
    by a [sortFilterSubMenuRenderer] of the initial data or of the
    comment section; no other token of the page is ever taken. *)
Theorem newest_token_comes_from_sort_menu (ytInitialData sectionData : value)
    (tok : value) :
  find_newest_token ytInitialData sectionData = Ret tok ->
  truthy tok = true ->
  exists source menu items item,
    In source [ytInitialData; sectionData] /\
    In menu (deepFind "sortFilterSubMenuRenderer" source) /\
    iterate (prop "subMenuItems" menu) = Ret items /\
    In item items /\ offers_newest item tok.
Proof.
  intros E T. unfold find_newest_token in E.
  destruct (scan_sources_sound _ _ _ E T eq_refl)
    as (s & m & its & i & Hs & R).
  exists s, m, its, i. split; [|exact R].
  unfold dataSources in Hs. apply filter_In in Hs. now destruct Hs.
Qed.

(** On the sample page the token found is that of the second item. *)
Lemma newest_token_comes_from_sort_menu_witness :
  exists item,
    In item [sort_item "Top comments" "TOP"; sort_item "Newest first" "NEW"] /\
    offers_newest item (VStr "NEW").
Proof.
  destruct (newest_token_comes_from_sort_menu initial_data VUndef (VStr "NEW"))
    as (s & m & its & i & Hs & Hm & Hi & Hin & O).
  - vm_compute. reflexivity.
  - reflexivity.
  - destruct Hs as [<-|[<-|[]]]; [|destruct Hm].
    vm_compute in Hm. destruct Hm as [<-|[]].
    vm_compute in Hi. inversion Hi. subst its.
    exists i. split; [exact Hin|exact O].
Defined.

Lemma other_sort_not_newest (item : value) :
  other_sort item -> titled_newest item = Ret false.
Proof.
  intros (s & Et & N1 & N2). unfold titled_newest, member_of.
  destruct (nullish item) eqn:N.
  - destruct item; try discriminate; discriminate.
  - cbn [res_bind]. rewrite Et. cbn [truthy includes].
    destruct (negb (String.eqb s EmptyString)); [|reflexivity].
    cbn [res_bind]. now rewrite N1, N2.
Qed.

Lemma scan_items_first (pre : list value) (item : value) (post : list value)
    (t0 : value) :
  Forall other_sort pre ->
  offers_newest item (item_token item) ->
  scan_items (pre ++ item :: post) t0 = Ret (item_token item).
Proof.
  intros F (N & _ & T). induction F as [|x pre Hx _ IH]; cbn.
  - now rewrite N, T.
  - now rewrite (other_sort_not_newest x Hx).
Qed.

(** X24.  The first item that offers the newest-first sort wins.  When
    the initial data holds a sort menu, and in the first one the search
    meets the items before some item all name other sorts while that item
    is titled ['Newest'] (or ['En yeni']) and carries a token, the search
    returns the token of that item, whatever follows it in the menu and
    in the rest of the page. *)
Theorem first_newest_item_wins (ytInitialData sectionData : value)
    (menu : value) (menus pre post : list value) (item : value) :
  truthy ytInitialData = true ->
  deepFind "sortFilterSubMenuRenderer" ytInitialData = menu :: menus ->
  prop "subMenuItems" menu = VArr (pre ++ item :: post) ->
  Forall other_sort pre ->
  offers_newest item (item_token item) ->
  find_newest_token ytInitialData sectionData = Ret (item_token item).
Proof.
  intros Ty D S F O. unfold find_newest_token, dataSources.
  cbn [filter]. rewrite Ty. cbn [scan_sources]. rewrite D.
  cbn [scan_menus]. unfold member_of.
  destruct (nullish menu) eqn:N.
  { destruct menu; try discriminate; discriminate. }
  cbn [res_bind]. rewrite S. cbn [truthy iterate res_bind].
  rewrite (scan_items_first pre item post VNull F O). cbn [res_bind].
  destruct O as (_ & _ & T). rewrite T. cbn [res_bind]. now rewrite T.
Qed.

(** On the sample page the item ["Top comments"] comes first and is
    passed over. *)
Lemma first_newest_item_wins_witness :
  find_newest_token initial_data VUndef = Ret (VStr "NEW").
Proof.
  apply (first_newest_item_wins
           initial_data VUndef sort_menu []
           [sort_item "Top comments" "TOP"] [] (sort_item "Newest first" "NEW")).
  - reflexivity.
  - reflexivity.
  - reflexivity.
  - constructor; [|constructor]. exists "Top comments". now repeat split.
  - now repeat split.
Defined.

End DiscoveryExtras.

(** ** Transcript segments *)

Module TranscriptExtras.
Import Transcript Spec Samples.

(** The state of the second pass: the texts grouped so far are those of
    the segments read, in order, and every group is within the
    interval. *)
Lemma group_step_inv (seg : segment) (st : list group * group) (done : list string) :
  flat_map g_texts (fst st) ++ g_texts (snd st) = done ->
  Forall within_interval (fst st) ->
  (g_texts (snd st) = [] \/ within_interval (snd st)) ->
  flat_map g_texts (fst (group_step st seg)) ++ g_texts (snd (group_step st seg))
  = done ++ [seg_text seg] /\
  Forall within_interval (fst (group_step st seg)) /\
  within_interval (snd (group_step st seg)).
Proof.
  destruct st as [grouped cur]. cbn [fst snd]. intros D F C.
  unfold group_step. cbn [fst snd].
  destruct (0 <? List.length (g_texts cur))%nat eqn:L; cbn [andb].
  - destruct C as [C|C].
    { rewrite C in L. discriminate. }
    destruct (gt (sub (endSeconds seg) (g_start cur)) INTERVAL) eqn:G;
      cbn [fst snd g_texts g_start g_end].
    + split; [|split].
      * rewrite flat_map_app. cbn [flat_map]. rewrite app_nil_r, D.
        reflexivity.
      * apply Forall_app. split; [exact F|]. now constructor.
      * split; [discriminate|now left].
    + split; [|split].
      * now rewrite app_assoc, D.
      * exact F.
      * split; [now destruct (g_texts cur)|]. right.
        destruct (g_texts cur); [discriminate|]. exact G.
  - cbn [fst snd g_texts g_start g_end].
    apply Nat.ltb_ge in L.
    assert (E : g_texts cur = [])
      by (destruct (g_texts cur); [reflexivity|cbn in L; lia]).
    rewrite E in *. cbn. split; [|split].
    + rewrite app_nil_r in D. now rewrite D.
    + exact F.
    + split; [discriminate|now left].
Qed.

Lemma fold_group_inv (segs : list segment) :
  forall st done,
    flat_map g_texts (fst st) ++ g_texts (snd st) = done ->
    Forall within_interval (fst st) ->
    (g_texts (snd st) = [] \/ within_interval (snd st)) ->
    flat_map g_texts (fst (fold_left group_step segs st))
    ++ g_texts (snd (fold_left group_step segs st))
    = done ++ map seg_text segs /\
    Forall within_interval (fst (fold_left group_step segs st)) /\
    (g_texts (snd (fold_left group_step segs st)) = [] \/
     within_interval (snd (fold_left group_step segs st))).
Proof.
  induction segs as [|seg rest IH]; intros st done D F C; cbn [fold_left map].
  - rewrite app_nil_r. auto.
  - destruct (group_step_inv seg st done D F C) as (D' & F' & C').
    destruct (IH (group_step st seg) (done ++ [seg_text seg]) D' F'
                 (or_intror C')) as (D2 & F2 & C2).
    rewrite <- app_assoc in D2. auto.
Qed.

Lemma group_segments_spec (segs : list segment) :
  flat_map g_texts (group_segments segs) = map seg_text segs /\
  Forall within_interval (group_segments segs).
Proof.
  unfold group_segments.
  destruct (fold_group_inv segs ([], mkGroup (Int 0) (Int 0) []) [])
    as (D & F & C); [reflexivity|constructor|now left|].
  cbn [app] in D. cbv zeta.
  destruct (0 <? List.length
                   (g_texts (snd (fold_left group_step segs
                                            ([], mkGroup (Int 0) (Int 0) [])))))%nat
    eqn:L.
  - split.
    + rewrite flat_map_app. cbn [flat_map]. now rewrite app_nil_r.
    + apply Forall_app. split; [exact F|].
      destruct C as [C|C]; [rewrite C in L; discriminate|].
      now constructor.
  - apply Nat.ltb_ge in L.
    destruct (g_texts (snd (fold_left group_step segs
                                      ([], mkGroup (Int 0) (Int 0) []))));
      [|cbn in L; lia].
    rewrite app_nil_r in D. auto.
Qed.

(** X25.  Grouping loses no text.  The second pass of the NVivo format
    puts every segment in exactly one group and keeps the order: the
    texts of the groups, read group after group, are the texts of the
    segments; no group is empty; and a group that holds several segments
    ends at most ten seconds after it starts. *)
Theorem grouping_keeps_every_text (segs : list segment) :
  flat_map g_texts (group_segments segs) = map seg_text segs /\
  Forall (fun g => g_texts g <> []) (group_segments segs) /\
  Forall (fun g => (2 <= List.length (g_texts g))%nat ->
                   gt (sub (g_end g) (g_start g)) (Int 10) = false)
         (group_segments segs).
Proof.
  destruct (group_segments_spec segs) as (D & F).
  split; [exact D|]. split.
  - eapply Forall_impl; [|exact F]. now intros g [N _].
  - eapply Forall_impl; [|exact F]. intros g [_ [L|G]] H2; [lia|exact G].
Qed.

(** The groups of the sample panel. *)
Lemma grouping_keeps_every_text_witness :
  Forall (fun g => gt (sub (g_end g) (g_start g)) (Int 10) = false)
         (filter (fun g => (2 <=? List.length (g_texts g))%nat)
                 (group_segments (collect_segments panel))).
Proof.
  apply Forall_forall. intros g Hg. apply filter_In in Hg.
  destruct Hg as [Hin H2]. apply Nat.leb_le in H2.
  destruct (grouping_keeps_every_text (collect_segments panel)) as (_ & _ & F).
  rewrite Forall_forall in F. now apply F.
Defined.

Lemma collect_segments_texts (segments : list dom_segment) :
  List.length (collect_segments segments)
  = List.length (filter has_text segments).
Proof.
  induction segments as [|seg rest IH]; [reflexivity|].
  cbn [collect_segments filter]. unfold has_text at 1. cbv zeta.
  destruct (filled (or_empty (segment_text seg))); cbn; now rewrite IH.
Qed.

Lemma classic_segments_texts (segments : list dom_segment) :
  List.length (classic_segments segments)
  = List.length (filter has_text segments).
Proof.
  induction segments as [|seg rest IH]; [reflexivity|].
  cbn [classic_segments filter]. unfold has_text at 1. cbv zeta.
  destruct (filled (or_empty (segment_text seg))); cbn; now rewrite IH.
Qed.

Lemma groups_count (segs : list segment) :
  (List.length (group_segments segs) <= List.length segs)%nat /\
  (segs <> [] -> group_segments segs <> []).
Proof.
  destruct (group_segments_spec segs) as (D & F).
  assert (L : (List.length (group_segments segs)
               <= List.length (flat_map g_texts (group_segments segs)))%nat).
  { clear D. induction F as [|g gs [N _] _ IH]; [cbn; lia|].
    cbn [flat_map List.length]. rewrite length_app.
    destruct (g_texts g); [congruence|]. cbn. lia. }
  rewrite D, length_map in L. split; [exact L|].
  intros N E. rewrite E in D. cbn in D. destruct segs; [congruence|discriminate].
Qed.

Lemma nvivo_lines_length (grouped : list group) :
  forall n, List.length (nvivo_lines grouped n) = List.length grouped.
Proof.
  induction grouped as [|g rest IH]; intros n; cbn; [reflexivity|].
  now rewrite IH.
Qed.

(** X26.  [parseDomSegments] returns [null] exactly when no segment has
    a text.  In both formats a segment without text is left out; the
    classic format yields one entry for each segment that has a text,
    and the NVivo format at least one entry and at most that many. *)
Theorem transcript_null_iff_no_text (segments : list dom_segment)
    (options : value) :
  (parseDomSegments segments options = None
   <-> filter has_text segments = []) /\
  (forall t,
      parseDomSegments segments options = Some t ->
      (1 <= List.length (t_segments t)
       <= List.length (filter has_text segments))%nat /\
      (useNVivoFormat options = false ->
       List.length (t_segments t) = List.length (filter has_text segments))).
Proof.
  unfold parseDomSegments.
  destruct (useNVivoFormat options); cbv zeta.
  - assert (C := collect_segments_texts segments).
    destruct (groups_count (collect_segments segments)) as (G1 & G2).
    cbn [List.length]. rewrite nvivo_lines_length.
    destruct (group_segments (collect_segments segments)) as [|g gs] eqn:E.
    + cbn. assert (Hc : collect_segments segments = []).
      { destruct (collect_segments segments); [reflexivity|].
        exfalso. now apply G2. }
      rewrite Hc in C. cbn in C.
      split; [split; [intros _|reflexivity]|intros t Ht; discriminate].
      now apply length_zero_iff_nil.
    + cbn [List.length Nat.ltb Nat.leb]. split.
      * split; [discriminate|]. intros N. rewrite N in C. cbn in C.
        cbn in G1. lia.
      * intros t Ht. injection Ht as <-. cbn [t_segments List.length map] in *.
        rewrite length_map. split; [lia|discriminate].
  - assert (C := classic_segments_texts segments).
    destruct (classic_segments segments) as [|l ls] eqn:E.
    + cbn. cbn in C.
      split; [split; [intros _|reflexivity]|intros t Ht; discriminate].
      now apply length_zero_iff_nil.
    + cbn [List.length Nat.ltb Nat.leb]. split.
      * split; [discriminate|]. intros N. rewrite N in C. discriminate.
      * intros t Ht. injection Ht as <-. cbn [t_segments List.length map] in *.
        rewrite length_map. split; [lia|intros _; lia].
Qed.

(** The sample panel in the classic format: three of its four segments
    have a text. *)
Lemma transcript_null_iff_no_text_witness :
  exists t,
    parseDomSegments panel VUndef = Some t /\
    List.length (t_segments t) = 3%nat.
Proof.
  destruct (parseDomSegments panel VUndef) as [t|] eqn:E.
  - exists t. split; [reflexivity|].
    destruct (proj2 (transcript_null_iff_no_text panel VUndef) t E) as (_ & L).
    rewrite L; reflexivity.
  - vm_compute in E. discriminate.
Defined.

End TranscriptExtras.

Module TimeExtras.
Import Transcript Spec Samples.

Lemma string_app_assoc (a b c : string) :
  ((a ++ b) ++ c)%string = (a ++ (b ++ c))%string.
Proof. induction a as [|x a IH]; cbn; [reflexivity|now rewrite IH]. Qed.

Lemma string_app_nil_r (a : string) : (a ++ EmptyString)%string = a.
Proof. induction a as [|x a IH]; cbn; [reflexivity|now rewrite IH]. Qed.

(** A decimal numeral holds no colon. *)
Lemma split_colon_uint (d : Decimal.uint) :
  forall rest cur,
    split_colon_acc (NilEmpty.string_of_uint d ++ rest) cur
    = split_colon_acc rest (cur ++ NilEmpty.string_of_uint d).
Proof.
  induction d; intros rest cur; cbn [NilEmpty.string_of_uint];
    [now rewrite string_app_nil_r|..];
    cbn [append split_colon_acc]; cbn [Ascii.eqb Bool.eqb];
    rewrite IHd, string_app_assoc; reflexivity.
Qed.

Lemma digits_value_acc (d : Decimal.uint) :
  forall rest acc,
    digits_value 10 (NilEmpty.string_of_uint d ++ rest) (Some (Z.pos acc))
    = digits_value 10 rest (Some (Z.pos (Pos.of_uint_acc d acc))).
Proof.
  induction d; intros rest acc;
    cbn [NilEmpty.string_of_uint Pos.of_uint_acc append];
    [reflexivity|..];
    cbn [digits_value];
    match goal with
    | |- context [digit_value 10 ?c] =>
        let v := eval vm_compute in (digit_value 10 c) in
        change (digit_value 10 c) with v
    end;
    cbv iota; rewrite <- IHd; f_equal; f_equal; lia.
Qed.

Lemma digits_value_zero (d : Decimal.uint) :
  forall rest,
    digits_value 10 (NilEmpty.string_of_uint d ++ rest) (Some 0%Z)
    = digits_value 10 rest (Some (Z.of_N (Pos.of_uint d))).
Proof.
  induction d; intros rest;
    cbn [NilEmpty.string_of_uint Pos.of_uint append];
    [reflexivity|..];
    cbn [digits_value];
    match goal with
    | |- context [digit_value 10 ?c] =>
        let v := eval vm_compute in (digit_value 10 c) in
        change (digit_value 10 c) with v
    end;
    cbv iota;
    [rewrite <- IHd; reflexivity|..];
    cbn [Z.of_N]; rewrite <- digits_value_acc; reflexivity.
Qed.

(** [parseInt] reads a decimal numeral back, whether it ends the string
    or is followed by a comma. *)
Lemma parseInt_uint (d : Decimal.uint) (rest : string) :
  d <> Decimal.Nil ->
  rest = EmptyString \/ rest = ",0" ->
  parseInt (NilEmpty.string_of_uint d ++ rest)
  = Int (Z.of_N (Pos.of_uint d)).
Proof.
  intros N R.
  assert (H1 : parseInt (NilEmpty.string_of_uint d ++ rest)
               = match digits_value 10 (NilEmpty.string_of_uint d ++ rest)
                                    (Some 0%Z) with
                 | Some v => Int v
                 | None => NaN
                 end).
  { destruct d as [|d|d|d|d|d|d|d|d|d|d]; [congruence|..];
      (destruct d as [|d|d|d|d|d|d|d|d|d|d];
       [destruct R as [-> | ->]; reflexivity|..]); reflexivity. }
  rewrite H1, digits_value_zero.
  destruct R as [-> | ->]; reflexivity.
Qed.

Lemma show_nonneg (z : Z) :
  (0 <= z)%Z ->
  exists d,
    d <> Decimal.Nil /\ show (Int z) = NilEmpty.string_of_uint d /\
    Z.of_N (Pos.of_uint d) = z.
Proof.
  intros Hz. destruct z as [|p|p]; [| |lia].
  - exists (Decimal.D0 Decimal.Nil). repeat split. discriminate.
  - exists (Pos.to_uint p).
    assert (N := DecimalPos.Unsigned.to_uint_nonnil p).
    split; [exact N|]. split.
    + unfold show, string_of_Z. cbn [Z.to_int NilZero.string_of_int].
      unfold NilZero.string_of_uint. now destruct (Pos.to_uint p).
    + now rewrite DecimalPos.Unsigned.of_to.
Qed.

Lemma padStart2_uint (d : Decimal.uint) :
  d <> Decimal.Nil ->
  exists d',
    d' <> Decimal.Nil /\
    padStart2 (NilEmpty.string_of_uint d) = NilEmpty.string_of_uint d' /\
    Pos.of_uint d' = Pos.of_uint d.
Proof.
  intros N.
  destruct d as [|d|d|d|d|d|d|d|d|d|d]; [congruence|..];
    (destruct d as [|d|d|d|d|d|d|d|d|d|d];
     [eexists (Decimal.D0 _); split; [discriminate|split; reflexivity]|..]);
    (eexists; split; [|split; reflexivity]; discriminate).
Qed.

(** X27.  A formatted time reads back as the same number of seconds.
    For a whole number of seconds that is not negative,
    [timeToSeconds] applied to the string [formatNVivoTime] produces
    (minutes and seconds, with the hours in front from one hour on, and a
    decimal after a comma) gives that number back. *)
Theorem formatted_time_reads_back (s : Z) :
  (0 <= s < 2 ^ 53)%Z ->
  timeToSeconds (formatNVivoTime (Int s)) = Int s.
Proof.
  intros [Hs _]. unfold formatNVivoTime.
  cbn [floor_div rem mul gt].
  assert (Hh : (0 <= s / 3600)%Z) by (apply Z.div_pos; lia).
  assert (Hm : (0 <= Z.rem s 3600 / 60)%Z).
  { apply Z.div_pos; [|lia]. apply Z.rem_nonneg; lia. }
  assert (Hc : (0 <= Z.rem s 60 / 1)%Z).
  { rewrite Z.div_1_r. apply Z.rem_nonneg; lia. }
  assert (Hd : show (Int (Z.rem (Z.rem s 60) 1 * 10 / 1)) = "0").
  { rewrite Z.rem_1_r. reflexivity. }
  rewrite Hd.
  destruct (show_nonneg _ Hh) as (dh & Nh & Sh & Vh).
  destruct (show_nonneg _ Hm) as (dm & Nm & Sm & Vm).
  destruct (show_nonneg _ Hc) as (dc & Nc & Sc & Vc).
  rewrite Sh, Sm, Sc.
  destruct (padStart2_uint dm Nm) as (dm' & Nm' & Pm & Vm').
  destruct (padStart2_uint dc Nc) as (dc' & Nc' & Pc & Vc').
  rewrite Pm, Pc.
  assert (Hsum : (s / 3600 * 3600 + Z.rem s 3600 / 60 * 60 + Z.rem s 60 / 1
                  = s)%Z).
  { rewrite !Z.rem_mod_nonneg by lia. Z.div_mod_to_equations. lia. }
  destruct (0 <? s / 3600)%Z eqn:H0.
  - unfold timeToSeconds, split_colon.
    rewrite split_colon_uint. cbn [append split_colon_acc Ascii.eqb Bool.eqb].
    rewrite split_colon_uint. cbn [append split_colon_acc Ascii.eqb Bool.eqb].
    rewrite split_colon_uint. cbn [append split_colon_acc Ascii.eqb Bool.eqb].
    rewrite <- (string_app_nil_r (NilEmpty.string_of_uint dh)) at 1.
    rewrite <- (string_app_nil_r (NilEmpty.string_of_uint dm')) at 1.
    rewrite !parseInt_uint by auto.
    rewrite string_app_assoc. cbn [append].
    rewrite parseInt_uint by auto.
    cbn [add mul]. rewrite Vm', Vc', Vh, Vm, Vc. f_equal. exact Hsum.
  - apply Z.ltb_ge in H0.
    assert (Hz : (s / 3600 = 0)%Z) by lia.
    unfold timeToSeconds, split_colon.
    rewrite split_colon_uint. cbn [append split_colon_acc Ascii.eqb Bool.eqb].
    rewrite split_colon_uint. cbn [append split_colon_acc Ascii.eqb Bool.eqb].
    rewrite <- (string_app_nil_r (NilEmpty.string_of_uint dm)) at 1.
    rewrite !parseInt_uint by auto.
    rewrite string_app_assoc. cbn [append].
    rewrite parseInt_uint by auto.
    cbn [add mul]. rewrite Vc', Vm, Vc. f_equal. lia.
Qed.

(** One hour, two minutes and five seconds. *)
Lemma formatted_time_reads_back_witness :
  formatNVivoTime (Int 3725) = "1:02:05,0" /\
  timeToSeconds "1:02:05,0" = Int 3725.
Proof.
  split; [reflexivity|].
  change "1:02:05,0" with (formatNVivoTime (Int 3725)).
  apply formatted_time_reads_back. lia.
Defined.

(** X28.  A clock time reads as its number of seconds.  A timestamp
    written as minutes and two-digit seconds, or as hours, two-digit
    minutes and two-digit seconds, reads as 60 times the minutes plus the
    seconds, plus 3600 times the hours, as long as that number is below
    2^53; the parts are not checked against a range, so that 75 seconds
    after the colon count as 75 seconds. *)
Theorem clock_time_reads_as_seconds (h m s : Z) :
  (0 <= h)%Z -> (0 <= m)%Z -> (0 <= s)%Z ->
  (h * 3600 + m * 60 + s < 2 ^ 53)%Z ->
  timeToSeconds (show (Int m) ++ ":" ++ padStart2 (show (Int s)))
  = Int (m * 60 + s) /\
  timeToSeconds (show (Int h) ++ ":" ++ padStart2 (show (Int m)) ++ ":"
                 ++ padStart2 (show (Int s)))
  = Int (h * 3600 + m * 60 + s).
Proof.
  intros Hh Hm Hs _.
  destruct (show_nonneg _ Hh) as (dh & Nh & Sh & Vh).
  destruct (show_nonneg _ Hm) as (dm & Nm & Sm & Vm).
  destruct (show_nonneg _ Hs) as (ds & Ns & Ss & Vs).
  rewrite Sh, Sm, Ss.
  destruct (padStart2_uint dm Nm) as (dm' & Nm' & Pm & Vm').
  destruct (padStart2_uint ds Ns) as (ds' & Ns' & Ps & Vs').
  rewrite Pm, Ps. unfold timeToSeconds, split_colon. split.
  - rewrite split_colon_uint. cbn [append split_colon_acc Ascii.eqb Bool.eqb].
    rewrite <- (string_app_nil_r (NilEmpty.string_of_uint ds')) at 1.
    rewrite split_colon_uint. cbn [append split_colon_acc].
    rewrite <- (string_app_nil_r (NilEmpty.string_of_uint dm)) at 1.
    rewrite <- (string_app_nil_r (NilEmpty.string_of_uint ds')) at 1.
    rewrite !parseInt_uint by auto.
    cbn [add mul]. now rewrite Vs', Vm, Vs.
  - rewrite split_colon_uint. cbn [append split_colon_acc Ascii.eqb Bool.eqb].
    rewrite split_colon_uint. cbn [append split_colon_acc Ascii.eqb Bool.eqb].
    rewrite <- (string_app_nil_r (NilEmpty.string_of_uint ds')) at 1.
    rewrite split_colon_uint. cbn [append split_colon_acc].
    rewrite <- (string_app_nil_r (NilEmpty.string_of_uint dh)) at 1.
    rewrite <- (string_app_nil_r (NilEmpty.string_of_uint dm')) at 1.
    rewrite <- (string_app_nil_r (NilEmpty.string_of_uint ds')) at 1.
    rewrite !parseInt_uint by auto.
    cbn [add mul]. now rewrite Vm', Vs', Vh, Vm, Vs.
Qed.

(** One minute and five seconds; and 75 seconds after the colon. *)
Lemma clock_time_reads_as_seconds_witness :
  timeToSeconds "1:05" = Int 65 /\ timeToSeconds "0:75" = Int 75.
Proof.
  split.
  - exact (proj1 (clock_time_reads_as_seconds 0 1 5 ltac:(lia) ltac:(lia)
                                              ltac:(lia) ltac:(lia))).
  - exact (proj1 (clock_time_reads_as_seconds 0 0 75 ltac:(lia) ltac:(lia)
                                              ltac:(lia) ltac:(lia))).
Defined.

End TimeExtras.

(** ** A record the store refuses *)

Module AbortExtras.
Import Sink Fallback Spec Samples BarrierFacts.

(** X29.  A record the store refuses aborts the extraction.  When some
    record handed to [saveCommentBatch] during a session has an id that
    is not empty and is not a valid key (a boolean or an object, say),
    [store.put] raises, the promise of that batch write is rejected, the
    barrier on the pending writes throws and [extractComments] returns
    [null], whatever the other writes have stored and without running the
    emergency scrape. *)
Theorem refused_record_aborts_extraction `{Host} (h : history)
    (domThreads : list dom_thread) (cs : list comment) (o : tx_outcome)
    (c : comment) :
  In (cs, o) h ->
  In c cs ->
  truthy (id c) = true ->
  valid_key (id c) = false ->
  returned (drain h domThreads) = None /\
  fallback_ran (drain h domThreads) = false.
Proof.
  intros Hh Hc T V. unfold drain.
  rewrite schedule_all_throws; [now split|].
  apply existsb_exists. exists (cs, o). split; [exact Hh|].
  apply existsb_exists. exists c. split; [exact Hc|].
  unfold storable. now rewrite T, V.
Qed.

(** A record whose id is an object, written after a good batch. *)
Lemma refused_record_aborts_extraction_witness :
  returned (drain [([record (VStr "a") "one"], TxComplete);
                   ([record (VObj []) "two"], TxComplete)]
                  rendered_threads)
  = None.
Proof.
  apply (refused_record_aborts_extraction
           [([record (VStr "a") "one"], TxComplete);
            ([record (VObj []) "two"], TxComplete)]
           rendered_threads [record (VObj []) "two"] TxComplete
           (record (VObj []) "two")).
  - right. now left.
  - now left.
  - reflexivity.
  - reflexivity.
Defined.

End AbortExtras.

(** ** The keys of the reply queue *)

Module DedupExtras.
Import Walker Spec Samples DedupFacts.

(** X30.  No two tasks of the reply queue share a key.  Whatever pages
    the main fetches yield, at the end of the walk the keys under which
    tasks were added to the reply queue are exactly the keys of the
    processed set, in the order they were met; each is the key of the
    descriptor its task fetches; and no key occurs twice. *)
Theorem queued_tasks_have_distinct_keys `{Host}
    (fetchMain : nat -> value -> batch) (continuationToken : value)
    (totalFetched0 : Z) :
  let w := fst (walk fetchMain continuationToken totalFetched0) in
  map fst (replyQueue w) = processedReplyTokens w /\
  Forall (fun kd => fst kd = tokenKey (snd kd)) (replyQueue w) /\
  distinct_tokens (map fst (replyQueue w)) = true.
Proof.
  intros w. subst w.
  destruct (walk_inv fetchMain continuationToken totalFetched0) as (Q & D & K).
  split; [exact Q|]. split; [exact K|]. rewrite Q. exact D.
Qed.

(** A batch that announces the same reply token twice, for two parents,
    adds one task. *)
Lemma queued_tasks_have_distinct_keys_witness :
  let twice := mkBatch [] VNull
                 (Some [mkDescriptor (reply_endpoint "R1") (VStr "c1");
                        mkDescriptor (reply_endpoint "R1") (VStr "c2")]) in
  replyQueue (fst (walk (fun _ _ => twice) (VStr "T0") 0))
    = [(VStr "R1", mkDescriptor (reply_endpoint "R1") (VStr "c1"))] /\
  distinct_tokens
    (map fst (replyQueue (fst (walk (fun _ _ => twice) (VStr "T0") 0)))) = true.
Proof.
  intros twice. split.
  - unfold walk, start_fetch.
    replace (Z.to_nat ceiling) with (S (S (Z.to_nat (ceiling - 2))))
      by (unfold ceiling; lia).
    reflexivity.
  - apply (queued_tasks_have_distinct_keys (fun _ _ => twice) (VStr "T0") 0).
Defined.

End DedupExtras.
